(** * Automatic_Hook: the auto-hooking engine and the transformer adapter

    A shallow embedding of [Components/AutoHooked.py], [utils.py] and
    [Auto_HookPoint/HookedTransformerAdapter.py].

    Python objects live in a store addressed by identity.  A module object
    carries its ordered dictionary of registered children ([_modules]), its
    parameters and the plain attributes the code reads or writes.  Every
    routine of the engine is a state-and-exception computation over that
    store; recursion through the module graph is bounded by a budget. *)

From Stdlib Require Import Ascii.
From stdpp Require Import base tactics option numbers list strings pretty.

Local Open Scope string_scope.
Local Open Scope list_scope.
Local Open Scope nat_scope.
Set Warnings "-register-all".

(** ** Outcomes and the store monad *)

(** The exceptions raised by the source, together with [InvalidTreeError],
    which only the specification names. *)
Inductive exn :=
| AttributeError
| ValueError
| AssertionError
| NotImplementedError
| TypeError
| InvalidTreeError.

(** [Undef] is not a Python outcome: the recursion budget ran out, or an
    address does not denote an object of the store. *)
Inductive outcome (A : Type) :=
| Ok (a : A)
| Raise (e : exn)
| Undef.
Arguments Ok {A} a.
Arguments Raise {A} e.
Arguments Undef {A}.

Abbreviation loc := nat (only parsing).

(** The classes the engine distinguishes with [isinstance]. [nn_Module]
    stands for every other subclass of [torch.nn.Module]. *)
Inductive cls :=
| nn_Module
| nn_ModuleList
| nn_Sequential
| nn_ModuleDict
| HookPoint
| HookedInstance.

#[global] Instance cls_eq_dec : EqDecision cls.
Proof. solve_decision. Defined.

(** The value of an attribute [forward]. *)
Inductive fwd :=
| FClass (owner : loc)              (* the method of the class, bound to [owner] *)
| FNew (self : loc) (orig : fwd)    (* the closure [new_forward] of [_create_forward] *)
| FStrip (orig : fwd).              (* the closure [wrapped_forward] of [_wrap_block] *)

Record attrs := Attrs {
  a_cls : cls;
  a_impl : bool;                      (* the class gives [forward] a body *)
  a_params : list (string * nat);     (* [_parameters]: name to tensor identity *)
  a_forward : option fwd;             (* instance attribute [forward] *)
  a_name : option string;             (* attribute [name] *)
  a_unwrap : option loc;              (* attribute [unwrap]: a closure returning that object *)
  a_hook_dict : list (string * loc);
  a_mod_dict : list (string * loc) }.

Record obj := Obj {
  o_attrs : attrs;
  o_modules : list (string * option loc) }.   (* [_modules], in insertion order *)

Abbreviation heap := (list obj) (only parsing).

Definition M (A : Type) : Type := heap → outcome (A * heap).

Definition ret {A} (a : A) : M A := λ h, Ok (a, h).
Definition bind {A B} (m : M A) (k : A → M B) : M B :=
  λ h, match m h with
       | Ok (a, h') => k a h'
       | Raise e => Raise e
       | Undef => Undef
       end.
Definition raise {A} (e : exn) : M A := λ _, Raise e.
Definition undef {A} : M A := λ _, Undef.

Notation "x ←- m ;; k" := (bind m (λ x, k))
  (at level 100, m at next level, right associativity).
Notation "m ;;; k" := (bind m (λ _, k))
  (at level 100, right associativity).

(** ** Ordered dictionaries *)

Fixpoint dict_get {V} (k : string) (d : list (string * V)) : option V :=
  match d with
  | [] => None
  | (k', v) :: d' => if decide (k = k') then Some v else dict_get k d'
  end.

(** [d[k] = v]: rebinding keeps the position of the key, a new key goes last. *)
Fixpoint dict_set {V} (k : string) (v : V) (d : list (string * V)) : list (string * V) :=
  match d with
  | [] => [(k, v)]
  | (k', v') :: d' =>
      if decide (k = k') then (k, v) :: d' else (k', v') :: dict_set k v d'
  end.

Definition dict_has {V} (k : string) (d : list (string * V)) : bool :=
  bool_decide (is_Some (dict_get k d)).

(** ** Objects *)

Definition is_container (c : cls) : bool :=
  match c with nn_ModuleList | nn_Sequential | nn_ModuleDict => true | _ => false end.

Definition is_ordered (c : cls) : bool :=
  match c with nn_ModuleList | nn_Sequential => true | _ => false end.

(** Whether the class itself implements [forward]. *)
Definition class_impl (c : cls) : bool :=
  match c with nn_Sequential | HookPoint => true | _ => false end.

(** The object a constructor called without arguments returns. *)
Definition fresh_obj (c : cls) : obj :=
  Obj (Attrs c (class_impl c) [] None None None [] []) [].

Definition set_modules (ms : list (string * option loc)) (o : obj) : obj :=
  Obj (o_attrs o) ms.

Definition set_forward (f : fwd) (o : obj) : obj :=
  let a := o_attrs o in
  Obj (Attrs (a_cls a) (a_impl a) (a_params a) (Some f) (a_name a) (a_unwrap a)
         (a_hook_dict a) (a_mod_dict a)) (o_modules o).

Definition set_name (n : string) (o : obj) : obj :=
  let a := o_attrs o in
  Obj (Attrs (a_cls a) (a_impl a) (a_params a) (a_forward a) (Some n) (a_unwrap a)
         (a_hook_dict a) (a_mod_dict a)) (o_modules o).

Definition set_unwrap (m : loc) (o : obj) : obj :=
  let a := o_attrs o in
  Obj (Attrs (a_cls a) (a_impl a) (a_params a) (a_forward a) (a_name a) (Some m)
         (a_hook_dict a) (a_mod_dict a)) (o_modules o).

Definition set_dicts (md hd : list (string * loc)) (o : obj) : obj :=
  let a := o_attrs o in
  Obj (Attrs (a_cls a) (a_impl a) (a_params a) (a_forward a) (a_name a) (a_unwrap a)
         hd md) (o_modules o).

Definition o_cls (o : obj) : cls := a_cls (o_attrs o).

(** [hasattr(module, name)] as [nn.Module.__getattr__] answers it for a name
    that is neither a method nor a plain attribute: parameters, then children. *)
Definition hasattr (o : obj) (name : string) : bool :=
  dict_has name (a_params (o_attrs o)) || dict_has name (o_modules o).

(** [module.forward]: the instance attribute when there is one, the bound
    method of the class otherwise. *)
Definition get_forward (l : loc) (o : obj) : fwd :=
  match a_forward (o_attrs o) with
  | Some f => f
  | None => FClass l
  end.

(** ** Store primitives *)

Definition deref (l : loc) : M obj :=
  λ h, match h !! l with Some o => Ok (o, h) | None => Undef end.

Definition alloc (o : obj) : M loc :=
  λ h, Ok (List.length h, (h ++ [o])%list).

Definition update (l : loc) (f : obj → obj) : M unit :=
  λ h, match h !! l with
       | Some o => Ok (tt, <[l := f o]> h)
       | None => Undef
       end.

(** [setattr(l, name, value)] for a module [value]: [nn.Module.__setattr__]
    registers it in [_modules]. *)
Definition setattr (l : loc) (name : string) (value : loc) : M unit :=
  update l (λ o, set_modules (dict_set name (Some value) (o_modules o)) o).

(** [add_module(name, module)], behind [ModuleList.append], [Sequential.append]
    and [ModuleDict.__setitem__]. *)
Definition add_module (l : loc) (name : string) (value : option loc) : M unit :=
  update l (λ o, set_modules (dict_set name value (o_modules o)) o).

(** [nn.Module.named_children]: registered children that are not [None],
    each object once. *)
Fixpoint named_children_from (memo : list loc) (ms : list (string * option loc))
  : list (string * loc) :=
  match ms with
  | [] => []
  | (_, None) :: ms' => named_children_from memo ms'
  | (name, Some c) :: ms' =>
      if decide (c ∈ memo) then named_children_from memo ms'
      else (name, c) :: named_children_from (c :: memo) ms'
  end.

Definition named_children (o : obj) : list (string * loc) :=
  named_children_from [] (o_modules o).

(** [prefix + ('.' if prefix else '') + name] *)
Definition join (prefix name : string) : string :=
  if decide (prefix = "") then name else prefix +:+ "." +:+ name.

(** [for x in xs: body(x)] *)
Fixpoint for_each {A} (xs : list A) (body : A → M unit) : M unit :=
  match xs with
  | [] => ret tt
  | x :: xs' => body x ;;; for_each xs' body
  end.

(** ** Traversal: [named_modules] *)

Section named_modules.
Variable h : heap.
  (** the dynamically dispatched recursive call [module.named_modules(memo, prefix)] *)
Variable rec : loc → list loc → string → outcome (list (string * loc) * list loc).

  (** the loop of [HookedInstance.named_modules] over [self._module.named_children()] *)
Fixpoint hooked_children (prefix : string) (cs : list (string * loc)) (memo : list loc)
    : outcome (list (string * loc) * list loc) :=
    match cs with
    | [] => Ok ([], memo)
    | (name, module) :: cs' =>
        if decide (module ∈ memo) then hooked_children prefix cs' memo
        else
          let submodule_prefix := join prefix name in
          match h !! module with
          | None => Undef
          | Some om =>
              let here := match o_cls om with
                          | HookedInstance => []
                          | _ => [(submodule_prefix, module)]
                          end in
              match rec module memo submodule_prefix with
              | Ok (out, memo') =>
                  match hooked_children prefix cs' memo' with
                  | Ok (out', memo'') => Ok ((here ++ out ++ out')%list, memo'')
                  | Raise e => Raise e
                  | Undef => Undef
                  end
              | Raise e => Raise e
              | Undef => Undef
              end
          end
    end.

  (** the loop of [nn.Module.named_modules] over [self._modules.items()] *)
Fixpoint plain_children (prefix : string) (ms : list (string * option loc)) (memo : list loc)
    : outcome (list (string * loc) * list loc) :=
    match ms with
    | [] => Ok ([], memo)
    | (_, None) :: ms' => plain_children prefix ms' memo
    | (name, Some module) :: ms' =>
        match rec module memo (join prefix name) with
        | Ok (out, memo') =>
            match plain_children prefix ms' memo' with
            | Ok (out', memo'') => Ok ((out ++ out')%list, memo'')
            | Raise e => Raise e
            | Undef => Undef
            end
        | Raise e => Raise e
        | Undef => Undef
        end
    end.
End named_modules.

(** [module.named_modules(memo, prefix)], dispatched on the class of [self]:
    the override of [HookedInstance], or the method of [nn.Module]. The result
    lists what the generator yields, in order, with the final [memo]. *)
Fixpoint named_modules (fuel : nat) (h : heap) (self : loc) (memo : list loc) (prefix : string)
  : outcome (list (string * loc) * list loc) :=
  match fuel with
  | 0 => Undef
  | S fuel' =>
      match h !! self with
      | None => Undef
      | Some o =>
          if decide (self ∈ memo) then Ok ([], memo)
          else
            match o_cls o with
            | HookedInstance =>
                match dict_get "_module" (o_modules o) with
                | Some (Some m) =>
                    match h !! m with
                    | None => Undef
                    | Some om =>
                        match hooked_children h (named_modules fuel' h) prefix
                                (named_children om) (self :: memo) with
                        | Ok (out, memo') =>
                            if hasattr o "hook_point" then
                              match dict_get "hook_point" (o_modules o) with
                              | Some (Some hp) =>
                                  Ok (((prefix, self) :: out ++ [(join prefix "hook_point", hp)])%list, memo')
                              | _ => Raise AttributeError
                              end
                            else Ok ((prefix, self) :: out, memo')
                        | Raise e => Raise e
                        | Undef => Undef
                        end
                    end
                | _ => Raise AttributeError
                end
            | _ =>
                match plain_children (named_modules fuel' h) prefix (o_modules o) (self :: memo) with
                | Ok (out, memo') => Ok ((prefix, self) :: out, memo')
                | Raise e => Raise e
                | Undef => Undef
                end
            end
      end
  end.

(** ** The naming pass: [HookedRootModule.setup] *)

Definition is_HookPoint (h : heap) (l : loc) : bool :=
  match h !! l with
  | Some o => match o_cls o with HookPoint => true | _ => false end
  | None => false
  end.

(** the dictionaries [mod_dict] and [hook_dict] built from what is yielded *)
Fixpoint collect (h : heap) (nm : list (string * loc)) (md hd : list (string * loc))
  : list (string * loc) * list (string * loc) :=
  match nm with
  | [] => (md, hd)
  | (name, module) :: nm' =>
      if decide (name = "") then collect h nm' md hd
      else collect h nm' (dict_set name module md)
             (if is_HookPoint h module then dict_set name module hd else hd)
  end.

Definition setup (fuel : nat) (self : loc) : M unit :=
  λ h, match named_modules fuel h self [] "" with
       | Ok (nm, _) =>
           (for_each nm (λ '(name, module),
                           if decide (name = "") then ret tt
                           else update module (set_name name)) ;;;
            update self (set_dicts (collect h nm [] []).1 (collect h nm [] []).2)) h
       | Raise e => Raise e
       | Undef => Undef
       end.

(** ** Wrapping *)

Section wrap.
  (** the recursive call [auto_hook(m)] *)
Variable auto_hook_rec : loc → M loc.

  (** [auto_hook(m)] for an element [m] of a container, which may be [None] *)
Definition auto_hook_elem (m : option loc) : M loc :=
    match m with
    | Some l => auto_hook_rec l
    | None => raise AttributeError        (* [None.forward] in [_create_forward] *)
    end.

Definition wrap_ordered (container : loc) (elems : list (string * option loc)) : M unit :=
    for_each elems (λ '(_, m),
      w ←- auto_hook_elem m ;;
      c ←- deref container ;;
      add_module container (pretty (List.length (o_modules c))) (Some w)).

Definition wrap_keyed (container : loc) (elems : list (string * option loc)) : M unit :=
    for_each elems (λ '(key, m),
      w ←- auto_hook_elem m ;;
      add_module container key (Some w)).

(** the body of the loop of [_wrap_submodules] *)
Definition wrap_child (self_module : loc) (child : string * loc) : M unit :=
  let '(name, submodule) := child in
  s ←- deref submodule ;;
  match o_cls s with
  | HookPoint => ret tt
  | nn_ModuleList | nn_Sequential =>
      Hooked_container ←- alloc (fresh_obj (o_cls s)) ;;
      wrap_ordered Hooked_container (o_modules s) ;;;
      setattr self_module name Hooked_container
  | nn_ModuleDict =>
      Hooked_container ←- alloc (fresh_obj (o_cls s)) ;;
      wrap_keyed Hooked_container (o_modules s) ;;;
      setattr self_module name Hooked_container
  | _ =>
      w ←- auto_hook_rec submodule ;;
      setattr self_module name w
  end.

Definition _wrap_submodules (self_module : loc) : M unit :=
  o ←- deref self_module ;;
  for_each (named_children o) (wrap_child self_module).
End wrap.

Definition _create_forward (self module : loc) : M unit :=
  o ←- deref module ;;
  update self (set_forward (FNew self (get_forward module o))).

(** [HookedInstance(module)] *)
Definition HookedInstance_init (fuel : nat) (auto_hook_rec : loc → M loc) (module : loc) : M loc :=
  self ←- alloc (fresh_obj HookedInstance) ;;
  setattr self "_module" module ;;;
  o ←- deref module ;;
  (if hasattr o "hook_point" then ret tt
   else hp ←- alloc (fresh_obj HookPoint) ;; setattr self "hook_point" hp) ;;;
  _create_forward self module ;;;
  _wrap_submodules auto_hook_rec module ;;;
  setup fuel self ;;;
  ret self.

(** [auto_hook(module)] for a module instance *)
Fixpoint auto_hook (fuel : nat) (module : loc) : M loc :=
  match fuel with
  | 0 => undef
  | S fuel' =>
      Hooked ←- HookedInstance_init fuel' (auto_hook fuel') module ;;
      update Hooked (set_unwrap module) ;;;
      ret Hooked
  end.

(** [HookedClass.__call__]: build the instance, then wrap it *)
Definition HookedClass_call (fuel : nat) (module_class : M loc) : M loc :=
  instance ←- module_class ;;
  auto_hook fuel instance.

(** [Hooked.unwrap()], the closure installed by [auto_hook] *)
Definition unwrap (Hooked : loc) : M loc :=
  o ←- deref Hooked ;;
  match a_unwrap (o_attrs o) with
  | Some m => ret m
  | None => raise AttributeError
  end.

(** [list_all_hooks] *)
Definition list_all_hooks (h : heap) (self : loc) : list (string * loc) :=
  match h !! self with
  | Some o => a_hook_dict (o_attrs o)
  | None => []
  end.

Definition hook_names (h : heap) (self : loc) : list string :=
  (list_all_hooks h self).*1.

(** ** Unwrapping: [HookedInstance.unwrap_instance] *)

Section unwrap_instance.
  (** the recursive call [m.unwrap_instance()] *)
Variable unwrap_rec : loc → M loc.

  (** [m.unwrap_instance() if isinstance(m, HookedInstance) else m] *)
Definition unwrap_elem (m : option loc) : M (option loc) :=
    match m with
    | None => ret None
    | Some l =>
        o ←- deref l ;;
        match o_cls o with
        | HookedInstance => r ←- unwrap_rec l ;; ret (Some r)
        | _ => ret (Some l)
        end
    end.

Definition unwrap_ordered (container : loc) (elems : list (string * option loc)) : M unit :=
    for_each elems (λ '(_, m),
      u ←- unwrap_elem m ;;
      c ←- deref container ;;
      add_module container (pretty (List.length (o_modules c))) u).

Definition unwrap_keyed (container : loc) (elems : list (string * option loc)) : M unit :=
    for_each elems (λ '(key, m),
      u ←- unwrap_elem m ;;
      add_module container key u).

(** the body of the loop of [unwrap_instance] *)
Definition unwrap_child (self_module : loc) (child : string * loc) : M unit :=
  let '(name, submodule) := child in
  s ←- deref submodule ;;
  match o_cls s with
  | nn_ModuleList | nn_Sequential =>
      unHooked_container ←- alloc (fresh_obj (o_cls s)) ;;
      unwrap_ordered unHooked_container (o_modules s) ;;;
      setattr self_module name unHooked_container
  | nn_ModuleDict =>
      unHooked_container ←- alloc (fresh_obj (o_cls s)) ;;
      unwrap_keyed unHooked_container (o_modules s) ;;;
      setattr self_module name unHooked_container
  | HookedInstance =>
      r ←- unwrap_rec submodule ;;
      setattr self_module name r
  | _ => ret tt
  end.

Definition unwrap_children (self_module : loc) : M unit :=
  o ←- deref self_module ;;
  for_each (named_children o) (unwrap_child self_module).
End unwrap_instance.

Fixpoint unwrap_instance (fuel : nat) (self : loc) : M loc :=
  match fuel with
  | 0 => undef
  | S fuel' =>
      o ←- deref self ;;
      match dict_get "_module" (o_modules o) with
      | Some (Some m) =>
          unwrap_children (unwrap_instance fuel') m ;;;
          ret m
      | _ => raise AttributeError
      end
  end.

(** ** Calling a forward computation *)

Section call.
Context {value : Type}.
  (** what the body of the class's own [forward] returns for the object [owner] *)
Variable class_forward : loc → list value → list (string * value) → value.

Inductive event :=
  | ECall (owner : loc) (args : list value) (kwargs : list (string * value))
  | EHook (hook_point : loc) (v : value).

  (** [self.hook_point(x)]: [HookPoint.forward] returns its argument *)
Definition call_hook_point (h : heap) (self : loc) (x : value) : outcome (value * list event) :=
    match h !! self with
    | None => Undef
    | Some o =>
        match dict_get "hook_point" (o_modules o) with
        | Some (Some hp) => if is_HookPoint h hp then Ok (x, [EHook hp x]) else Undef
        | Some None => Raise TypeError
        | None => Raise AttributeError
        end
    end.

Fixpoint call_forward (h : heap) (f : fwd) (args : list value) (kwargs : list (string * value))
    : outcome (value * list event) :=
    match f with
    | FClass owner =>
        match h !! owner with
        | None => Undef
        | Some o =>
            match o_cls o, args, kwargs with
            | HookPoint, [x], [] => Ok (x, [EHook owner x])
            | HookPoint, _, _ => Raise TypeError
            | _, _, _ =>
                if a_impl (o_attrs o)
                then Ok (class_forward owner args kwargs, [ECall owner args kwargs])
                else Raise NotImplementedError
            end
        end
    | FNew self original_forward =>
        (* return self.hook_point(original_forward( *args, **kwargs)) *)
        match call_forward h original_forward args kwargs with
        | Ok (r, tr) =>
            match call_hook_point h self r with
            | Ok (r', tr') => Ok (r', (tr ++ tr')%list)
            | Raise e => Raise e
            | Undef => Undef
            end
        | Raise e => Raise e
        | Undef => Undef
        end
    | FStrip original_forward =>
        (* return original_forward( *args) *)
        call_forward h original_forward args []
    end.

  (** [module.forward( *args, **kwargs)] *)
Definition forward (h : heap) (module : loc) (args : list value) (kwargs : list (string * value))
    : outcome (value * list event) :=
    match h !! module with
    | None => Undef
    | Some o => call_forward h (get_forward module o) args kwargs
    end.
End call.

(** ** [utils.py] *)

(** [has_implemented_forward]: the source text of [module.forward] is that of
    the class's method; [inspect.getsource] follows [functools.wraps] back to
    the forward [new_forward] was made from. *)
Fixpoint forward_source_implemented (h : heap) (f : fwd) : bool :=
  match f with
  | FClass owner =>
      match h !! owner with
      | Some o => a_impl (o_attrs o)
      | None => false
      end
  | FNew _ original_forward => forward_source_implemented h original_forward
  | FStrip _ => true
  end.

Definition has_implemented_forward (h : heap) (module : loc) : bool :=
  match h !! module with
  | Some o => forward_source_implemented h (get_forward module o)
  | None => false
  end.

(** [full_name.endswith('.hook_point')] *)
Definition ends_with (suffix s : string) : bool :=
  bool_decide (String.length suffix ≤ String.length s)%nat &&
  bool_decide (String.substring (String.length s - String.length suffix)%nat
                 (String.length suffix) s = suffix).

Section generate_expected_hookpoints.
Variable h : heap.
Variable rec : loc → string → outcome (list string).

Fixpoint expected_children (prefix : string) (cs : list (string * loc)) : outcome (list string) :=
    match cs with
    | [] => Ok []
    | (name, module) :: cs' =>
        let full_name := if decide (prefix = "") then name else prefix +:+ "." +:+ name in
        let own := if negb (ends_with ".hook_point" full_name) && has_implemented_forward h module
                   then [full_name +:+ ".hook_point"] else [] in
        match h !! module with
        | None => Undef
        | Some o =>
            let elems :=
              (fix go (i : nat) (es : list (string * option loc)) : outcome (list string) :=
                 match es with
                 | [] => Ok []
                 | (key, e) :: es' =>
                     match e with
                     | None => Raise AssertionError     (* assert isinstance(model, nn.Module) *)
                     | Some child =>
                         let k := if is_ordered (o_cls o) then pretty i else key in
                         match rec child (full_name +:+ "." +:+ k) with
                         | Ok l1 =>
                             match go (S i) es' with
                             | Ok l2 => Ok (l1 ++ l2)%list
                             | Raise e => Raise e
                             | Undef => Undef
                             end
                         | Raise e => Raise e
                         | Undef => Undef
                         end
                     end
                 end) in
            match (if is_container (o_cls o) then elems 0 (o_modules o) else Ok []) with
            | Ok l1 =>
                match rec module full_name with
                | Ok l2 =>
                    match expected_children prefix cs' with
                    | Ok l3 => Ok (own ++ l1 ++ l2 ++ l3)%list
                    | Raise e => Raise e
                    | Undef => Undef
                    end
                | Raise e => Raise e
                | Undef => Undef
                end
            | Raise e => Raise e
            | Undef => Undef
            end
        end
    end.
End generate_expected_hookpoints.

Fixpoint generate_expected_hookpoints (fuel : nat) (h : heap) (model : loc) (prefix : string)
  : outcome (list string) :=
  match fuel with
  | 0 => Undef
  | S fuel' =>
      match h !! model with
      | None => Undef
      | Some o =>
          expected_children h (generate_expected_hookpoints fuel' h) prefix (named_children o)
      end
  end.

(** ** The adapter: [HookedTransformerAdapter] *)

Module Adapter.

Inductive value :=
  | VModule (l : loc)
  | VTensor (t : nat)
  | VNone.

Record HookedTransformerConfig := {
    device : option string;
    tokenizer_name : option string;
    d_vocab : Z;
    positional_embedding_type : string;
    use_hook_tokens : bool;
    trust_remote_code : bool }.

Record HookedTransformerAdapterCfg := {
    block_attr : string;
    lm_head_attr : string;
    embedding_attr : string;
    positional_embedding_attr : string;
    last_layernorm_attr : option string }.

Record Tokenizer := {
    tokenizer_id : nat;
    pad_token : option string;
    eos_token : option string }.

Record AdaptedUnembed := { W_U : value; b_U : value }.
Record AdaptedPosEmbed := { W_pos : value }.

Record HookedTransformerAdapter := {
    map_cfg : HookedTransformerAdapterCfg;
    model : loc;
    cfg : HookedTransformerConfig;
    tokenizer : Tokenizer;
    unembed : AdaptedUnembed;
    embed : value;
    hook_embed : loc;
    ln_final : option value;
    pos_embed : option AdaptedPosEmbed;
    hook_pos_embed : option loc;
    hook_tokens : option loc;
    blocks : list loc;
    hook_dict : list (string * loc);
    mod_dict : list (string * loc) }.

  (** [getattr(obj, a)] on a module: a parameter, then a registered child *)
Definition getattr (obj : value) (a : string) : M value :=
    match obj with
    | VModule l =>
        o ←- deref l ;;
        match dict_get a (a_params (o_attrs o)) with
        | Some t => ret (VTensor t)
        | None =>
            match dict_get a (o_modules o) with
            | Some (Some c) => ret (VModule c)
            | Some None => ret VNone
            | None => raise AttributeError
            end
        end
    | _ => raise AttributeError
    end.

  (** [attr.split('.')] *)
Fixpoint split_dots (cur : string) (s : string) : list string :=
    match s with
    | EmptyString => [cur]
    | String c s' =>
        if decide (c = "."%char) then cur :: split_dots "" s'
        else split_dots (cur +:+ String c "") s'
    end.

Fixpoint getattr_each (obj : value) (attrs : list string) : M value :=
    match attrs with
    | [] => ret obj
    | a :: attrs' => o ←- getattr obj a ;; getattr_each o attrs'
    end.

Definition _get_attr_recursively (obj : value) (attr : string) : M value :=
    getattr_each obj (split_dots "" attr).

  (** [str.lower] on ASCII letters, and [needle in s] *)
Definition lower_char (c : ascii) : ascii :=
    let n := nat_of_ascii c in
    if bool_decide (65 ≤ n)%nat && bool_decide (n ≤ 90)%nat then ascii_of_nat (n + 32) else c.

Fixpoint lower (s : string) : string :=
    match s with
    | EmptyString => EmptyString
    | String c s' => String (lower_char c) (lower s')
    end.

Fixpoint contains (needle s : string) : bool :=
    String.prefix needle s ||
    match s with
    | EmptyString => false
    | String _ s' => contains needle s'
    end.

Definition _wrap_block (block : loc) : M loc :=
    o ←- deref block ;;
    update block (set_forward (FStrip (get_forward block o))) ;;;
    ret block.

Fixpoint wrap_blocks (bs : list (string * option loc)) : M (list loc) :=
    match bs with
    | [] => ret []
    | (_, None) :: _ => raise AttributeError          (* [None.forward] *)
    | (_, Some block) :: bs' =>
        b ←- _wrap_block block ;;
        rest ←- wrap_blocks bs' ;;
        ret (b :: rest)
    end.

Section init.
    (** Collaborators outside the repository, and [auto_hook] of
        [Auto_HookPoint/hook.py], which this file imports. *)
Variable AutoModelForCausalLM_from_pretrained : string → M loc.
Variable auto_hook : loc → M loc.
    (** name, [trust_remote_code], [use_fast], [token] *)
Variable AutoTokenizer_from_pretrained : string → bool → bool → option string → M Tokenizer.
    (** what [HookedTransformer.set_tokenizer] stores in [self.tokenizer] *)
Variable set_tokenizer : Tokenizer → string → Tokenizer.
Variable NON_HF_HOSTED_MODEL_NAMES : list string.
Variable HF_TOKEN : option string.

Definition validate_args (hf_model_name : option string) (model : option loc)
        (tokenizer : option Tokenizer) : M unit :=
      if Bool.eqb (bool_decide (is_Some hf_model_name))
                  (bool_decide (is_Some model) || bool_decide (is_Some tokenizer))
      then raise ValueError
      else ret tt.

    (** lines 144-149: [self.model] *)
Definition resolve_model (hf_model_name : option string) (model : option loc)
        (tokenizer : option Tokenizer) : M loc :=
      match hf_model_name with
      | Some name => m ←- AutoModelForCausalLM_from_pretrained name ;; auto_hook m
      | None =>
          match model, tokenizer with
          | Some m, Some _ => auto_hook m
          | _, _ => raise ValueError
          end
      end.

    (** lines 154-189: the state of the attribute [self.tokenizer] afterwards:
        never assigned, assigned [None], or assigned a tokenizer *)
Definition resolve_tokenizer (cfg : HookedTransformerConfig) (tokenizer : option Tokenizer)
        (default_padding_side : string) : M (option (option Tokenizer)) :=
      match tokenizer with
      | Some t => ret (Some (Some (set_tokenizer t default_padding_side)))
      | None =>
          match tokenizer_name cfg with
          | Some name =>
              if bool_decide (name ∈ NON_HF_HOSTED_MODEL_NAMES) then ret None
              else
                let use_fast := negb (contains "phi" (lower name)) in
                t ←- AutoTokenizer_from_pretrained name (trust_remote_code cfg) use_fast HF_TOKEN ;;
                ret (Some (Some (set_tokenizer t default_padding_side)))
          | None =>
              if bool_decide (d_vocab cfg = (-1)%Z) then raise AssertionError
              else ret (Some None)
          end
      end.

    (** line 191: [self.tokenizer.pad_token = self.tokenizer.eos_token] *)
Definition force_pad_token (tokenizer : option (option Tokenizer)) : M Tokenizer :=
      match tokenizer with
      | Some (Some t) => ret {| tokenizer_id := tokenizer_id t;
                                pad_token := eos_token t;
                                eos_token := eos_token t |}
      | _ => raise AttributeError
      end.

Definition from_regular_unembed (unembed : value) : M AdaptedUnembed :=
      w ←- getattr unembed "weight" ;;
      b ←- getattr unembed "bias" ;;
      ret {| W_U := w; b_U := b |}.

Definition from_regular_pos_embed (pos_embed : value) : M AdaptedPosEmbed :=
      w ←- getattr pos_embed "weight" ;;
      ret {| W_pos := w |}.

Definition _get_model_blocks (model : loc) (map_cfg : HookedTransformerAdapterCfg)
      : M (list loc) :=
      blocks ←- _get_attr_recursively (VModule model) (block_attr map_cfg) ;;
      match blocks with
      | VModule l =>
          o ←- deref l ;;
          match o_cls o with
          | nn_ModuleList | nn_Sequential => wrap_blocks (o_modules o)
          | nn_ModuleDict =>
              (* iterating yields the keys *)
              match o_modules o with [] => ret [] | _ => raise AttributeError end
          | _ => raise AssertionError
          end
      | _ => raise AssertionError
      end.

    (** the override of [setup]: names are those of the wrapped model *)
Definition setup (model : loc) : M (list (string * loc) * list (string * loc)) :=
      o ←- deref model ;;
      let hook_dict := a_hook_dict (o_attrs o) in
      for_each hook_dict (λ '(name, hook_point), update hook_point (set_name name)) ;;;
      ret (hook_dict, a_mod_dict (o_attrs o)).

Definition opt {A} (b : bool) (m : M A) : M (option A) :=
      if b then (a ←- m ;; ret (Some a)) else ret None.

    (** lines 151-213: everything after [self.model] is bound *)
Definition init_slots
        (map_cfg : HookedTransformerAdapterCfg)
        (hooked_transformer_cfg : HookedTransformerConfig)
        (tokenizer : option Tokenizer)
        (move_to_device : bool)
        (default_padding_side : string)
        (self_model : loc) : M HookedTransformerAdapter :=
      let cfg := hooked_transformer_cfg in
      self_tokenizer ←- resolve_tokenizer cfg tokenizer default_padding_side ;;
      tok ←- force_pad_token self_tokenizer ;;
      unembed ←- _get_attr_recursively (VModule self_model) (lm_head_attr map_cfg) ;;
      self_unembed ←- from_regular_unembed unembed ;;
      self_embed ←- _get_attr_recursively (VModule self_model) (embedding_attr map_cfg) ;;
      self_hook_embed ←- alloc (fresh_obj HookPoint) ;;
      self_ln_final ←-
        match last_layernorm_attr map_cfg with
        | Some a => v ←- _get_attr_recursively (VModule self_model) a ;; ret (Some v)
        | None => ret None
        end ;;
      let positional := negb (bool_decide (positional_embedding_type cfg = "rotary")) in
      self_pos_embed ←-
        opt positional
          (regular_pos_embed ←- _get_attr_recursively (VModule self_model)
                                  (positional_embedding_attr map_cfg) ;;
           from_regular_pos_embed regular_pos_embed) ;;
      self_hook_pos_embed ←- opt positional (alloc (fresh_obj HookPoint)) ;;
      self_hook_tokens ←- opt (use_hook_tokens cfg) (alloc (fresh_obj HookPoint)) ;;
      self_blocks ←- _get_model_blocks self_model map_cfg ;;
      dicts ←- setup self_model ;;
      (if move_to_device
       then match device cfg with Some _ => ret tt | None => raise AssertionError end
       else ret tt) ;;;
      ret {| map_cfg := map_cfg; model := self_model; cfg := cfg; tokenizer := tok;
             unembed := self_unembed; embed := self_embed; hook_embed := self_hook_embed;
             ln_final := self_ln_final; pos_embed := self_pos_embed;
             hook_pos_embed := self_hook_pos_embed; hook_tokens := self_hook_tokens;
             blocks := self_blocks; hook_dict := dicts.1; mod_dict := dicts.2 |}.

Definition __init__
        (map_cfg : HookedTransformerAdapterCfg)
        (hooked_transformer_cfg : HookedTransformerConfig)
        (hf_model_name : option string)
        (model : option loc)
        (tokenizer : option Tokenizer)
        (move_to_device : bool)
        (default_padding_side : string) : M HookedTransformerAdapter :=
      validate_args hf_model_name model tokenizer ;;;
      self_model ←- resolve_model hf_model_name model tokenizer ;;
      init_slots map_cfg hooked_transformer_cfg tokenizer move_to_device
        default_padding_side self_model.
End init.

  (** The weight accessors (properties of the class). *)
Definition W_E (self : HookedTransformerAdapter) : M value := getattr (embed self) "weight".
Definition W_K (self : HookedTransformerAdapter) : M value := raise NotImplementedError.
Definition W_Q (self : HookedTransformerAdapter) : M value := raise NotImplementedError.
Definition W_V (self : HookedTransformerAdapter) : M value := raise NotImplementedError.
Definition W_O (self : HookedTransformerAdapter) : M value := raise NotImplementedError.
Definition W_in (self : HookedTransformerAdapter) : M value := raise NotImplementedError.
Definition W_gate (self : HookedTransformerAdapter) : M value := raise NotImplementedError.
Definition W_out (self : HookedTransformerAdapter) : M value := raise NotImplementedError.
Definition b_K (self : HookedTransformerAdapter) : M value := raise NotImplementedError.
Definition b_Q (self : HookedTransformerAdapter) : M value := raise NotImplementedError.
Definition b_V (self : HookedTransformerAdapter) : M value := raise NotImplementedError.
Definition b_O (self : HookedTransformerAdapter) : M value := raise NotImplementedError.
Definition b_in (self : HookedTransformerAdapter) : M value := raise NotImplementedError.
Definition b_out (self : HookedTransformerAdapter) : M value := raise NotImplementedError.
Definition QK (self : HookedTransformerAdapter) : M value := raise NotImplementedError.
Definition OV (self : HookedTransformerAdapter) : M value := raise NotImplementedError.

End Adapter.

(** * Module trees

    A module tree is the unfolding of the store from one object: every node
    is an object, with its attributes and, per registered name, the subtree
    of that child ([None] for a child registered as [None]). *)

Inductive mtree :=
| Node (l : loc) (a : attrs) (kids : list (string * option mtree)).

Definition root (t : mtree) : loc := match t with Node l _ _ => l end.
Definition t_attrs (t : mtree) : attrs := match t with Node _ a _ => a end.
Definition t_kids (t : mtree) : list (string * option mtree) :=
  match t with Node _ _ kids => kids end.
Definition t_cls (t : mtree) : cls := a_cls (t_attrs t).

Definition kid_ref (k : string * option mtree) : string * option loc :=
  (k.1, root <$> k.2).

Fixpoint locs (t : mtree) : list loc :=
  match t with
  | Node l _ kids =>
      l :: flat_map (λ k, match k.2 with Some c => locs c | None => [] end) kids
  end.

Definition kids_locs (kids : list (string * option mtree)) : list loc :=
  flat_map (λ k, match k.2 with Some c => locs c | None => [] end) kids.

Fixpoint height (t : mtree) : nat :=
  match t with
  | Node _ _ kids =>
      S (foldr (λ k m, match k.2 with Some c => height c `max` m | None => m end) 0 kids)
  end.

(** the store holds the tree [t] *)
Inductive repr (h : heap) : mtree → Prop :=
| repr_node l a kids :
    h !! l = Some (Obj a (kid_ref <$> kids)) →
    Forall (λ k, ∀ c, k.2 = Some c → repr h c) kids →
    repr h (Node l a kids).

(** Conditions every module of the runtime meets: the names of the children
    of one module are distinct and not empty, an observation point has no
    children, and a recognised container held as a named child holds
    modules. *)
Inductive wf : mtree → Prop :=
| wf_node l a kids :
    NoDup kids.*1 →
    Forall (λ k, k.1 ≠ "") kids →
    (a_cls a = HookPoint → kids = []) →
    Forall (λ k, ∀ c, k.2 = Some c →
                 wf c ∧ (is_container (t_cls c) = true → Forall (λ e, is_Some e.2) (t_kids c)))
           kids →
    wf (Node l a kids).

(** the condition [wf] puts on each child *)
Definition kid_ok (k : string * option mtree) : Prop :=
  ∀ c, k.2 = Some c →
       wf c ∧ (is_container (t_cls c) = true → Forall (λ e, is_Some e.2) (t_kids c)).

(** a tree: no object occurs twice *)
Definition tree (t : mtree) : Prop := wf t ∧ NoDup (locs t).

(** the recursion budget that suffices for [t] *)
Definition budget (t : mtree) : nat := 2 * height t + 1.

(** [hasattr(module, 'hook_point')] on the root of [t] *)
Definition has_hp (t : mtree) : bool :=
  hasattr (Obj (t_attrs t) (kid_ref <$> t_kids t)) "hook_point".

(** ** The hook names of a tree

    The names under which the naming pass of the wrapper of [t] records
    observation points, for a wrapper named [prefix]. *)
Fixpoint hooks_of (prefix : string) (t : mtree) : list string :=
  match t with
  | Node l a kids =>
      (fix kids_hooks (ks : list (string * option mtree)) : list string :=
         match ks with
         | [] => []
         | (k, None) :: ks' => kids_hooks ks'
         | (k, Some c) :: ks' =>
             match c with
             | Node lc ac es =>
                 match a_cls ac with
                 | HookPoint => [join prefix k]
                 | nn_ModuleList | nn_Sequential | nn_ModuleDict =>
                     (fix elems_hooks (i : nat) (es : list (string * option mtree)) : list string :=
                        match es with
                        | [] => []
                        | (_, None) :: es' => elems_hooks (S i) es'
                        | (key, Some e) :: es' =>
                            hooks_of (join (join prefix k)
                                        (if is_ordered (a_cls ac) then pretty i else key)) e
                            ++ elems_hooks (S i) es'
                        end) 0 es
                 | _ => hooks_of (join prefix k) c
                 end
             end ++ kids_hooks ks'
         end) kids
      ++ (if hasattr (Obj a (kid_ref <$> kids)) "hook_point" then []
          else [join prefix "hook_point"])
  end.

(** the names contributed by the elements of a container rebuilt under [prefix] *)
Fixpoint elems_hooks (c : cls) (prefix : string) (i : nat) (es : list (string * option mtree))
  : list string :=
  match es with
  | [] => []
  | (_, None) :: es' => elems_hooks c prefix (S i) es'
  | (key, Some e) :: es' =>
      hooks_of (join prefix (if is_ordered c then pretty i else key)) e
      ++ elems_hooks c prefix (S i) es'
  end.

(** the names contributed by the child [c] registered as [k] *)
Definition kid_hooks (prefix k : string) (c : mtree) : list string :=
  match t_cls c with
  | HookPoint => [join prefix k]
  | nn_ModuleList | nn_Sequential | nn_ModuleDict =>
      elems_hooks (t_cls c) (join prefix k) 0 (t_kids c)
  | _ => hooks_of (join prefix k) c
  end.

Fixpoint kids_hooks (prefix : string) (ks : list (string * option mtree)) : list string :=
  match ks with
  | [] => []
  | (k, None) :: ks' => kids_hooks prefix ks'
  | (k, Some c) :: ks' => kid_hooks prefix k c ++ kids_hooks prefix ks'
  end.

(** ** The store after wrapping

    [wrapped h n n' t]: in [h], the objects allocated at [n], ..., [n' - 1]
    are the wrapper of [t] (at [n]), its observation point, and the wrappers
    and containers of everything below; the objects of [t] hold them in place
    of their children.  The attributes the naming pass writes on the objects
    it visits are left open: all of them on the allocated objects, the name
    on the observation points of [t]. *)

Definition with_name (nm : option string) (a : attrs) : attrs :=
  Attrs (a_cls a) (a_impl a) (a_params a) (a_forward a) nm (a_unwrap a)
    (a_hook_dict a) (a_mod_dict a).

(** [a'] is [a], up to the name when [a] is an observation point *)
Definition renamed_hook (a a' : attrs) : Prop :=
  a' = a ∨ (a_cls a = HookPoint ∧ ∃ nm, a' = with_name nm a).

Inductive wrapped (h : heap) : nat → nat → mtree → Prop :=
| wrapped_node n n' l a a' kids oH ms :
    h !! n = Some oH →
    o_cls oH = HookedInstance →
    a_params (o_attrs oH) = [] →
    a_forward (o_attrs oH) = Some (FNew n (get_forward l (Obj a []))) →
    o_modules oH = ("_module", Some l) ::
                   (if has_hp (Node l a kids) then [] else [("hook_point", Some (S n))]) →
    (has_hp (Node l a kids) = false →
     ∃ ohp, h !! S n = Some ohp ∧ o_cls ohp = HookPoint ∧ o_modules ohp = []) →
    renamed_hook a a' →
    h !! l = Some (Obj a' ms) →
    wrapped_kids h (if has_hp (Node l a kids) then S n else S (S n)) n' ms kids →
    wrapped h n n' (Node l a kids)
with wrapped_kids (h : heap)
  : nat → nat → list (string * option loc) → list (string * option mtree) → Prop :=
| wrapped_kids_nil n : wrapped_kids h n n [] []
| wrapped_kids_none n n' k ms kids :
    wrapped_kids h n n' ms kids →
    wrapped_kids h n n' ((k, None) :: ms) ((k, None) :: kids)
| wrapped_kids_hook n n' k c a' ms kids :
    t_cls c = HookPoint →
    renamed_hook (t_attrs c) a' →
    h !! root c = Some (Obj a' []) →
    wrapped_kids h n n' ms kids →
    wrapped_kids h n n' ((k, Some (root c)) :: ms) ((k, Some c) :: kids)
| wrapped_kids_container n n1 n' k c oc ms kids :
    is_container (t_cls c) = true →
    h !! n = Some oc →
    o_cls oc = t_cls c →
    wrapped_elems h (S n) n1 0 (t_cls c) (o_modules oc) (t_kids c) →
    wrapped_kids h n1 n' ms kids →
    wrapped_kids h n n' ((k, Some n) :: ms) ((k, Some c) :: kids)
| wrapped_kids_unit n n1 n' k c ms kids :
    t_cls c ≠ HookPoint →
    is_container (t_cls c) = false →
    wrapped h n n1 c →
    wrapped_kids h n1 n' ms kids →
    wrapped_kids h n n' ((k, Some n) :: ms) ((k, Some c) :: kids)
with wrapped_elems (h : heap)
  : nat → nat → nat → cls → list (string * option loc) → list (string * option mtree) → Prop :=
| wrapped_elems_nil n i c : wrapped_elems h n n i c [] []
| wrapped_elems_cons n n1 n' i c k e ms elems :
    wrapped h n n1 e →
    wrapped_elems h n1 n' (S i) c ms elems →
    wrapped_elems h n n' i c
      ((if is_ordered c then pretty i else k, Some n) :: ms) ((k, Some e) :: elems).

Scheme wrapped_mut := Minimality for wrapped Sort Prop
  with wrapped_kids_mut := Minimality for wrapped_kids Sort Prop
  with wrapped_elems_mut := Minimality for wrapped_elems Sort Prop.

Combined Scheme wrapped_mutind from wrapped_mut, wrapped_kids_mut, wrapped_elems_mut.

(** ** Store computations that return *)

(** [wp m h Q]: from [h], [m] returns, with a result and a store in [Q]. *)
Definition wp {A} (m : M A) (h : heap) (Q : A → heap → Prop) : Prop :=
  match m h with
  | Ok (a, h') => Q a h'
  | _ => False
  end.

(** the height of the tallest child *)
Definition kheight (kids : list (string * option mtree)) : nat :=
  foldr (λ k m, match k.2 with Some c => height c `max` m | None => m end) 0 kids.

(** ** Predicates of the proofs about wrapping *)

(** what the engine reads of an allocated object *)
Definition same_core (o o' : obj) : Prop :=
  o_cls o' = o_cls o ∧ a_params (o_attrs o') = a_params (o_attrs o) ∧
  a_forward (o_attrs o') = a_forward (o_attrs o) ∧ o_modules o' = o_modules o.

(** the children registered in [ms], without those registered as [None] *)
Definition some_children (ms : list (string * option loc)) : list (string * loc) :=
  omap (λ e, pair e.1 <$> e.2) ms.

(** what a traversal started with [memo] returns: it visits allocated
    objects of [n, n') and observation points among [L], and the names it
    gives to observation points are [hooks] *)
Definition nm_ok (h : heap) (n n' : nat) (L : list loc) (memo : list loc)
    (hooks : list string) (out : list (string * loc)) (memo' : list loc) : Prop :=
  (∀ x, x ∈ memo' → x ∈ memo ∨ n ≤ x < n' ∨ x ∈ L) ∧
  (∀ s x, (s, x) ∈ out → x < n' ∧ (n ≤ x ∨ (x ∈ L ∧ is_HookPoint h x = true))) ∧
  (∀ s, (∃ x, (s, x) ∈ out ∧ is_HookPoint h x = true) ↔ s ∈ hooks).

Definition nm_post (h : heap) (n n' : nat) (L : list loc) (memo : list loc)
    (hooks : list string) (r : outcome (list (string * loc) * list loc)) : Prop :=
  ∃ out memo', r = Ok (out, memo') ∧ nm_ok h n n' L memo hooks out memo'.

Definition memo_ok (n n' : nat) (L : list loc) (memo : list loc) : Prop :=
  ∀ x, x ∈ memo → ¬ (n ≤ x < n') ∧ x ∉ L.

(** what [auto_hook] returns on the root of [t], from the store [h] *)
Definition wrap_post (h : heap) (t : mtree) (H : loc) (h' : heap) : Prop :=
  H = List.length h ∧
  wrapped h' (List.length h) (List.length h') t ∧
  (∀ x, x < List.length h → x ∉ locs t → h' !! x = h !! x) ∧
  (∃ oH, h' !! H = Some oH ∧ a_unwrap (o_attrs oH) = Some (root t)) ∧
  (∀ s, s ∈ hook_names h' H ↔ s ∈ hooks_of "" t ∧ s ≠ "").

(** the wrapper [HookedInstance.__init__] has built when it reaches
    [_wrap_submodules] *)
Definition wrapper_obj (n l : loc) (o : obj) : obj :=
  Obj (Attrs HookedInstance false [] (Some (FNew n (get_forward l o))) None None [] [])
      (("_module", Some l) ::
       (if hasattr o "hook_point" then [] else [("hook_point", Some (S n))])).

(** ** What each module holds after wrapping *)

(** the modules of [t] that receive a wrapper: [t] itself, its children that
    are neither observation points nor recognised containers, the elements of
    its container children, and so on below *)
Inductive unit_of : mtree → mtree → Prop :=
| unit_of_root t : unit_of t t
| unit_of_child t k c u :
    (k, Some c) ∈ t_kids t → t_cls c ≠ HookPoint → is_container (t_cls c) = false →
    unit_of c u → unit_of t u
| unit_of_elem t k c ke e u :
    (k, Some c) ∈ t_kids t → is_container (t_cls c) = true →
    (ke, Some e) ∈ t_kids c →
    unit_of e u → unit_of t u.

(** [w] is a wrapper around the module [l] *)
Definition is_wrapper_of (h : heap) (w l : loc) : Prop :=
  ∃ ow, h !! w = Some ow ∧ o_cls ow = HookedInstance ∧
        dict_get "_module" (o_modules ow) = Some (Some l).

(** [cl] is a container of the kind of [c], holding one wrapper per element
    of [c], in the order of [c]; under the keys of [c] when [c] is keyed *)
Definition container_image (h : heap) (cl : loc) (c : mtree) : Prop :=
  ∃ oc, h !! cl = Some oc ∧ o_cls oc = t_cls c ∧
        (is_ordered (t_cls c) = false → (o_modules oc).*1 = (t_kids c).*1) ∧
        Forall2 (λ m e, ∃ w e0, m.2 = Some w ∧ e.2 = Some e0 ∧ is_wrapper_of h w (root e0))
          (o_modules oc) (t_kids c).

(** what the module holds, after wrapping, in place of the child [kid];
    objects allocated by the wrapping are at [n0] or above *)
Definition kid_image (h : heap) (n0 : nat) (m : string * option loc)
    (kid : string * option mtree) : Prop :=
  m.1 = kid.1 ∧
  match kid.2 with
  | None => m.2 = None
  | Some c =>
      match t_cls c with
      | HookPoint => m.2 = Some (root c)
      | nn_ModuleList | nn_Sequential | nn_ModuleDict =>
          ∃ v, m.2 = Some v ∧ n0 ≤ v ∧ container_image h v c
      | _ => ∃ v, m.2 = Some v ∧ n0 ≤ v ∧ is_wrapper_of h v (root c)
      end
  end.

(** ** The store after unwrapping

    [restored n n' t t']: [t'] is [t] with a container, allocated in
    [n], ..., [n' - 1], in place of each ModuleList, Sequential and
    ModuleDict held as a named child. *)
Inductive restored : nat → nat → mtree → mtree → Prop :=
| restored_node n n' l a a' kids kids' :
    renamed_hook a a' →
    restored_kids n n' kids kids' →
    restored n n' (Node l a kids) (Node l a' kids')
with restored_kids
  : nat → nat → list (string * option mtree) → list (string * option mtree) → Prop :=
| restored_kids_nil n : restored_kids n n [] []
| restored_kids_none n n' k kids kids' :
    restored_kids n n' kids kids' →
    restored_kids n n' ((k, None) :: kids) ((k, None) :: kids')
| restored_kids_container n n1 n' k c es' kids kids' :
    is_container (t_cls c) = true →
    restored_elems (S n) n1 0 (t_cls c) (t_kids c) es' →
    restored_kids n1 n' kids kids' →
    restored_kids n n' ((k, Some c) :: kids)
      ((k, Some (Node n (o_attrs (fresh_obj (t_cls c))) es')) :: kids')
| restored_kids_unit n n1 n' k c c' kids kids' :
    is_container (t_cls c) = false →
    restored n n1 c c' →
    restored_kids n1 n' kids kids' →
    restored_kids n n' ((k, Some c) :: kids) ((k, Some c') :: kids')
with restored_elems
  : nat → nat → nat → cls → list (string * option mtree) → list (string * option mtree) → Prop :=
| restored_elems_nil n i c : restored_elems n n i c [] []
| restored_elems_cons n n1 n' i c k e e' es es' :
    restored n n1 e e' →
    restored_elems n1 n' (S i) c es es' →
    restored_elems n n' i c ((k, Some e) :: es)
      ((if is_ordered c then pretty i else k, Some e') :: es').

Scheme restored_mut := Minimality for restored Sort Prop
  with restored_kids_mut := Minimality for restored_kids Sort Prop
  with restored_elems_mut := Minimality for restored_elems Sort Prop.

Combined Scheme restored_mutind from restored_mut, restored_kids_mut, restored_elems_mut.

Definition unwrap_post (h : heap) (t : mtree) (r : loc) (h' : heap) : Prop :=
  r = root t ∧
  (∃ t', restored (List.length h) (List.length h') t t' ∧ repr h' t') ∧
  (∀ x, x < List.length h → x ∉ locs t → h' !! x = h !! x).

(** what one step of the loop of [unwrap_instance] leaves in the store *)
Definition unwrap_child_post (l : loc) (a : attrs) (pre rest : list (string * option loc))
    (k : string) (c : mtree) (h : heap) (_ : unit) (h1 : heap) : Prop :=
  ∃ c', h1 !! l = Some (Obj a (pre ++ (k, Some (root c')) :: rest)) ∧
        restored_kids (List.length h) (List.length h1) [(k, Some c)] [(k, Some c')] ∧
        repr h1 c' ∧
        (∀ x, x < List.length h → x ∉ locs c → x ≠ l → h1 !! x = h !! x).

(** [w.hook_point], when the wrapper [w] has an observation point of its own *)
Definition own_hook_point (h : heap) (w : loc) : option loc :=
  match h !! w with
  | Some o =>
      match dict_get "hook_point" (o_modules o) with
      | Some (Some hp) => Some hp
      | _ => None
      end
  | None => None
  end.

(** ** The modules of the tests *)

(** the attributes of an instance of a user-defined subclass of [nn.Module] *)
Definition plain (impl : bool) (params : list (string * nat)) : attrs :=
  Attrs nn_Module impl params None None None [] [].

(** [SimpleModule]: one linear layer, [inner1] *)
Definition SimpleModule_tree : mtree :=
  Node 0 (plain true [])
    [("inner1", Some (Node 1 (plain true [("weight", 0); ("bias", 1)]) []))].

Definition SimpleModule_heap : heap :=
  [Obj (plain true []) [("inner1", Some 1)];
   Obj (plain true [("weight", 0); ("bias", 1)]) []].

(** [SimpleNestedModuleList]: a [ModuleList] [bla] of two [SimpleModule]s *)
Definition bla_tree : mtree :=
  Node 1 (o_attrs (fresh_obj nn_ModuleList))
    [("0", Some (Node 2 (plain true [])
              [("inner1", Some (Node 3 (plain true [("weight", 0); ("bias", 1)]) []))]));
     ("1", Some (Node 4 (plain true [])
              [("inner1", Some (Node 5 (plain true [("weight", 2); ("bias", 3)]) []))]))].

Definition SimpleNestedModuleList_tree : mtree :=
  Node 0 (plain true []) [("bla", Some bla_tree)].

Definition SimpleNestedModuleList_heap : heap :=
  [Obj (plain true []) [("bla", Some 1)];
   Obj (o_attrs (fresh_obj nn_ModuleList)) [("0", Some 2); ("1", Some 4)];
   Obj (plain true []) [("inner1", Some 3)];
   Obj (plain true [("weight", 0); ("bias", 1)]) [];
   Obj (plain true []) [("inner1", Some 5)];
   Obj (plain true [("weight", 2); ("bias", 3)]) []].

(** a module that declares an observation point of its own, [hook_q], next
    to a linear layer *)
Definition WithHook_tree : mtree :=
  Node 0 (plain true [])
    [("hook_q", Some (Node 1 (o_attrs (fresh_obj HookPoint)) []));
     ("proj", Some (Node 2 (plain true [("weight", 0)]) []))].

Definition WithHook_heap : heap :=
  [Obj (plain true []) [("hook_q", Some 1); ("proj", Some 2)];
   fresh_obj HookPoint;
   Obj (plain true [("weight", 0)]) []].

(** a module whose child [holder] is no recognised container and has no
    forward of its own *)
Definition holder_tree : mtree := Node 1 (plain false []) [].

Definition Holder_tree : mtree :=
  Node 0 (plain true []) [("holder", Some holder_tree)].

Definition Holder_heap : heap :=
  [Obj (plain true []) [("holder", Some 1)]; Obj (plain false []) []].

(** [NamedSequential]: a [Sequential] [net] built from an ordered dictionary,
    with the names [conv] and [relu] *)
Definition NamedSequential_tree : mtree :=
  Node 0 (plain true [])
    [("net", Some (Node 1 (o_attrs (fresh_obj nn_Sequential))
                     [("conv", Some (Node 2 (plain true [("weight", 0)]) []));
                      ("relu", Some (Node 3 (plain true []) []))]))].

Definition NamedSequential_heap : heap :=
  [Obj (plain true []) [("net", Some 1)];
   Obj (o_attrs (fresh_obj nn_Sequential)) [("conv", Some 2); ("relu", Some 3)];
   Obj (plain true [("weight", 0)]) [];
   Obj (plain true []) []].

(** a single module without children *)
Definition Leaf_tree : mtree := Node 0 (plain true []) [].

Definition Leaf_heap : heap := [Obj (plain true []) []].

(** A configuration that declares a vocabulary size and names no tokenizer,
    with collaborators that cannot fail: the hub returns a bare module. *)
Definition algorithmic_cfg : Adapter.HookedTransformerConfig :=
  {| Adapter.device := Some "cpu"; Adapter.tokenizer_name := None;
     Adapter.d_vocab := 50257%Z; Adapter.positional_embedding_type := "standard";
     Adapter.use_hook_tokens := false; Adapter.trust_remote_code := false |}.

Definition gpt2_map_cfg : Adapter.HookedTransformerAdapterCfg :=
  {| Adapter.block_attr := "transformer.h"; Adapter.lm_head_attr := "lm_head";
     Adapter.embedding_attr := "transformer.wte";
     Adapter.positional_embedding_attr := "transformer.wpe";
     Adapter.last_layernorm_attr := Some "transformer.ln_f" |}.

Definition hub_model (_ : string) : M loc := alloc (Obj (plain true []) []).

Definition hub_tokenizer (_ : string) (_ _ : bool) (_ : option string) : M Adapter.Tokenizer :=
  ret {| Adapter.tokenizer_id := 0; Adapter.pad_token := None;
         Adapter.eos_token := Some "<|endoftext|>" |}.

Definition keep_tokenizer (t : Adapter.Tokenizer) (_ : string) : Adapter.Tokenizer := t.

(** tactics for the conditions on a concrete tree and store *)
Ltac solve_Forall :=
  repeat match goal with
         | |- Forall _ [] => constructor
         | |- Forall _ (_ :: _) => constructor
         end.

Ltac solve_wf :=
  apply wf_node;
  [ by apply (bool_decide_unpack _); vm_compute
  | solve_Forall; done
  | first [done | by intros; simplify_eq/=]
  | solve_Forall; intros; simplify_eq/=;
    (split; [solve_wf | intros; first [done | solve_Forall; by eexists]]) ].

Ltac solve_tree :=
  split; [solve_wf | by apply (bool_decide_unpack _); vm_compute].

Ltac solve_repr :=
  repeat first
    [ apply repr_node; [reflexivity|]
    | progress solve_Forall
    | progress (intros; simplify_eq/=) ].

(** ** The statements of the specification *)

(** The set the specification describes: the dotted path of every
    descendant child that has an implemented forward and is not itself an
    observation point, followed by the slot name. *)
Fixpoint spec_hook_paths (prefix : string) (t : mtree) : list string :=
  match t with
  | Node _ _ kids =>
      flat_map (λ k,
        match k.2 with
        | None => []
        | Some c =>
            (if a_impl (t_attrs c) && negb (bool_decide (t_cls c = HookPoint))
             then [join prefix k.1 +:+ ".hook_point"] else [])
            ++ spec_hook_paths (join prefix k.1) c
        end) kids
  end.

(** the specification's statement of hook completeness, for one module *)
Definition hook_completeness_claim (fuel : nat) (h : heap) (t : mtree) : Prop :=
  ∀ H h', auto_hook fuel (root t) h = Ok (H, h') →
  ∀ s, s ∈ hook_names h' H ↔ s ∈ spec_hook_paths "" t.

(** the statement of C10 about the children of the wrapped module *)
Definition children_replaced_claim (fuel : nat) (h : heap) (t : mtree) : Prop :=
  ∀ H h', auto_hook fuel (root t) h = Ok (H, h') →
  ∀ k c, (k, Some c) ∈ t_kids t →
  ∃ o v, h' !! root t = Some o ∧ dict_get k (o_modules o) = Some (Some v) ∧
         (is_wrapper_of h' v (root c) ∨
          (is_container (t_cls c) = true ∧ container_image h' v c)).

(** a child that is neither a recognised container nor a unit with a
    forward computation of its own *)
Definition uninterpretable (c : mtree) : Prop :=
  is_container (t_cls c) = false ∧ t_cls c ≠ HookPoint ∧ a_impl (t_attrs c) = false.

(** the statement of C6, for one module *)
Definition invalid_tree_claim (fuel : nat) (h : heap) (t : mtree) : Prop :=
  (∃ k c, (k, Some c) ∈ t_kids t ∧ uninterpretable c) →
  auto_hook fuel (root t) h = Raise InvalidTreeError.

(** the statement of C4 about the engine: the original forward receives the
    positional arguments only *)
Definition kwargs_dropped_claim (fuel : nat) (h : heap) (t : mtree) : Prop :=
  ∀ H h', auto_hook fuel (root t) h = Ok (H, h') →
  ∀ (class_forward : loc → list nat → list (string * nat) → nat) args kwargs,
  ∃ r hp, forward class_forward h' H args kwargs =
          Ok (r, [ECall (root t) args []; EHook hp r]).

(** the statement of C1 about the attributes of the modules: after
    [unwrap_instance] every object of the module has the attributes it had
    before wrapping *)
Definition roundtrip_claim (fuel : nat) (h : heap) (t : mtree) : Prop :=
  ∀ H h1 r h2,
    auto_hook fuel (root t) h = Ok (H, h1) →
    unwrap_instance fuel H h1 = Ok (r, h2) →
    r = root t ∧ ∀ x, x ∈ locs t → o_attrs <$> h2 !! x = o_attrs <$> h !! x.

(** ** Further fixtures and predicates *)

(** A causal language model as the adapter reads it: [transformer.wte],
    [transformer.wpe], the blocks [transformer.h], [transformer.ln_f] and
    [lm_head]; it lists one observation point in its [hook_dict]. *)
Definition TinyLM_heap : heap :=
  [Obj (Attrs nn_Module true [] None None None
          [("transformer.h.0.hook_point", 8)] [("transformer.h.0", 5)])
     [("transformer", Some 1); ("lm_head", Some 6)];
   Obj (plain true []) [("wte", Some 2); ("wpe", Some 3); ("h", Some 4); ("ln_f", Some 7)];
   Obj (plain true [("weight", 0)]) [];
   Obj (plain true [("weight", 1)]) [];
   Obj (o_attrs (fresh_obj nn_ModuleList)) [("0", Some 5)];
   Obj (plain true []) [];
   Obj (plain true [("weight", 2); ("bias", 3)]) [];
   Obj (plain true [("weight", 4); ("bias", 5)]) [];
   fresh_obj HookPoint].

Definition gpt2_cfg : Adapter.HookedTransformerConfig :=
  {| Adapter.device := Some "cpu"; Adapter.tokenizer_name := Some "gpt2";
     Adapter.d_vocab := 50257%Z; Adapter.positional_embedding_type := "standard";
     Adapter.use_hook_tokens := true; Adapter.trust_remote_code := false |}.

(** every object of [h] is in [h'], with its class, its parameters and its
    children *)
Definition kept (h h' : heap) : Prop :=
  ∀ x o, h !! x = Some o →
    ∃ o', h' !! x = Some o' ∧ o_cls o' = o_cls o ∧
          a_params (o_attrs o') = a_params (o_attrs o) ∧ o_modules o' = o_modules o.

(** the loop of [generate_expected_hookpoints] over the elements of a
    container, from index [i] *)
Section expected_elems.
Variable rec : loc → string → outcome (list string).
Variable ordered : bool.
Variable full_name : string.

Fixpoint expected_elems (i : nat) (es : list (string * option loc)) : outcome (list string) :=
  match es with
  | [] => Ok []
  | (key, e) :: es' =>
      match e with
      | None => Raise AssertionError
      | Some child =>
          let k := if ordered then pretty i else key in
          match rec child (full_name +:+ "." +:+ k) with
          | Ok l1 =>
              match expected_elems (S i) es' with
              | Ok l2 => Ok (l1 ++ l2)%list
              | Raise e => Raise e
              | Undef => Undef
              end
          | Raise e => Raise e
          | Undef => Undef
          end
      end
  end.
End expected_elems.

(** A model that declares no observation point and has no attribute
    [hook_point]: its containers keep the forward of their class, which is
    not implemented, and hold modules, a [ModuleList] under the keys
    ["0"], ["1"], ... *)
Inductive plain_tree : mtree → Prop :=
| plain_tree_node l a kids :
    a_cls a ≠ HookPoint →
    has_hp (Node l a kids) = false →
    (is_container (a_cls a) = true →
     a_forward a = None ∧ a_impl a = false ∧ Forall (λ e, is_Some e.2) kids ∧
     (is_ordered (a_cls a) = true → kids.*1 = pretty <$> seq 0 (List.length kids))) →
    Forall (λ k, ∀ c, k.2 = Some c → plain_tree c) kids →
    plain_tree (Node l a kids).

(** a module that names its one observation point [hook_point] *)
Definition OwnHook_tree : mtree :=
  Node 0 (plain true []) [("hook_point", Some (Node 1 (o_attrs (fresh_obj HookPoint)) []))].

Definition OwnHook_heap : heap :=
  [Obj (plain true []) [("hook_point", Some 1)]; fresh_obj HookPoint].

(** every object of [out] is listed under one name *)
Definition one_name (out : list (string * loc)) : Prop :=
  ∀ s s' x, (s, x) ∈ out → (s', x) ∈ out → s = s'.

Definition nm_one (r : outcome (list (string * loc) * list loc)) : Prop :=
  match r with
  | Ok (out, _) => one_name out
  | _ => True
  end.

(** the two stores hold the same objects, up to what the naming pass and the
    [unwrap] closure write *)
Definition same_cores (h h' : heap) : Prop :=
  ∀ x, match h !! x, h' !! x with
       | Some o, Some o' => same_core o o'
       | None, None => True
       | _, _ => False
       end.

(** * Properties of the embedding *)

Lemma hooks_of_node prefix l a kids :
  hooks_of prefix (Node l a kids) =
  kids_hooks prefix kids ++
  (if has_hp (Node l a kids) then [] else [join prefix "hook_point"]).
Proof.
  simpl. f_equal. induction kids as [|[k [c|]] kids IH]; simpl; [done| |done].
  rewrite IH. f_equal. destruct c as [lc ac es]. unfold kid_hooks, t_cls. simpl.
  assert (∀ i, (fix elems_hooks (i : nat) (es : list (string * option mtree)) : list string :=
                 match es with
                 | [] => []
                 | (_, None) :: es' => elems_hooks (S i) es'
                 | (key, Some e) :: es' =>
                     hooks_of (join (join prefix k)
                                 (if is_ordered (a_cls ac) then pretty i else key)) e
                     ++ elems_hooks (S i) es'
                 end) i es = elems_hooks (a_cls ac) (join prefix k) i es) as Heq.
  { induction es as [|[key [e|]] es IHe]; intros i; simpl; [done| |done].
    by rewrite IHe. }
  destruct (a_cls ac); try done; apply Heq.
Qed.

(** * Reasoning about store computations *)

Lemma wp_ret {A} (a : A) h Q : Q a h → wp (ret a) h Q.
Proof. done. Qed.

Lemma wp_bind {A B} (m : M A) (k : A → M B) h Q :
  wp m h (λ a h', wp (k a) h' Q) → wp (bind m k) h Q.
Proof.
  unfold wp, bind. destruct (m h) as [[a h']| |]; done.
Qed.

Lemma wp_mono {A} (m : M A) h (Q Q' : A → heap → Prop) :
  wp m h Q → (∀ a h', Q a h' → Q' a h') → wp m h Q'.
Proof.
  unfold wp. destruct (m h) as [[a h']| |]; eauto.
Qed.

Lemma wp_elim {A} (m : M A) h Q :
  wp m h Q → ∃ a h', m h = Ok (a, h') ∧ Q a h'.
Proof.
  unfold wp. destruct (m h) as [[a h']| |]; [eauto|done..].
Qed.

Lemma wp_intro {A} (m : M A) h (Q : A → heap → Prop) a h' :
  m h = Ok (a, h') → Q a h' → wp m h Q.
Proof. unfold wp. by intros ->. Qed.

Lemma wp_deref l h o Q : h !! l = Some o → Q o h → wp (deref l) h Q.
Proof. unfold wp, deref. by intros ->. Qed.

Lemma wp_alloc o h (Q : loc → heap → Prop) :
  Q (List.length h) (h ++ [o])%list → wp (alloc o) h Q.
Proof. done. Qed.

Lemma wp_update l f h o (Q : unit → heap → Prop) :
  h !! l = Some o → Q tt (<[l := f o]> h) → wp (update l f) h Q.
Proof. unfold wp, update. by intros ->. Qed.

Lemma wp_setattr l name v h o (Q : unit → heap → Prop) :
  h !! l = Some o →
  Q tt (<[l := set_modules (dict_set name (Some v) (o_modules o)) o]> h) →
  wp (setattr l name v) h Q.
Proof. unfold wp, setattr, update. by intros ->. Qed.

Lemma wp_add_module l name v h o (Q : unit → heap → Prop) :
  h !! l = Some o →
  Q tt (<[l := set_modules (dict_set name v (o_modules o)) o]> h) →
  wp (add_module l name v) h Q.
Proof. unfold wp, add_module, update. by intros ->. Qed.

(** ** Dictionaries *)

Lemma dict_set_fresh {V} k (v : V) d :
  k ∉ d.*1 → dict_set k v d = (d ++ [(k, v)])%list.
Proof.
  induction d as [|[k' v'] d IH]; simpl; [done|].
  intros Hk. apply not_elem_of_cons in Hk as [Hne Hk].
  destruct (decide (k = k')); [done|]. by rewrite IH.
Qed.

Lemma dict_set_app_here {V} k (v v' : V) d1 d2 :
  k ∉ d1.*1 → dict_set k v (d1 ++ (k, v') :: d2) = (d1 ++ (k, v) :: d2)%list.
Proof.
  induction d1 as [|[k' w] d1 IH]; simpl.
  - intros _. by destruct (decide (k = k)).
  - intros Hk. apply not_elem_of_cons in Hk as [Hne Hk].
    destruct (decide (k = k')); [done|]. by rewrite IH.
Qed.

Lemma dict_get_app_here {V} k (v : V) d1 d2 :
  k ∉ d1.*1 → dict_get k (d1 ++ (k, v) :: d2) = Some v.
Proof.
  induction d1 as [|[k' w] d1 IH]; simpl.
  - intros _. by destruct (decide (k = k)).
  - intros Hk. apply not_elem_of_cons in Hk as [Hne Hk].
    destruct (decide (k = k')); [done|]. by rewrite IH.
Qed.

(** ** Stores *)

Lemma lookup_snoc_new (h : heap) o : (h ++ [o])%list !! List.length h = Some o.
Proof. rewrite lookup_app_r; [|done]. by rewrite Nat.sub_diag. Qed.

Lemma lookup_snoc_old (h : heap) o x : x < List.length h → (h ++ [o])%list !! x = h !! x.
Proof. intros. by rewrite lookup_app_l. Qed.

Lemma lookup_lt_heap (h : heap) x o : h !! x = Some o → x < List.length h.
Proof. intros H. by eapply lookup_lt_Some. Qed.

(** ** Trees *)

Lemma height_node l a kids : height (Node l a kids) = S (kheight kids).
Proof. done. Qed.

Lemma kheight_elem kids k c : (k, Some c) ∈ kids → height c ≤ kheight kids.
Proof.
  induction kids as [|[k' [c'|]] kids IH]; simpl; intros Hin.
  - by apply elem_of_nil in Hin.
  - apply elem_of_cons in Hin as [Heq|Hin]; [simplify_eq; lia|].
    specialize (IH Hin). lia.
  - apply elem_of_cons in Hin as [Heq|Hin]; [simplify_eq|]. auto.
Qed.

Lemma height_pos t : 0 < height t.
Proof. destruct t; simpl; lia. Qed.

Lemma kids_locs_cons k c kids :
  kids_locs ((k, c) :: kids) = (match c with Some c => locs c | None => [] end ++ kids_locs kids)%list.
Proof. done. Qed.

Lemma locs_node l a kids : locs (Node l a kids) = l :: kids_locs kids.
Proof. done. Qed.

Lemma root_in_locs t : root t ∈ locs t.
Proof. destruct t. rewrite locs_node. apply elem_of_cons. by left. Qed.

Lemma kids_locs_here k c kids x : x ∈ locs c → x ∈ kids_locs ((k, Some c) :: kids).
Proof. intros. rewrite kids_locs_cons. apply elem_of_app. by left. Qed.

Lemma kids_locs_later k c kids x : x ∈ kids_locs kids → x ∈ kids_locs ((k, c) :: kids).
Proof. intros. rewrite kids_locs_cons. apply elem_of_app. by right. Qed.

Lemma locs_kids l a kids x : x ∈ kids_locs kids → x ∈ locs (Node l a kids).
Proof. intros. rewrite locs_node. apply elem_of_cons. by right. Qed.

Lemma locs_kids' t x : x ∈ kids_locs (t_kids t) → x ∈ locs t.
Proof. destruct t. apply locs_kids. Qed.

Global Arguments kids_locs : simpl never.
Global Arguments locs : simpl never.
Global Arguments height : simpl never.
Global Arguments kheight : simpl never.

Lemma elem_of_kids_locs kids x :
  x ∈ kids_locs kids ↔ ∃ k c, (k, Some c) ∈ kids ∧ x ∈ locs c.
Proof.
  induction kids as [|[k [c|]] kids IH]; rewrite ?kids_locs_cons.
  - split; [by intros ?%elem_of_nil|]. by intros (? & ? & ?%elem_of_nil & _).
  - rewrite elem_of_app, IH. split.
    + intros [Hx|(k' & c' & Hin & Hx)].
      * exists k, c. split; [apply elem_of_cons; by left|done].
      * exists k', c'. split; [apply elem_of_cons; by right|done].
    + intros (k' & c' & Hin & Hx). apply elem_of_cons in Hin as [Heq|Hin].
      * simplify_eq. by left.
      * right. eauto.
  - simpl. rewrite IH. split.
    + intros (k' & c' & Hin & Hx). exists k', c'. split; [apply elem_of_cons; by right|done].
    + intros (k' & c' & Hin & Hx). apply elem_of_cons in Hin as [Heq|Hin]; [simplify_eq|].
      eauto.
Qed.

Lemma kids_locs_elem kids k c x : (k, Some c) ∈ kids → x ∈ locs c → x ∈ kids_locs kids.
Proof. intros. apply elem_of_kids_locs. eauto. Qed.

Lemma repr_inv h l a kids :
  repr h (Node l a kids) →
  h !! l = Some (Obj a (kid_ref <$> kids)) ∧ ∀ k c, (k, Some c) ∈ kids → repr h c.
Proof.
  inversion 1 as [? ? ? Hl Hk]; subst. split; [done|].
  intros k c Hin. rewrite Forall_forall in Hk. by apply (Hk _ Hin).
Qed.

Lemma repr_frame h h' t :
  repr h t → (∀ x, x ∈ locs t → h' !! x = h !! x) → repr h' t.
Proof.
  remember (height t) as n eqn:Hn. revert t Hn.
  induction (lt_wf n) as [n _ IH]. intros [l a kids] Hn Hr Hag.
  apply repr_inv in Hr as [Hl Hk]. constructor.
  - rewrite Hag; [done|]. apply (root_in_locs (Node l a kids)).
  - rewrite Forall_forall. intros [k oc] Hin c Hc. simpl in Hc. subst oc.
    eapply IH; [|done|by eapply Hk|].
    + rewrite Hn, height_node. pose proof (kheight_elem _ _ _ Hin). lia.
    + intros x Hx. apply Hag. rewrite locs_node. apply elem_of_cons. right.
      by eapply kids_locs_elem.
Qed.

Lemma repr_locs_lt h t x : repr h t → x ∈ locs t → x < List.length h.
Proof.
  remember (height t) as n eqn:Hn. revert t Hn x.
  induction (lt_wf n) as [n _ IH]. intros [l a kids] Hn x Hr Hx.
  apply repr_inv in Hr as [Hl Hk].
  rewrite locs_node in Hx. apply elem_of_cons in Hx as [->|Hx].
  - by eapply lookup_lt_heap.
  - apply elem_of_kids_locs in Hx as (k & c & Hin & Hx).
    eapply (IH (height c)); [|done|by eapply Hk|done].
    rewrite Hn, height_node. pose proof (kheight_elem _ _ _ Hin). lia.
Qed.

(** ** Properties of the wrapped store *)

Lemma wrapped_range_mut h :
  (∀ n n' t, wrapped h n n' t → n < n') ∧
  (∀ n n' ms kids, wrapped_kids h n n' ms kids → n ≤ n') ∧
  (∀ n n' i c ms es, wrapped_elems h n n' i c ms es → n ≤ n').
Proof.
  apply wrapped_mutind; intros; try lia.
  match goal with H : (if ?b then _ else _) ≤ _ |- _ => destruct b; lia end.
Qed.

Lemma wrapped_range h n n' t : wrapped h n n' t → n < n'.
Proof. apply wrapped_range_mut. Qed.
Lemma wrapped_kids_range h n n' ms kids : wrapped_kids h n n' ms kids → n ≤ n'.
Proof. apply wrapped_range_mut. Qed.
Lemma wrapped_elems_range h n n' i c ms es : wrapped_elems h n n' i c ms es → n ≤ n'.
Proof. apply wrapped_range_mut. Qed.

Lemma renamed_hook_refl a : renamed_hook a a.
Proof. by left. Qed.

Lemma renamed_hook_trans a a1 a2 :
  renamed_hook a a1 → renamed_hook a1 a2 → renamed_hook a a2.
Proof.
  intros [->|[Hc [nm ->]]] [->|[Hc' [nm' ->]]]; try (by left); right; split; eauto.
Qed.

(** The wrapped store of [t] survives every change that keeps what the
    engine reads of the allocated objects, and that at most renames the
    observation points among the objects of [t]. *)
Lemma wrapped_stable_mut h :
  (∀ n n' t, wrapped h n n' t →
     ∀ h',
       (∀ x o, n ≤ x < n' → h !! x = Some o → ∃ o', h' !! x = Some o' ∧ same_core o o') →
       (∀ x o, x ∈ locs t → h !! x = Some o →
               ∃ a', h' !! x = Some (Obj a' (o_modules o)) ∧ renamed_hook (o_attrs o) a') →
       wrapped h' n n' t) ∧
  (∀ n n' ms kids, wrapped_kids h n n' ms kids →
     ∀ h',
       (∀ x o, n ≤ x < n' → h !! x = Some o → ∃ o', h' !! x = Some o' ∧ same_core o o') →
       (∀ x o, x ∈ kids_locs kids → h !! x = Some o →
               ∃ a', h' !! x = Some (Obj a' (o_modules o)) ∧ renamed_hook (o_attrs o) a') →
       wrapped_kids h' n n' ms kids) ∧
  (∀ n n' i c ms es, wrapped_elems h n n' i c ms es →
     ∀ h',
       (∀ x o, n ≤ x < n' → h !! x = Some o → ∃ o', h' !! x = Some o' ∧ same_core o o') →
       (∀ x o, x ∈ kids_locs es → h !! x = Some o →
               ∃ a', h' !! x = Some (Obj a' (o_modules o)) ∧ renamed_hook (o_attrs o) a') →
       wrapped_elems h' n n' i c ms es).
Proof.
  apply wrapped_mutind.
  - intros n n' l a a' kids oH ms HH Hcls Hpar Hfw Hms Hhp Hren Hl Hk IH h' HA HB.
    pose proof (wrapped_kids_range _ _ _ _ _ Hk) as Hr.
    assert (n < n') as Hlt by (destruct (has_hp (Node l a kids)); lia).
    destruct (HA n oH) as (oH' & HH' & Hc1 & Hc2 & Hc3 & Hc4); [lia|done|].
    destruct (HB l (Obj a' ms)) as (a'' & Hl' & Hren'); [apply (root_in_locs (Node l a kids))|done|].
    simpl in Hl', Hren'.
    eapply (wrapped_node h' n n' l a a'' kids oH' ms); try done; try congruence.
    + intros Hb. destruct (Hhp Hb) as (ohp & Hp1 & Hp2 & Hp3).
      destruct (HA (S n) ohp) as (ohp' & ? & ? & ? & ? & ?); [rewrite Hb in Hr; lia|done|].
      exists ohp'. split; [done|]. split; congruence.
    + by eapply renamed_hook_trans.
    + apply IH.
      * intros x o Hx. apply HA. destruct (has_hp (Node l a kids)); lia.
      * intros x o Hx. apply HB. rewrite locs_node. apply elem_of_cons. by right.
  - constructor.
  - intros n n' k ms kids Hk IH h' HA HB. constructor. apply IH; [done|].
    intros x o Hx. apply HB. by rewrite kids_locs_cons.
  - intros n n' k c a' ms kids Hc Hren Hl Hk IH h' HA HB.
    destruct (HB (root c) (Obj a' [])) as (a'' & Hl' & Hren'); [|done|].
    { rewrite kids_locs_cons. apply elem_of_app. left. apply root_in_locs. }
    simpl in Hl', Hren'. eapply (wrapped_kids_hook h' n n' k c a''); [done| |done|].
    + by eapply renamed_hook_trans.
    + apply IH; [done|]. intros x o Hx. apply HB.
      rewrite kids_locs_cons. apply elem_of_app. by right.
  - intros n n1 n' k c oc ms kids Hc Hl Hcls He IHe Hk IHk h' HA HB.
    pose proof (wrapped_elems_range _ _ _ _ _ _ _ He).
    pose proof (wrapped_kids_range _ _ _ _ _ Hk).
    destruct (HA n oc) as (oc' & Hl' & Hc1 & Hc2 & Hc3 & Hc4); [lia|done|].
    eapply (wrapped_kids_container h' n n1 n' k c oc'); [done|done|congruence| |].
    + rewrite Hc4. apply IHe.
      * intros x o Hx. apply HA. lia.
      * intros x o Hx. apply HB. rewrite kids_locs_cons. apply elem_of_app. left.
        destruct c as [lc ac es]. rewrite locs_node. apply elem_of_cons. by right.
    + apply IHk.
      * intros x o Hx. apply HA. lia.
      * intros x o Hx. apply HB. rewrite kids_locs_cons. apply elem_of_app. by right.
  - intros n n1 n' k c ms kids Hc1 Hc2 Hw IHw Hk IHk h' HA HB.
    pose proof (wrapped_range _ _ _ _ Hw).
    pose proof (wrapped_kids_range _ _ _ _ _ Hk).
    econstructor; [done|done| |].
    + apply IHw.
      * intros x o Hx. apply HA. lia.
      * intros x o Hx. apply HB. rewrite kids_locs_cons. apply elem_of_app. by left.
    + apply IHk.
      * intros x o Hx. apply HA. lia.
      * intros x o Hx. apply HB. rewrite kids_locs_cons. apply elem_of_app. by right.
  - constructor.
  - intros n n1 n' i c k e ms es Hw IHw He IHe h' HA HB.
    pose proof (wrapped_range _ _ _ _ Hw).
    pose proof (wrapped_elems_range _ _ _ _ _ _ _ He).
    econstructor.
    + apply IHw.
      * intros x o Hx. apply HA. lia.
      * intros x o Hx. apply HB. rewrite kids_locs_cons. apply elem_of_app. by left.
    + apply IHe.
      * intros x o Hx. apply HA. lia.
      * intros x o Hx. apply HB. rewrite kids_locs_cons. apply elem_of_app. by right.
Qed.

Lemma same_core_refl o : same_core o o.
Proof. done. Qed.

Lemma wrapped_frame h h' n n' t :
  wrapped h n n' t →
  (∀ x, x ∈ locs t ∨ n ≤ x < n' → h' !! x = h !! x) →
  wrapped h' n n' t.
Proof.
  intros Hw Hag. eapply (proj1 (wrapped_stable_mut h)); [done| |].
  - intros x o Hx Ho. exists o. rewrite Hag; [done|by right].
  - intros x o Hx Ho. exists (o_attrs o). rewrite Hag; [|by left].
    split; [by destruct o|apply renamed_hook_refl].
Qed.

Lemma wrapped_kids_frame h h' n n' ms kids :
  wrapped_kids h n n' ms kids →
  (∀ x, x ∈ kids_locs kids ∨ n ≤ x < n' → h' !! x = h !! x) →
  wrapped_kids h' n n' ms kids.
Proof.
  intros Hw Hag. eapply (proj1 (proj2 (wrapped_stable_mut h))); [done| |].
  - intros x o Hx Ho. exists o. rewrite Hag; [done|by right].
  - intros x o Hx Ho. exists (o_attrs o). rewrite Hag; [|by left].
    split; [by destruct o|apply renamed_hook_refl].
Qed.

Lemma wrapped_elems_frame h h' n n' i c ms es :
  wrapped_elems h n n' i c ms es →
  (∀ x, x ∈ kids_locs es ∨ n ≤ x < n' → h' !! x = h !! x) →
  wrapped_elems h' n n' i c ms es.
Proof.
  intros Hw Hag. eapply (proj2 (proj2 (wrapped_stable_mut h))); [done| |].
  - intros x o Hx Ho. exists o. rewrite Hag; [done|by right].
  - intros x o Hx Ho. exists (o_attrs o). rewrite Hag; [|by left].
    split; [by destruct o|apply renamed_hook_refl].
Qed.

(** ** The traversal of the wrapped store *)

Lemma named_children_from_some memo ms :
  NoDup (omap snd ms) → (∀ x, x ∈ omap snd ms → x ∉ memo) →
  named_children_from memo ms = some_children ms.
Proof.
  revert memo. induction ms as [|[k [x|]] ms IH]; intros memo Hnd Hm; simpl; [done| |].
  - simpl in Hnd. apply NoDup_cons in Hnd as [Hx Hnd].
    destruct (decide (x ∈ memo)) as [Hin|_].
    { exfalso. eapply Hm; [|done]. simpl. apply elem_of_cons. by left. }
    unfold some_children. simpl. f_equal. apply IH; [done|].
    intros y Hy [->|Hin]%elem_of_cons; [done|].
    eapply Hm; [|done]. simpl. apply elem_of_cons. by right.
  - apply IH; done.
Qed.

Lemma NoDup_kids_locs_cons k c kids :
  NoDup (kids_locs ((k, Some c) :: kids)) →
  NoDup (locs c) ∧ NoDup (kids_locs kids) ∧ ∀ x, x ∈ locs c → x ∉ kids_locs kids.
Proof. rewrite kids_locs_cons. intros (? & ? & ?)%NoDup_app. done. Qed.

Lemma wrapped_kids_values h n n' ms kids :
  wrapped_kids h n n' ms kids →
  (∀ x, x ∈ kids_locs kids → x < n) → NoDup (kids_locs kids) →
  NoDup (omap snd ms) ∧ ∀ x, x ∈ omap snd ms → n ≤ x < n' ∨ x ∈ kids_locs kids.
Proof.
  induction 1 as [n|n n' k ms kids Hk IH|n n' k c a' ms kids Hc Hren Hl Hk IH
                 |n n1 n' k c oc ms kids Hc Hl Hcls He Hk IH
                 |n n1 n' k c ms kids Hc1 Hc2 Hw Hk IH]; intros Hlt Hnd.
  - split; [constructor|]. by intros x ?%elem_of_nil.
  - destruct IH as [IH1 IH2]; [by eauto using kids_locs_later|done|].
    split; [done|]. intros x Hx. destruct (IH2 _ Hx); eauto using kids_locs_later.
  - apply NoDup_kids_locs_cons in Hnd as (Hndc & Hndk & Hdis).
    destruct IH as [IH1 IH2]; [by eauto using kids_locs_later|done|].
    assert (root c < n) as Hrc by (apply Hlt, kids_locs_here, root_in_locs).
    cbn [omap list_omap snd]. split.
    + apply NoDup_cons. split; [|done]. intros Hin. destruct (IH2 _ Hin) as [?|Hin']; [lia|].
      by eapply Hdis; [apply root_in_locs|].
    + intros x [->|Hx]%elem_of_cons.
      * right. apply kids_locs_here, root_in_locs.
      * destruct (IH2 _ Hx) as [?|?]; [by left|]. right. by apply kids_locs_later.
  - apply NoDup_kids_locs_cons in Hnd as (Hndc & Hndk & Hdis).
    pose proof (wrapped_elems_range _ _ _ _ _ _ _ He).
    pose proof (wrapped_kids_range _ _ _ _ _ Hk).
    destruct IH as [IH1 IH2]; [|done|].
    { intros x Hx. assert (x < n); [|lia]. by apply Hlt, kids_locs_later. }
    cbn [omap list_omap snd]. split.
    + apply NoDup_cons. split; [|done]. intros Hin. destruct (IH2 _ Hin) as [?|Hin']; [lia|].
      assert (n < n); [|lia]. by apply Hlt, kids_locs_later.
    + intros x [->|Hx]%elem_of_cons; [left; lia|].
      destruct (IH2 _ Hx) as [?|?]; [left; lia|]. right. by apply kids_locs_later.
  - apply NoDup_kids_locs_cons in Hnd as (Hndc & Hndk & Hdis).
    pose proof (wrapped_range _ _ _ _ Hw).
    pose proof (wrapped_kids_range _ _ _ _ _ Hk).
    destruct IH as [IH1 IH2]; [|done|].
    { intros x Hx. assert (x < n); [|lia]. by apply Hlt, kids_locs_later. }
    cbn [omap list_omap snd]. split.
    + apply NoDup_cons. split; [|done]. intros Hin. destruct (IH2 _ Hin) as [?|Hin']; [lia|].
      assert (n < n); [|lia]. by apply Hlt, kids_locs_later.
    + intros x [->|Hx]%elem_of_cons; [left; lia|].
      destruct (IH2 _ Hx) as [?|?]; [left; lia|]. right. by apply kids_locs_later.
Qed.

Lemma renamed_hook_cls a a' : renamed_hook a a' → a_cls a' = a_cls a.
Proof. by intros [->|[_ [nm ->]]]. Qed.

Lemma renamed_hook_params a a' : renamed_hook a a' → a_params a' = a_params a.
Proof. by intros [->|[_ [nm ->]]]. Qed.

Lemma renamed_hook_forward a a' : renamed_hook a a' → a_forward a' = a_forward a.
Proof. by intros [->|[_ [nm ->]]]. Qed.

Lemma is_HookPoint_cls h x o : h !! x = Some o → is_HookPoint h x = true ↔ o_cls o = HookPoint.
Proof.
  intros Hx. unfold is_HookPoint. rewrite Hx. destruct (o_cls o); split; done.
Qed.

Lemma hasattr_no_params o name :
  a_params (o_attrs o) = [] → hasattr o name = dict_has name (o_modules o).
Proof. intros Hp. unfold hasattr. by rewrite Hp. Qed.

Lemma dict_has_nil {V} k : dict_has k ([] : list (string * V)) = false.
Proof. done. Qed.

Lemma dict_has_cons_ne {V} k k' (v : V) d : k ≠ k' → dict_has k ((k', v) :: d) = dict_has k d.
Proof. intros. unfold dict_has. simpl. by rewrite decide_False. Qed.

Lemma dict_has_cons_eq {V} k (v : V) d : dict_has k ((k, v) :: d) = true.
Proof. unfold dict_has. simpl. by rewrite decide_True. Qed.

Lemma kheight_cons_some k c kids :
  kheight ((k, Some c) :: kids) = height c `max` kheight kids.
Proof. done. Qed.

Lemma kheight_cons_none k kids : kheight ((k, None) :: kids) = kheight kids.
Proof. done. Qed.

Lemma nm_ok_nil h n L memo : nm_ok h n n L memo [] [] memo.
Proof.
  split; [by left|]. split; [by intros ?? ?%elem_of_nil|].
  intros s. split; [by intros (? & ?%elem_of_nil & _)|by intros ?%elem_of_nil].
Qed.

Lemma nm_ok_app h n n1 n' L1 L2 memo hooks1 hooks2 out1 memo1 out2 memo2 :
  n ≤ n1 → n1 ≤ n' →
  nm_ok h n n1 L1 memo hooks1 out1 memo1 →
  nm_ok h n1 n' L2 memo1 hooks2 out2 memo2 →
  nm_ok h n n' (L1 ++ L2) memo (hooks1 ++ hooks2) (out1 ++ out2) memo2.
Proof.
  intros Hn Hn' (Hm1 & Ho1 & Hh1) (Hm2 & Ho2 & Hh2). split; [|split].
  - intros x Hx. destruct (Hm2 _ Hx) as [Hx1|[?|?]].
    + destruct (Hm1 _ Hx1) as [?|[?|?]]; [by left|right; left; lia|].
      right. right. apply elem_of_app. by left.
    + right. left. lia.
    + right. right. apply elem_of_app. by right.
  - intros s x [Hin|Hin]%elem_of_app.
    + destruct (Ho1 _ _ Hin) as [? [?|[? ?]]]; (split; [lia|]); [by left|].
      right. split; [|done]. apply elem_of_app. by left.
    + destruct (Ho2 _ _ Hin) as [? [?|[? ?]]]; (split; [lia|]); [left; lia|].
      right. split; [|done]. apply elem_of_app. by right.
  - intros s. rewrite elem_of_app, <- Hh1, <- Hh2. split.
    + intros (x & [Hin|Hin]%elem_of_app & Hx); [left|right]; eauto.
    + intros [(x & Hin & Hx)|(x & Hin & Hx)]; exists x; (split; [|done]);
        apply elem_of_app; [by left|by right].
Qed.

Lemma memo_ok_next n n1 n' L1 L2 memo memo1 :
  n ≤ n1 →
  (∀ x, x ∈ L1 ++ L2 → x < n) →
  (∀ x, x ∈ L1 → x ∉ L2) →
  memo_ok n n' (L1 ++ L2) memo →
  (∀ x, x ∈ memo1 → x ∈ memo ∨ n ≤ x < n1 ∨ x ∈ L1) →
  memo_ok n1 n' L2 memo1.
Proof.
  intros Hn Hlt Hdis Hmemo Hm1 x Hx. destruct (Hm1 _ Hx) as [Hx1|[?|Hx1]].
  - destruct (Hmemo _ Hx1) as [? Hnin]. split; [lia|].
    intros ?. apply Hnin, elem_of_app. by right.
  - split; [lia|]. intros Hin. assert (x < n); [|lia]. apply Hlt, elem_of_app. by right.
  - assert (x < n) by (apply Hlt, elem_of_app; by left). split; [lia|]. by apply Hdis.
Qed.

Lemma named_modules_plain f h x o memo prefix :
  h !! x = Some o → o_cls o ≠ HookedInstance → x ∉ memo →
  named_modules (S f) h x memo prefix =
  match plain_children (named_modules f h) prefix (o_modules o) (x :: memo) with
  | Ok (out, memo') => Ok ((prefix, x) :: out, memo')
  | Raise e => Raise e
  | Undef => Undef
  end.
Proof.
  intros Hx Hc Hm. cbn [named_modules]. rewrite Hx, decide_False by done.
  by destruct (o_cls o).
Qed.

Lemma named_modules_wrapped_mut h :
  (∀ n n' t, wrapped h n n' t →
     ∀ fuel memo prefix,
       2 * height t ≤ fuel → (∀ x, x ∈ locs t → x < n) → NoDup (locs t) →
       memo_ok n n' (locs t) memo →
       nm_post h n n' (locs t) memo (hooks_of prefix t)
         (named_modules fuel h n memo prefix)) ∧
  (∀ n n' ms kids, wrapped_kids h n n' ms kids →
     ∀ f memo prefix,
       2 * kheight kids ≤ f → (∀ x, x ∈ kids_locs kids → x < n) → NoDup (kids_locs kids) →
       memo_ok n n' (kids_locs kids) memo →
       nm_post h n n' (kids_locs kids) memo (kids_hooks prefix kids)
         (hooked_children h (named_modules f h) prefix (some_children ms) memo)) ∧
  (∀ n n' i c ms es, wrapped_elems h n n' i c ms es →
     ∀ f memo prefix,
       2 * kheight es ≤ f → (∀ x, x ∈ kids_locs es → x < n) → NoDup (kids_locs es) →
       memo_ok n n' (kids_locs es) memo →
       nm_post h n n' (kids_locs es) memo (elems_hooks c prefix i es)
         (plain_children (named_modules f h) prefix ms memo)).
Proof.
  apply wrapped_mutind.
  - intros n n' l a a' kids oH ms HH Hcls Hpar Hfw Hms Hhp Hren Hl Hk IH
      fuel memo prefix Hfuel Hlt Hnd Hmemo.
    rewrite height_node in Hfuel. destruct fuel as [|f]; [lia|].
    pose proof (wrapped_kids_range _ _ _ _ _ Hk) as Hr.
    assert (n < (if has_hp (Node l a kids) then S n else S (S n))) as Hn1
        by (destruct (has_hp (Node l a kids)); lia).
    assert (∀ x, x ∈ kids_locs kids → x < n) as Hlt'
        by (intros x Hx; by apply Hlt, locs_kids).
    rewrite locs_node in Hnd. apply NoDup_cons in Hnd as [Hl_nin Hndk].
    destruct (wrapped_kids_values _ _ _ _ _ Hk) as [Hvnd Hvals]; [intros; etrans; eauto; lia|done|].
    cbn [named_modules]. rewrite HH.
    destruct (decide (n ∈ memo)) as [Hin|_]; [destruct (Hmemo _ Hin); lia|].
    rewrite Hcls, Hms. cbn [dict_get]. rewrite decide_True by done. rewrite Hl.
    unfold named_children. cbn [o_modules].
    rewrite named_children_from_some; [|done|by intros ?? ?%elem_of_nil].
    destruct (IH f (n :: memo) prefix) as (out & memo' & -> & Hm' & Hout & Hhooks);
      [lia|intros; etrans; eauto; lia|done| |].
    { intros x [->|Hx]%elem_of_cons.
      - split; [lia|]. intros Hin. specialize (Hlt' _ Hin). lia.
      - destruct (Hmemo _ Hx) as [Hx1 Hx2]. split; [lia|].
        intros Hin. apply Hx2. by apply locs_kids. }
    rewrite hasattr_no_params by done. rewrite Hms. rewrite decide_False by done.
    rewrite dict_has_cons_ne by done. rewrite hooks_of_node.
    assert (is_HookPoint h n = false) as HnH.
    { unfold is_HookPoint. by rewrite HH, Hcls. }
    destruct (has_hp (Node l a kids)) eqn:Hb.
    + rewrite dict_has_nil. eexists _, _. split; [done|]. split; [|split].
      * intros x Hx. destruct (Hm' _ Hx) as [[->|?]%elem_of_cons|[?|?]].
        -- right. left. lia.
        -- by left.
        -- right. left. lia.
        -- right. right. by apply locs_kids.
      * intros s x [Heq|Hin]%elem_of_cons; [simplify_eq; split; [lia|left; lia]|].
        destruct (Hout _ _ Hin) as [? [?|[? ?]]]; (split; [done|]); [left; lia|].
        right. split; [by apply locs_kids|done].
      * intros s. rewrite app_nil_r, <- Hhooks. split.
        -- intros (x & [Heq|Hin]%elem_of_cons & Hx); [simplify_eq; congruence|eauto].
        -- intros (x & Hin & Hx). exists x. split; [apply elem_of_cons; by right|done].
    + rewrite dict_has_cons_eq. cbn [dict_get]. rewrite decide_True by done.
      destruct (Hhp eq_refl) as (ohp & Hohp & Hhcls & _).
      assert (is_HookPoint h (S n) = true) as HhpH by (by eapply is_HookPoint_cls).
      eexists _, _. split; [done|]. split; [|split].
      * intros x Hx. destruct (Hm' _ Hx) as [[->|?]%elem_of_cons|[?|?]].
        -- right. left. lia.
        -- by left.
        -- right. left. lia.
        -- right. right. by apply locs_kids.
      * intros s x [Heq|[Hin|Hin%list_elem_of_singleton]%elem_of_app]%elem_of_cons.
        -- simplify_eq; split; [lia|left; lia].
        -- destruct (Hout _ _ Hin) as [? [?|[? ?]]]; (split; [done|]); [left; lia|].
           right. split; [by apply locs_kids|done].
        -- simplify_eq. split; [lia|left; lia].
      * intros s. rewrite elem_of_app, <- Hhooks, list_elem_of_singleton. split.
        -- intros (x & [Heq|[Hin|Hin%list_elem_of_singleton]%elem_of_app]%elem_of_cons & Hx).
           ++ simplify_eq; congruence.
           ++ left. eauto.
           ++ simplify_eq. by right.
        -- intros [(x & Hin & Hx)| ->].
           ++ exists x. split; [|done]. apply elem_of_cons. right. apply elem_of_app. by left.
           ++ exists (S n). split; [|done]. apply elem_of_cons. right. apply elem_of_app.
              right. by apply list_elem_of_singleton.
  - intros n f memo prefix _ _ _ _. eexists _, _. split; [done|]. apply nm_ok_nil.
  - intros n n' k ms kids Hk IH f memo prefix Hf Hlt Hnd Hmemo.
    rewrite kheight_cons_none in Hf. rewrite kids_locs_cons in *.
    by apply IH.
  - intros n n' k c a' ms kids Hc Hren Hl Hk IH f memo prefix Hf Hlt Hnd Hmemo.
    rewrite kheight_cons_some in Hf. pose proof (height_pos c).
    pose proof (wrapped_kids_range _ _ _ _ _ Hk) as Hr.
    pose proof Hnd as (Hndc & Hndk & Hdis)%NoDup_kids_locs_cons.
    rewrite kids_locs_cons in Hlt, Hmemo |- *.
    assert (root c < n) as Hrc by (apply Hlt, elem_of_app; left; apply root_in_locs).
    assert (root c ∉ memo) as Hrm.
    { intros Hin. destruct (Hmemo _ Hin) as [_ Hnin]. apply Hnin, elem_of_app. left.
      apply root_in_locs. }
    assert (a_cls a' = HookPoint) as Hcls' by (by rewrite (renamed_hook_cls _ _ Hren)).
    assert (is_HookPoint h (root c) = true) as HhpH by (by eapply is_HookPoint_cls).
    change (some_children ((k, Some (root c)) :: ms)) with ((k, root c) :: some_children ms).
    cbn [hooked_children]. rewrite decide_False by done. rewrite Hl.
    unfold o_cls at 1. cbn [o_attrs]. rewrite Hcls'.
    destruct f as [|f]; [lia|].
    rewrite (named_modules_plain f h (root c) (Obj a' [])); [|done| |done].
    2:{ unfold o_cls. cbn [o_attrs]. by rewrite Hcls'. }
    cbn [plain_children o_modules].
    destruct (IH (S f) (root c :: memo) prefix) as (out & memo' & -> & Hok);
      [lia|by intros; apply Hlt, elem_of_app; right|done| |].
    { eapply (memo_ok_next n n n' (locs c)); [lia|done|done|done|].
      intros x [->|?]%elem_of_cons; [right; right; apply root_in_locs|by left]. }
    eexists _, _. split; [done|].
    change ([(join prefix k, root c)] ++ [(join prefix k, root c)] ++ out)
      with ([(join prefix k, root c); (join prefix k, root c)] ++ out).
    change (kids_hooks prefix ((k, Some c) :: kids))
      with (kid_hooks prefix k c ++ kids_hooks prefix kids).
    eapply (nm_ok_app h n n n'); [lia|lia| |done].
    unfold kid_hooks. rewrite Hc. split; [|split].
    + intros x [->|?]%elem_of_cons; [right; right; apply root_in_locs|by left].
    + intros s x Hin. assert (x = root c) as ->.
      { apply elem_of_cons in Hin as [?|[?|?%elem_of_nil]%elem_of_cons]; by simplify_eq. }
      split; [done|]. right. split; [apply root_in_locs|done].
    + intros s. rewrite list_elem_of_singleton. split.
      * intros (x & Hin & _).
        apply elem_of_cons in Hin as [?|[?|?%elem_of_nil]%elem_of_cons]; by simplify_eq.
      * intros ->. exists (root c). split; [apply elem_of_cons; by left|done].
  - intros n n1 n' k c oc ms kids Hc Hl Hcls He IHe Hk IHk f memo prefix Hf Hlt Hnd Hmemo.
    rewrite kheight_cons_some in Hf.
    pose proof (wrapped_elems_range _ _ _ _ _ _ _ He) as Hr1.
    pose proof (wrapped_kids_range _ _ _ _ _ Hk) as Hr2.
    pose proof Hnd as (Hndc & Hndk & Hdis)%NoDup_kids_locs_cons.
    rewrite kids_locs_cons in Hlt, Hmemo |- *.
    destruct c as [lc ac es]. rewrite height_node in Hf. rewrite locs_node in Hndc.
    apply NoDup_cons in Hndc as [Hlc Hnde].
    unfold t_cls in Hc, Hcls, He. cbn [t_attrs t_kids] in Hc, Hcls, He, IHe.
    assert (n ∉ memo) as Hnm by (intros Hin; destruct (Hmemo _ Hin); lia).
    change (some_children ((k, Some n) :: ms)) with ((k, n) :: some_children ms).
    cbn [hooked_children]. rewrite decide_False by done. rewrite Hl.
    assert (is_HookPoint h n = false) as HnH.
    { unfold is_HookPoint. rewrite Hl, Hcls. by destruct (a_cls ac). }
    destruct f as [|f]; [lia|].
    rewrite (named_modules_plain f h n oc); [|done| |done].
    2:{ rewrite Hcls. by destruct (a_cls ac). }
    destruct (IHe f (n :: memo) (join prefix k)) as (outE & memoE & HrE & HokE); [lia| |done| |].
    { intros x Hx. assert (x < n); [|lia]. apply Hlt, elem_of_app. left. by apply locs_kids. }
    { intros x [->|Hx]%elem_of_cons.
      - split; [lia|]. intros Hin. assert (n < n); [|lia].
        apply Hlt, elem_of_app. left. by apply locs_kids.
      - destruct (Hmemo _ Hx) as [? Hnin]. split; [lia|]. intros Hin.
        apply Hnin, elem_of_app. left. by apply locs_kids. }
    assert (nm_ok h n n1 (locs (Node lc ac es)) memo
              (kid_hooks prefix k (Node lc ac es))
              ([(join prefix k, n)] ++ (join prefix k, n) :: outE) memoE) as Hok1.
    { destruct HokE as (Hm & Ho & Hh). split; [|split].
      - intros x Hx. destruct (Hm _ Hx) as [[->|?]%elem_of_cons|[?|?]].
        + right. left. lia.
        + by left.
        + right. left. lia.
        + right. right. by apply locs_kids.
      - intros s x Hin. assert (x = n ∨ (s, x) ∈ outE) as [->|Hin'].
        { apply elem_of_cons in Hin as [?|[?|?]%elem_of_cons]; simplify_eq; auto. }
        + split; [lia|by left].
        + destruct (Ho _ _ Hin') as [? [?|[? ?]]]; (split; [done|]); [left; lia|].
          right. split; [by apply locs_kids|done].
      - intros s. unfold kid_hooks, t_cls. cbn [t_attrs t_kids].
        assert (elems_hooks ac.(a_cls) (join prefix k) 0 es =
                match a_cls ac with
                | HookPoint => [join prefix k]
                | nn_ModuleList | nn_Sequential | nn_ModuleDict =>
                    elems_hooks (a_cls ac) (join prefix k) 0 es
                | _ => hooks_of (join prefix k) (Node lc ac es)
                end) as <- by (by destruct (a_cls ac)).
        rewrite <- Hh. split.
        + intros (x & Hin & Hx). assert (x = n ∨ (s, x) ∈ outE) as [->|Hin'].
          { apply elem_of_cons in Hin as [?|[?|?]%elem_of_cons]; simplify_eq; auto. }
          * congruence.
          * eauto.
        + intros (x & Hin & Hx). exists x. split; [|done].
          apply elem_of_cons. right. apply elem_of_cons. by right. }
    rewrite HrE.
    replace (match o_cls oc with
             | HookedInstance => []
             | _ => [(join prefix k, n)]
             end) with [(join prefix k, n)] by (rewrite Hcls; by destruct (a_cls ac)).
    destruct (IHk (S f) memoE prefix) as (out & memo' & -> & Hok);
      [lia| |done| |].
    { intros x Hx. assert (x < n); [|lia]. apply Hlt, elem_of_app. by right. }
    { eapply (memo_ok_next n n1 n' (locs (Node lc ac es))); [lia|done|done|done|].
      apply Hok1. }
    eexists _, _. split; [done|].
    change (kids_hooks prefix ((k, Some (Node lc ac es)) :: kids))
      with (kid_hooks prefix k (Node lc ac es) ++ kids_hooks prefix kids).
    rewrite (app_assoc [(join prefix k, n)]).
    eapply (nm_ok_app h n n1 n'); [lia|lia| |done]. apply Hok1.
  - intros n n1 n' k c ms kids Hc1 Hc2 Hw IHw Hk IHk f memo prefix Hf Hlt Hnd Hmemo.
    rewrite kheight_cons_some in Hf.
    pose proof (wrapped_range _ _ _ _ Hw) as Hr1.
    pose proof (wrapped_kids_range _ _ _ _ _ Hk) as Hr2.
    pose proof Hnd as (Hndc & Hndk & Hdis)%NoDup_kids_locs_cons.
    rewrite kids_locs_cons in Hlt, Hmemo |- *.
    assert (n ∉ memo) as Hnm by (intros Hin; destruct (Hmemo _ Hin); lia).
    change (some_children ((k, Some n) :: ms)) with ((k, n) :: some_children ms).
    cbn [hooked_children]. rewrite decide_False by done.
    inversion Hw as [? ? l a a' kids' oH ms' HH Hcls Hpar Hfw Hms Hhp Hren Hl Hk']; subst.
    rewrite HH, Hcls.
    destruct (IHw f memo (join prefix k)) as (outU & memoU & -> & HokU); [lia| |done| |].
    { intros x Hx. apply Hlt, elem_of_app. by left. }
    { intros x Hx. destruct (Hmemo _ Hx) as [? Hnin]. split; [lia|].
      intros Hin. apply Hnin, elem_of_app. by left. }
    destruct (IHk f memoU prefix) as (out & memo' & -> & Hok); [lia| |done| |].
    { intros x Hx. assert (x < n); [|lia]. apply Hlt, elem_of_app. by right. }
    { eapply (memo_ok_next n n1 n' (locs (Node l a kids'))); [lia|done|done|done|].
      apply HokU. }
    eexists _, _. split; [done|]. cbn [app].
    change (kids_hooks prefix ((k, Some (Node l a kids')) :: kids))
      with (kid_hooks prefix k (Node l a kids') ++ kids_hooks prefix kids).
    eapply (nm_ok_app h n n1 n'); [lia|lia| |done].
    replace (kid_hooks prefix k (Node l a kids')) with (hooks_of (join prefix k) (Node l a kids')).
    2:{ unfold kid_hooks. unfold t_cls in *. cbn [t_attrs] in *.
        destruct (a_cls a); try done. }
    done.
  - intros n i c f memo prefix _ _ _ _. eexists _, _. split; [done|]. apply nm_ok_nil.
  - intros n n1 n' i c k e ms es Hw IHw He IHe f memo prefix Hf Hlt Hnd Hmemo.
    rewrite kheight_cons_some in Hf.
    pose proof (wrapped_range _ _ _ _ Hw) as Hr1.
    pose proof (wrapped_elems_range _ _ _ _ _ _ _ He) as Hr2.
    pose proof Hnd as (Hndc & Hndk & Hdis)%NoDup_kids_locs_cons.
    rewrite kids_locs_cons in Hlt, Hmemo |- *.
    cbn [plain_children].
    destruct (IHw f memo (join prefix (if is_ordered c then pretty i else k)))
      as (outU & memoU & -> & HokU); [lia| |done| |].
    { intros x Hx. apply Hlt, elem_of_app. by left. }
    { intros x Hx. destruct (Hmemo _ Hx) as [? Hnin]. split; [lia|].
      intros Hin. apply Hnin, elem_of_app. by left. }
    destruct (IHe f memoU prefix) as (out & memo' & -> & Hok); [lia| |done| |].
    { intros x Hx. assert (x < n); [|lia]. apply Hlt, elem_of_app. by right. }
    { eapply (memo_ok_next n n1 n' (locs e)); [lia|done|done|done|]. apply HokU. }
    eexists _, _. split; [done|].
    change (elems_hooks c prefix i ((k, Some e) :: es))
      with (hooks_of (join prefix (if is_ordered c then pretty i else k)) e
            ++ elems_hooks c prefix (S i) es).
    by eapply (nm_ok_app h n n1 n'); [lia|lia| |].
Qed.

(** ** The naming pass on the wrapped store *)

Lemma dict_set_keys {V} k (v : V) d s : s ∈ (dict_set k v d).*1 ↔ s = k ∨ s ∈ d.*1.
Proof.
  induction d as [|[k' v'] d IH]; simpl.
  - rewrite list_elem_of_singleton. split; [by left|]. by intros [?|?%elem_of_nil].
  - destruct (decide (k = k')) as [->|Hne]; simpl; rewrite !elem_of_cons; [tauto|].
    rewrite IH. tauto.
Qed.

Lemma collect_hook_keys h nm md hd s :
  s ∈ (collect h nm md hd).2.*1 ↔
  s ∈ hd.*1 ∨ (s ≠ "" ∧ ∃ x, (s, x) ∈ nm ∧ is_HookPoint h x = true).
Proof.
  revert md hd. induction nm as [|[name x] nm IH]; intros md hd; simpl.
  - split; [by left|]. by intros [?|(_ & ? & ?%elem_of_nil & _)].
  - destruct (decide (name = "")) as [->|Hne]; rewrite IH.
    + split.
      * intros [?|(? & y & ? & ?)]; [by left|]. right. split; [done|].
        exists y. split; [by apply elem_of_cons; right|done].
      * intros [?|(? & y & [?|?]%elem_of_cons & ?)]; [by left|simplify_eq|].
        right. eauto.
    + destruct (is_HookPoint h x) eqn:Hx.
      * rewrite dict_set_keys. split.
        -- intros [[->|?]|(? & y & ? & ?)].
           ++ right. split; [done|]. exists x. split; [apply elem_of_cons; by left|done].
           ++ by left.
           ++ right. split; [done|]. exists y. split; [by apply elem_of_cons; right|done].
        -- intros [?|(? & y & [?|?]%elem_of_cons & ?)].
           ++ left. by right.
           ++ simplify_eq. left. by left.
           ++ right. eauto.
      * split.
        -- intros [?|(? & y & ? & ?)]; [by left|]. right. split; [done|].
           exists y. split; [by apply elem_of_cons; right|done].
        -- intros [?|(? & y & [?|?]%elem_of_cons & ?)]; [by left|simplify_eq; congruence|].
           right. eauto.
Qed.

Lemma set_name_with_name nm o :
  set_name nm o = Obj (with_name (Some nm) (o_attrs o)) (o_modules o).
Proof. done. Qed.

Lemma with_name_with_name nm nm' a : with_name nm (with_name nm' a) = with_name nm a.
Proof. done. Qed.

Lemma with_name_id a : with_name (a_name a) a = a.
Proof. by destruct a. Qed.

(** the loop of [setup]: only names change, only on the objects listed *)
Lemma rename_loop nm : ∀ h,
  (∀ s x, (s, x) ∈ nm → x < List.length h) →
  wp (for_each nm (λ '(name, module),
                     if decide (name = "") then ret tt
                     else update module (set_name name))) h
    (λ _ h', List.length h' = List.length h ∧
             ∀ x o, h !! x = Some o →
                    (∃ nmx, h' !! x = Some (Obj (with_name nmx (o_attrs o)) (o_modules o))) ∧
                    (x ∉ nm.*2 → h' !! x = Some o)).
Proof.
  induction nm as [|[name x] nm IH]; intros h Hlt; cbn [for_each].
  - apply wp_ret. split; [done|]. intros x o Hx. split; [|done].
    exists (a_name (o_attrs o)). rewrite with_name_id. by destruct o.
  - apply wp_bind. destruct (decide (name = "")) as [->|Hne].
    + apply wp_ret. eapply wp_mono; [apply IH|].
      * intros s y Hin. eapply Hlt. apply elem_of_cons. by right.
      * intros [] h' [Hlen Hh']. split; [done|]. intros y o Hy.
        destruct (Hh' _ _ Hy) as [? Hun]. split; [done|].
        intros Hnin. apply Hun. intros ?. apply Hnin. simpl. apply elem_of_cons. by right.
    + assert (x < List.length h) as Hx by (eapply Hlt; apply elem_of_cons; by left).
      destruct (lookup_lt_is_Some_2 h x Hx) as [ox Hox].
      eapply wp_update; [done|]. eapply wp_mono; [apply IH|].
      * intros s y Hin. rewrite length_insert. eapply Hlt. apply elem_of_cons. by right.
      * intros [] h' [Hlen Hh']. rewrite length_insert in Hlen. split; [done|].
        intros y o Hy. destruct (decide (y = x)) as [->|Hyx].
        -- assert (o = ox) as -> by congruence.
           destruct (Hh' x (set_name name ox)) as [[nmx Hnm] _].
           { by rewrite list_lookup_insert_eq. }
           split; [by exists nmx|].
           intros Hnin. exfalso. apply Hnin. simpl. apply elem_of_cons. by left.
        -- destruct (Hh' y o) as [? Hun]; [by rewrite list_lookup_insert_ne|].
           split; [done|]. intros Hnin. apply Hun. intros ?. apply Hnin. simpl.
           apply elem_of_cons. by right.
Qed.

Lemma wp_setup f self h nm m (Q : unit → heap → Prop) :
  named_modules f h self [] "" = Ok (nm, m) →
  wp (for_each nm (λ '(name, module),
                     if decide (name = "") then ret tt
                     else update module (set_name name)) ;;;
      update self (set_dicts (collect h nm [] []).1 (collect h nm [] []).2)) h Q →
  wp (setup f self) h Q.
Proof. unfold wp at 2, setup. by intros ->. Qed.

Lemma same_core_with_name nm o :
  same_core o (Obj (with_name nm (o_attrs o)) (o_modules o)).
Proof. done. Qed.

Lemma same_core_trans o1 o2 o3 : same_core o1 o2 → same_core o2 o3 → same_core o1 o3.
Proof. intros (? & ? & ? & ?) (? & ? & ? & ?). repeat split; congruence. Qed.

Lemma setup_spec h n n' t f :
  wrapped h n n' t →
  (∀ x, x ∈ locs t → x < n) → NoDup (locs t) → 2 * height t ≤ f →
  n' ≤ List.length h →
  wp (setup f n) h (λ _ h',
    List.length h' = List.length h ∧
    wrapped h' n n' t ∧
    (∀ x, x ∉ locs t → ¬ (n ≤ x < n') → h' !! x = h !! x) ∧
    (∀ o, h !! n = Some o → ∃ o', h' !! n = Some o' ∧ same_core o o' ∧
                             a_unwrap (o_attrs o') = a_unwrap (o_attrs o)) ∧
    (∀ s, s ∈ hook_names h' n ↔ s ∈ hooks_of "" t ∧ s ≠ "")).
Proof.
  intros Hw Hlt Hnd Hf Hn'.
  destruct (proj1 (named_modules_wrapped_mut h) _ _ _ Hw f [] "" Hf Hlt Hnd)
    as (nm & memo' & Hnm & Hm & Hout & Hhooks).
  { by intros x ?%elem_of_nil. }
  pose proof (wrapped_range _ _ _ _ Hw) as Hr.
  eapply wp_setup; [done|]. apply wp_bind.
  eapply wp_mono; [apply rename_loop|].
  { intros s x Hin. destruct (Hout _ _ Hin). lia. }
  intros [] h1 [Hlen1 Hh1].
  destruct (lookup_lt_is_Some_2 h n) as [oH HoH]; [lia|].
  destruct (Hh1 _ _ HoH) as [[nmH HoH1] _].
  eapply wp_update; [done|].
  assert (∀ x, x ∈ nm.*2 → x < n' ∧ (n ≤ x ∨ (x ∈ locs t ∧ is_HookPoint h x = true))) as Hvis.
  { intros x ([s y] & -> & Hin)%list_elem_of_fmap. by eapply Hout. }
  split; [by rewrite length_insert|]. split; [|split; [|split]].
  - eapply (proj1 (wrapped_stable_mut h)); [done| |].
    + intros x o Hx Ho. destruct (Hh1 _ _ Ho) as [[nmx Hx1] _].
      destruct (decide (x = n)) as [->|Hne].
      * eexists. rewrite list_lookup_insert_eq by lia. split; [done|].
        assert (o = oH) as -> by congruence. done.
      * eexists. rewrite list_lookup_insert_ne by done. split; [done|].
        apply same_core_with_name.
    + intros x o Hx Ho. specialize (Hlt _ Hx).
      rewrite list_lookup_insert_ne by lia.
      destruct (Hh1 _ _ Ho) as [[nmx Hx1] Hun].
      destruct (decide (x ∈ nm.*2)) as [Hin|Hnin].
      * destruct (Hvis _ Hin) as [_ [?|[_ Hhp]]]; [lia|].
        exists (with_name nmx (o_attrs o)). split; [done|]. right.
        split; [|by eexists]. by eapply is_HookPoint_cls.
      * exists (o_attrs o). rewrite (Hun Hnin). split; [by destruct o|apply renamed_hook_refl].
  - intros x Hx1 Hx2. assert (x ≠ n) by lia. rewrite list_lookup_insert_ne by done.
    destruct (h !! x) as [o|] eqn:Ho.
    + destruct (Hh1 _ _ Ho) as [_ Hun]. apply Hun. intros Hin.
      destruct (Hvis _ Hin) as [? [?|[? _]]]; [lia|done].
    + apply lookup_ge_None. rewrite Hlen1. by apply lookup_ge_None.
  - intros o Ho. assert (o = oH) as -> by congruence.
    eexists. rewrite list_lookup_insert_eq by lia. split; [done|]. done.
  - intros s. unfold hook_names, list_all_hooks. rewrite list_lookup_insert_eq by lia.
    cbn [set_dicts o_attrs a_hook_dict]. rewrite collect_hook_keys, <- Hhooks.
    split.
    + intros [?%elem_of_nil|[? ?]]; done.
    + intros [? ?]. by right.
Qed.

(** ** Wrapping a tree *)

Lemma pretty_not_in_seq (i : nat) : pretty i ∉ (pretty <$> seq 0 i : list string).
Proof.
  intros (j & Heq & Hj)%list_elem_of_fmap. apply (inj pretty) in Heq. subst j.
  apply elem_of_seq in Hj. lia.
Qed.

Lemma kid_ref_cons_some k e es :
  kid_ref <$> ((k, Some e) :: es) = (k, Some (root e)) :: (kid_ref <$> es).
Proof. done. Qed.

Lemma kid_ref_cons_none k (es : list (string * option mtree)) :
  kid_ref <$> ((k, None) :: es) = (k, None) :: (kid_ref <$> es).
Proof. done. Qed.

Lemma tree_kid l a kids k c : tree (Node l a kids) → (k, Some c) ∈ kids → tree c.
Proof.
  intros [Hwf Hnd] Hin. inversion Hwf as [? ? ? _ _ _ Hk]; subst. split.
  - rewrite Forall_forall in Hk. by destruct (Hk _ Hin c eq_refl).
  - rewrite locs_node in Hnd. apply NoDup_cons in Hnd as [_ Hnd]. clear -Hnd Hin.
    induction kids as [|[k' oc] kids IH]; [by apply elem_of_nil in Hin|].
    apply elem_of_cons in Hin as [Heq|Hin].
    + simplify_eq. by apply NoDup_kids_locs_cons in Hnd as (? & _ & _).
    + apply IH; [|done]. rewrite kids_locs_cons in Hnd. by apply NoDup_app in Hnd as (_ & _ & ?).
Qed.

Section loops.
Variable rec : loc → M loc.
Variable N : nat.
Hypothesis IHrec : ∀ e, height e < N → wf e → NoDup (locs e) →
  ∀ h, repr h e → wp (rec (root e)) h (wrap_post h e).

Lemma wrap_ordered_spec c cl a_c : ∀ es cur h,
  is_ordered c = true →
  kheight es < N →
  Forall (λ e, is_Some e.2) es →
  (∀ k e, (k, Some e) ∈ es → wf e ∧ repr h e) →
  NoDup (kids_locs es) →
  h !! cl = Some (Obj a_c cur) → cl ∉ kids_locs es →
  cur.*1 = pretty <$> seq 0 (List.length cur) →
  wp (wrap_ordered rec cl (kid_ref <$> es)) h (λ _ h',
    ∃ ms, h' !! cl = Some (Obj a_c (cur ++ ms)) ∧
          wrapped_elems h' (List.length h) (List.length h') (List.length cur) c ms es ∧
          (∀ x, x < List.length h → x ∉ kids_locs es → x ≠ cl → h' !! x = h !! x)).
Proof.
  intros es. induction es as [|[k oe] es IH]; intros cur h Hord HN Hsome Hes Hnd Hcl Hcl_nin Hcur.
  - apply wp_ret. exists []. rewrite app_nil_r. split; [done|]. split; [constructor|done].
  - apply Forall_cons in Hsome as [[e He] Hsome]. simpl in He. subst oe.
    rewrite kid_ref_cons_some. unfold wrap_ordered. cbn [for_each]. apply wp_bind.
    rewrite kheight_cons_some in HN.
    pose proof Hnd as (Hnde & Hndes & Hdis)%NoDup_kids_locs_cons.
    destruct (Hes k e) as [Hwfe Hre]; [apply elem_of_cons; by left|].
    assert (cl < List.length h) as Hcl_lt by (by eapply lookup_lt_heap).
    apply wp_bind. cbn [auto_hook_elem].
    eapply wp_mono; [apply IHrec; [lia|done|done|done]|].
    intros w h1 (-> & Hw & Hfr1 & _ & _).
    pose proof (wrapped_range _ _ _ _ Hw) as Hr1.
    assert (h1 !! cl = Some (Obj a_c cur)) as Hcl1.
    { rewrite Hfr1; [done|done|]. intros Hin. apply Hcl_nin. by apply kids_locs_here. }
    apply wp_bind. eapply wp_deref; [done|].
    eapply wp_add_module; [done|]. cbn [o_modules set_modules o_attrs].
    rewrite dict_set_fresh by (rewrite Hcur; apply pretty_not_in_seq).
    set (h2 := <[cl := _]> h1).
    assert (List.length h2 = List.length h1) as Hlen2 by apply length_insert.
    fold (wrap_ordered rec cl (kid_ref <$> es)).
    eapply wp_mono; [apply (IH (cur ++ [(pretty (List.length cur), Some (List.length h))]) h2)|].
    + done.
    + lia.
    + done.
    + intros k' e' Hin. destruct (Hes k' e') as [? Hre']; [apply elem_of_cons; by right|].
      split; [done|]. eapply repr_frame; [done|]. intros x Hx.
      assert (x ∈ kids_locs es) as Hxk by (by eapply kids_locs_elem).
      unfold h2. rewrite list_lookup_insert_ne.
      2:{ intros ->. apply Hcl_nin. by apply kids_locs_later. }
      apply Hfr1; [by eapply repr_locs_lt|]. intros ?. by eapply Hdis.
    + done.
    + unfold h2. by rewrite list_lookup_insert_eq by lia.
    + intros ?. apply Hcl_nin. by apply kids_locs_later.
    + rewrite fmap_app, length_app, Hcur. cbn [fmap list_fmap List.length fst].
      rewrite Nat.add_1_r, seq_S, fmap_app. done.
    + intros [] h3 (ms & Hcl3 & Hwe & Hfr3). rewrite Hlen2 in Hwe.
      rewrite length_app, Nat.add_1_r in Hwe. cbn [List.length] in Hwe.
      exists ((pretty (List.length cur), Some (List.length h)) :: ms).
      split; [by rewrite <- app_assoc in Hcl3|]. split.
      * replace (pretty (List.length cur)) with (if is_ordered c then pretty (List.length cur) else k)
          by (by rewrite Hord).
        econstructor; [|done].
        eapply wrapped_frame; [|].
        { eapply (wrapped_frame h1 h2); [done|]. intros x [Hx|Hx]; unfold h2.
          - rewrite list_lookup_insert_ne; [done|]. intros ->. apply Hcl_nin.
            by apply kids_locs_here.
          - rewrite list_lookup_insert_ne; [done|]. lia. }
        intros x Hx. apply Hfr3.
        -- destruct Hx as [Hx|Hx]; [|lia]. pose proof (repr_locs_lt _ _ _ Hre Hx). lia.
        -- destruct Hx as [Hx|Hx]; [by apply Hdis|].
           intros Hin. destruct (proj1 (elem_of_kids_locs _ _) Hin) as (k' & e' & Hin' & Hx').
           destruct (Hes k' e') as [_ Hre']; [apply elem_of_cons; by right|].
           pose proof (repr_locs_lt _ _ _ Hre' Hx'). lia.
        -- destruct Hx as [Hx|Hx]; [|lia]. intros ->. apply Hcl_nin. by apply kids_locs_here.
      * intros x Hx Hnin Hne. rewrite Hfr3.
        -- unfold h2. rewrite list_lookup_insert_ne by done. apply Hfr1; [done|].
           intros ?. apply Hnin. by apply kids_locs_here.
        -- lia.
        -- intros ?. apply Hnin. by apply kids_locs_later.
        -- done.
Qed.
Lemma wrap_keyed_spec c cl a_c : ∀ es cur h i,
  is_ordered c = false →
  kheight es < N →
  Forall (λ e, is_Some e.2) es →
  (∀ k e, (k, Some e) ∈ es → wf e ∧ repr h e) →
  NoDup (kids_locs es) →
  h !! cl = Some (Obj a_c cur) → cl ∉ kids_locs es →
  NoDup (cur.*1 ++ es.*1) →
  wp (wrap_keyed rec cl (kid_ref <$> es)) h (λ _ h',
    ∃ ms, h' !! cl = Some (Obj a_c (cur ++ ms)) ∧
          wrapped_elems h' (List.length h) (List.length h') i c ms es ∧
          (∀ x, x < List.length h → x ∉ kids_locs es → x ≠ cl → h' !! x = h !! x)).
Proof.
  intros es. induction es as [|[k oe] es IH];
    intros cur h i Hord HN Hsome Hes Hnd Hcl Hcl_nin Hcur.
  - apply wp_ret. exists []. rewrite app_nil_r. split; [done|]. split; [constructor|done].
  - apply Forall_cons in Hsome as [[e He] Hsome]. simpl in He. subst oe.
    rewrite kid_ref_cons_some. unfold wrap_keyed. cbn [for_each]. apply wp_bind.
    rewrite kheight_cons_some in HN.
    pose proof Hnd as (Hnde & Hndes & Hdis)%NoDup_kids_locs_cons.
    destruct (Hes k e) as [Hwfe Hre]; [apply elem_of_cons; by left|].
    assert (cl < List.length h) as Hcl_lt by (by eapply lookup_lt_heap).
    apply wp_bind. cbn [auto_hook_elem].
    eapply wp_mono; [apply IHrec; [lia|done|done|done]|].
    intros w h1 (-> & Hw & Hfr1 & _ & _).
    pose proof (wrapped_range _ _ _ _ Hw) as Hr1.
    assert (h1 !! cl = Some (Obj a_c cur)) as Hcl1.
    { rewrite Hfr1; [done|done|]. intros Hin. apply Hcl_nin. by apply kids_locs_here. }
    eapply wp_add_module; [done|]. cbn [o_modules set_modules o_attrs].
    cbn [fmap list_fmap fst] in Hcur.
    assert (k ∉ cur.*1) as Hk.
    { apply NoDup_app in Hcur as (_ & Hd & _). intros Hin. apply (Hd _ Hin).
      apply elem_of_cons. by left. }
    rewrite dict_set_fresh by done.
    set (h2 := <[cl := _]> h1).
    assert (List.length h2 = List.length h1) as Hlen2 by apply length_insert.
    fold (wrap_keyed rec cl (kid_ref <$> es)).
    eapply wp_mono; [apply (IH (cur ++ [(k, Some (List.length h))]) h2 (S i))|].
    + done.
    + lia.
    + done.
    + intros k' e' Hin. destruct (Hes k' e') as [? Hre']; [apply elem_of_cons; by right|].
      split; [done|]. eapply repr_frame; [done|]. intros x Hx.
      assert (x ∈ kids_locs es) as Hxk by (by eapply kids_locs_elem).
      unfold h2. rewrite list_lookup_insert_ne.
      2:{ intros ->. apply Hcl_nin. by apply kids_locs_later. }
      apply Hfr1; [by eapply repr_locs_lt|]. intros ?. by eapply Hdis.
    + done.
    + unfold h2. by rewrite list_lookup_insert_eq by lia.
    + intros ?. apply Hcl_nin. by apply kids_locs_later.
    + rewrite fmap_app. cbn [fmap list_fmap fst]. rewrite <- app_assoc. cbn [app].
      apply NoDup_app in Hcur as (Hc1 & Hc2 & Hc3). apply NoDup_cons in Hc3 as [Hc3 Hc4].
      apply NoDup_app. split; [done|]. split; [|by apply NoDup_cons].
      intros y Hy [->|Hin]%elem_of_cons; [done|]. apply (Hc2 _ Hy). apply elem_of_cons. by right.
    + intros [] h3 (ms & Hcl3 & Hwe & Hfr3). rewrite Hlen2 in Hwe.
      exists ((k, Some (List.length h)) :: ms).
      split; [by rewrite <- app_assoc in Hcl3|]. split.
      * replace k with (if is_ordered c then pretty i else k) at 1 by (by rewrite Hord).
        econstructor; [|done].
        eapply wrapped_frame; [|].
        { eapply (wrapped_frame h1 h2); [done|]. intros x [Hx|Hx]; unfold h2.
          - rewrite list_lookup_insert_ne; [done|]. intros ->. apply Hcl_nin.
            by apply kids_locs_here.
          - rewrite list_lookup_insert_ne; [done|]. lia. }
        intros x Hx. apply Hfr3.
        -- destruct Hx as [Hx|Hx]; [|lia]. pose proof (repr_locs_lt _ _ _ Hre Hx). lia.
        -- destruct Hx as [Hx|Hx]; [by apply Hdis|].
           intros Hin. destruct (proj1 (elem_of_kids_locs _ _) Hin) as (k' & e' & Hin' & Hx').
           destruct (Hes k' e') as [_ Hre']; [apply elem_of_cons; by right|].
           pose proof (repr_locs_lt _ _ _ Hre' Hx'). lia.
        -- destruct Hx as [Hx|Hx]; [|lia]. intros ->. apply Hcl_nin. by apply kids_locs_here.
      * intros x Hx Hnin Hne. rewrite Hfr3.
        -- unfold h2. rewrite list_lookup_insert_ne by done. apply Hfr1; [done|].
           intros ?. apply Hnin. by apply kids_locs_here.
        -- lia.
        -- intros ?. apply Hnin. by apply kids_locs_later.
        -- done.
Qed.
Lemma some_children_cons_some k x ms :
  some_children ((k, Some x) :: ms) = (k, x) :: some_children ms.
Proof. done. Qed.

Lemma some_children_cons_none k ms : some_children ((k, None) :: ms) = some_children ms.
Proof. done. Qed.

Lemma NoDup_keys_step {V W} (pre : list (string * V)) k (v : V) (w : W) (kids : list (string * W)) :
  NoDup (pre.*1 ++ ((k, w) :: kids).*1) →
  (k ∉ pre.*1) ∧ NoDup ((pre ++ [(k, v)]).*1 ++ kids.*1).
Proof.
  cbn [fmap list_fmap fst]. intros (Hc1 & Hc2 & Hc3)%NoDup_app.
  apply NoDup_cons in Hc3 as [Hc3 Hc4]. split.
  - intros Hin. apply (Hc2 _ Hin). apply elem_of_cons. by left.
  - rewrite fmap_app. cbn [fmap list_fmap fst]. rewrite <- app_assoc. cbn [app].
    apply NoDup_app. split; [done|]. split; [|by apply NoDup_cons].
    intros y Hy [->|Hin]%elem_of_cons.
    + apply (Hc2 _ Hy). apply elem_of_cons. by left.
    + apply (Hc2 _ Hy). apply elem_of_cons. by right.
Qed.

Lemma wrapped_kids_app h n n1 n' ms1 kids1 ms2 kids2 :
  wrapped_kids h n n1 ms1 kids1 → wrapped_kids h n1 n' ms2 kids2 →
  wrapped_kids h n n' (ms1 ++ ms2) (kids1 ++ kids2).
Proof.
  induction 1; intros Hw2; cbn [app].
  - done.
  - constructor. auto.
  - eapply wrapped_kids_hook; eauto.
  - eapply wrapped_kids_container; eauto.
  - eapply wrapped_kids_unit; eauto.
Qed.

Lemma wf_inv l a kids :
  wf (Node l a kids) →
  NoDup kids.*1 ∧ (a_cls a = HookPoint → kids = []) ∧
  ∀ k c, (k, Some c) ∈ kids →
         wf c ∧ (is_container (t_cls c) = true → Forall (λ e, is_Some e.2) (t_kids c)).
Proof.
  inversion 1 as [? ? ? H1 H0 H2 H3]; subst. split; [done|]. split; [done|].
  intros k c Hin. rewrite Forall_forall in H3. by apply (H3 _ Hin).
Qed.

Lemma wf_keys_nonempty l a kids k c : wf (Node l a kids) → (k, c) ∈ kids → k ≠ "".
Proof.
  inversion 1 as [? ? ? H1 H0 H2 H3]; subst. intros Hin.
  rewrite Forall_forall in H0. by apply (H0 _ Hin).
Qed.

Lemma kheight_lt_height t : kheight (t_kids t) < height t.
Proof. destruct t. rewrite height_node. simpl. lia. Qed.

Lemma wrap_child_spec l a pre rest k c h :
  height c < N →
  wf c → NoDup (locs c) → repr h c →
  (is_container (t_cls c) = true → Forall (λ e, is_Some e.2) (t_kids c)) →
  (k ∉ pre.*1) →
  h !! l = Some (Obj a (pre ++ (k, Some (root c)) :: rest)) → l ∉ locs c →
  wp (wrap_child rec l (k, root c)) h (λ _ h1,
    ∃ v, h1 !! l = Some (Obj a (pre ++ (k, v) :: rest)) ∧
         wrapped_kids h1 (List.length h) (List.length h1) [(k, v)] [(k, Some c)] ∧
         (∀ x, x < List.length h → x ∉ locs c → x ≠ l → h1 !! x = h !! x)).
Proof.
  intros HN Hwf Hnd Hr Hcont Hk Hl Hl_nin.
  assert (l < List.length h) as Hl_lt by (by eapply lookup_lt_heap).
  destruct c as [lc ac es]. pose proof Hr as [Hlc Hes]%repr_inv.
  pose proof Hwf as (Hkeys & Hhook & Hwfes)%wf_inv.
  rewrite height_node in HN. pose proof Hnd as [Hlc_nin Hndes]%NoDup_cons.
  fold (kids_locs es) in Hlc_nin, Hndes.
  unfold t_cls in Hcont. cbn [t_attrs t_kids root] in *.
  unfold wrap_child. apply wp_bind. eapply wp_deref; [done|].
  unfold o_cls. cbn [o_attrs o_modules].
  assert (∀ c0, a_cls ac = c0 → is_container c0 = true →
    wp (Hooked_container ←- alloc (fresh_obj c0) ;;
        (if is_ordered c0 then wrap_ordered rec Hooked_container (kid_ref <$> es)
         else wrap_keyed rec Hooked_container (kid_ref <$> es)) ;;;
        setattr l k Hooked_container) h
      (λ _ h1, ∃ v, h1 !! l = Some (Obj a (pre ++ (k, v) :: rest)) ∧
         wrapped_kids h1 (List.length h) (List.length h1) [(k, v)]
           [(k, Some (Node lc ac es))] ∧
         (∀ x, x < List.length h → x ∉ locs (Node lc ac es) → x ≠ l → h1 !! x = h !! x)))
    as Hcontainer.
  { intros c0 Hc0 Hcc. rewrite Hc0 in Hcont. specialize (Hcont Hcc).
    apply wp_bind. apply wp_alloc. set (cl := List.length h). set (h0 := h ++ [fresh_obj c0]).
    assert (List.length h0 = S cl) as Hlen0 by (unfold h0; rewrite length_app; simpl; lia).
    assert (∀ x, x ∈ kids_locs es → x < cl) as Hes_lt.
    { intros x Hx. eapply repr_locs_lt; [done|]. by apply locs_kids. }
    assert (∀ k e, (k, Some e) ∈ es → wf e ∧ repr h0 e) as Hes0.
    { intros k' e Hin. split; [by apply (Hwfes k')|]. eapply repr_frame; [by eapply Hes|].
      intros x Hx. apply lookup_snoc_old. apply Hes_lt. by eapply kids_locs_elem. }
    assert (h0 !! cl = Some (Obj (o_attrs (fresh_obj c0)) [])) as Hcl0
        by apply lookup_snoc_new.
    assert (cl ∉ kids_locs es) as Hcl_nin by (intros Hin; specialize (Hes_lt _ Hin); lia).
    apply wp_bind.
    eapply (wp_mono _ _ (λ _ h', ∃ ms, h' !! cl = Some (Obj (o_attrs (fresh_obj c0)) ms) ∧
              wrapped_elems h' (S cl) (List.length h') 0 c0 ms es ∧
              (∀ x, x < S cl → x ∉ kids_locs es → x ≠ cl → h' !! x = h0 !! x))).
    { destruct (is_ordered c0) eqn:Hord.
      - eapply wp_mono; [apply (wrap_ordered_spec c0 cl (o_attrs (fresh_obj c0)) es [] h0); try done; lia|].
        intros [] h' (ms & ? & ? & ?). exists ms. by rewrite <- Hlen0.
      - eapply wp_mono; [apply (wrap_keyed_spec c0 cl (o_attrs (fresh_obj c0)) es [] h0 0); try done; lia|].
        intros [] h' (ms & ? & ? & ?). exists ms. by rewrite <- Hlen0. }
    intros [] h' (ms & Hcl' & Hwe & Hfr').
    pose proof (wrapped_elems_range _ _ _ _ _ _ _ Hwe) as Hr'.
    assert (l ≠ cl) as Hlcl by (unfold cl; lia).
    assert (l ∉ kids_locs es) as Hl_nin' by (intros ?; by apply Hl_nin, locs_kids).
    assert (h' !! l = Some (Obj a (pre ++ (k, Some lc) :: rest))) as Hl'.
    { rewrite Hfr'; [|lia|done|done]. unfold h0. by rewrite lookup_snoc_old. }
    eapply wp_setattr; [done|]. cbn [o_modules set_modules o_attrs].
    rewrite dict_set_app_here by done. exists (Some cl).
    split; [by rewrite list_lookup_insert_eq by lia|]. rewrite length_insert. split.
    - eapply (wrapped_kids_container _ cl (List.length h') _ k (Node lc ac es)
                (Obj (o_attrs (fresh_obj c0)) ms)).
      + unfold t_cls. cbn [t_attrs]. by rewrite Hc0.
      + by rewrite list_lookup_insert_ne.
      + unfold t_cls. cbn [t_attrs]. by rewrite Hc0.
      + unfold t_cls. cbn [t_attrs t_kids o_modules]. rewrite Hc0.
        eapply wrapped_elems_frame; [done|]. intros x [Hx|Hx].
        * rewrite list_lookup_insert_ne; [done|]. by intros ->.
        * rewrite list_lookup_insert_ne; [done|]. lia.
      + constructor.
    - intros x Hx Hnin Hne. rewrite list_lookup_insert_ne by done.
      rewrite Hfr'; [|lia| |unfold cl; lia].
      + unfold h0. by rewrite lookup_snoc_old.
      + intros ?. by apply Hnin, locs_kids. }
  assert (a_cls ac ≠ HookPoint → is_container (a_cls ac) = false →
    wp (w ←- rec lc ;; setattr l k w) h
      (λ _ h1, ∃ v, h1 !! l = Some (Obj a (pre ++ (k, v) :: rest)) ∧
         wrapped_kids h1 (List.length h) (List.length h1) [(k, v)]
           [(k, Some (Node lc ac es))] ∧
         (∀ x, x < List.length h → x ∉ locs (Node lc ac es) → x ≠ l → h1 !! x = h !! x)))
    as Hunit.
  { intros Hc1 Hc2. apply wp_bind.
    eapply wp_mono; [apply (IHrec (Node lc ac es)); [rewrite height_node; lia|done|done|done]|].
    intros w h1 (-> & Hw & Hfr1 & _ & _).
    pose proof (wrapped_range _ _ _ _ Hw) as Hr1.
    assert (h1 !! l = Some (Obj a (pre ++ (k, Some lc) :: rest))) as Hl1
        by (by rewrite Hfr1).
    eapply wp_setattr; [done|]. cbn [o_modules set_modules o_attrs].
    rewrite dict_set_app_here by done. exists (Some (List.length h)).
    split; [by rewrite list_lookup_insert_eq by lia|]. rewrite length_insert. split.
    - eapply wrapped_kids_unit; [done|done| |constructor].
      eapply wrapped_frame; [done|]. intros x [Hx|Hx].
      + rewrite list_lookup_insert_ne; [done|]. by intros ->.
      + rewrite list_lookup_insert_ne; [done|]. lia.
    - intros x Hx Hnin Hne. rewrite list_lookup_insert_ne by done. by apply Hfr1. }
  destruct (a_cls ac) eqn:Hcls.
  - by apply Hunit.
  - by apply (Hcontainer nn_ModuleList).
  - by apply (Hcontainer nn_Sequential).
  - by apply (Hcontainer nn_ModuleDict).
  - apply wp_ret. rewrite (Hhook eq_refl) in *. exists (Some lc). split; [done|]. split; [|done].
    eapply (wrapped_kids_hook h _ _ k (Node lc ac []) ac); [done|apply renamed_hook_refl|done|].
    constructor.
  - by apply Hunit.
Qed.

Lemma wrap_kids_spec l a : ∀ kids pre h,
  kheight kids < N →
  (∀ k c, (k, Some c) ∈ kids →
          wf c ∧ repr h c ∧
          (is_container (t_cls c) = true → Forall (λ e, is_Some e.2) (t_kids c))) →
  NoDup (kids_locs kids) →
  NoDup (pre.*1 ++ kids.*1) →
  h !! l = Some (Obj a (pre ++ (kid_ref <$> kids))) → l ∉ kids_locs kids →
  wp (for_each (some_children (kid_ref <$> kids)) (wrap_child rec l)) h (λ _ h',
    ∃ ms, h' !! l = Some (Obj a (pre ++ ms)) ∧
          wrapped_kids h' (List.length h) (List.length h') ms kids ∧
          (∀ x, x < List.length h → x ∉ kids_locs kids → x ≠ l → h' !! x = h !! x)).
Proof.
  intros kids. induction kids as [|[k [c|]] kids IH]; intros pre h HN Hkids Hnd Hkeys Hl Hl_nin.
  - apply wp_ret. exists []. split; [done|]. split; [constructor|done].
  - rewrite kid_ref_cons_some, some_children_cons_some. cbn [for_each]. apply wp_bind.
    rewrite kheight_cons_some in HN.
    pose proof Hnd as (Hndc & Hndk & Hdis)%NoDup_kids_locs_cons.
    destruct (Hkids k c) as (Hwfc & Hrc & Hcont); [apply elem_of_cons; by left|].
    pose proof (NoDup_keys_step pre k (@None nat) _ _ Hkeys) as [Hk _].
    assert (l < List.length h) as Hl_lt by (by eapply lookup_lt_heap).
    assert (∀ x, x ∈ kids_locs kids → x < List.length h) as Hkids_lt.
    { intros x (k' & c' & Hin & Hx)%elem_of_kids_locs.
      destruct (Hkids k' c') as (_ & Hr' & _); [apply elem_of_cons; by right|].
      by eapply repr_locs_lt. }
    eapply wp_mono;
      [eapply (wrap_child_spec l a pre (kid_ref <$> kids) k c h); try done; [lia|]|].
    { intros ?. apply Hl_nin. by apply kids_locs_here. }
    intros [] h1 (v & Hl1 & Hw1 & Hfr1).
    pose proof (wrapped_kids_range _ _ _ _ _ Hw1) as Hr1.
    pose proof (NoDup_keys_step pre k v _ _ Hkeys) as [_ Hkeys'].
    eapply wp_mono; [apply (IH (pre ++ [(k, v)]) h1)|].
    + lia.
    + intros k' c' Hin. destruct (Hkids k' c') as (? & Hr' & ?); [apply elem_of_cons; by right|].
      split; [done|]. split; [|done]. eapply repr_frame; [done|]. intros x Hx.
      assert (x ∈ kids_locs kids) as Hxk by (by eapply kids_locs_elem).
      apply Hfr1; [by apply Hkids_lt| |].
      * intros ?. by eapply Hdis.
      * intros ->. apply Hl_nin. by apply kids_locs_later.
    + done.
    + done.
    + by rewrite <- app_assoc.
    + intros ?. apply Hl_nin. by apply kids_locs_later.
    + intros [] h' (ms & Hl' & Hw & Hfr). exists ((k, v) :: ms).
      split; [by rewrite <- app_assoc in Hl'|]. split.
      * change ((k, v) :: ms) with ([(k, v)] ++ ms).
        change ((k, Some c) :: kids) with ([(k, Some c)] ++ kids).
        eapply wrapped_kids_app; [|done]. eapply wrapped_kids_frame; [done|].
        intros x [Hx|Hx]; apply Hfr.
        -- rewrite kids_locs_cons, app_nil_r in Hx. pose proof (repr_locs_lt _ _ _ Hrc Hx). lia.
        -- rewrite kids_locs_cons, app_nil_r in Hx. by apply Hdis.
        -- rewrite kids_locs_cons, app_nil_r in Hx. intros ->. apply Hl_nin.
           by apply kids_locs_here.
        -- lia.
        -- intros Hin. specialize (Hkids_lt _ Hin). lia.
        -- lia.
      * intros x Hx Hnin Hne. rewrite Hfr.
        -- apply Hfr1; [done| |done]. intros ?. apply Hnin. by apply kids_locs_here.
        -- lia.
        -- intros ?. apply Hnin. by apply kids_locs_later.
        -- done.
  - rewrite kid_ref_cons_none, some_children_cons_none.
    rewrite kheight_cons_none in HN. rewrite kids_locs_cons in Hnd, Hl_nin. cbn [app] in Hnd, Hl_nin.
    apply (NoDup_keys_step pre k None) in Hkeys as [Hk Hkeys].
    eapply wp_mono; [apply (IH (pre ++ [(k, None)]) h)|]; try done.
    + intros k' c' Hin. apply (Hkids k'). apply elem_of_cons. by right.
    + by rewrite <- app_assoc.
    + intros [] h' (ms & Hl' & Hw & Hfr). exists ((k, None) :: ms).
      split; [by rewrite <- app_assoc in Hl'|]. split; [by constructor|].
      intros x ? Hx ?. apply Hfr; [done| |done]. by rewrite kids_locs_cons in Hx.
Qed.
End loops.

Lemma wp_HookedInstance_init f rec l h o (Q : loc → heap → Prop) :
  h !! l = Some o →
  wp (_wrap_submodules rec l ;;; setup f (List.length h) ;;; ret (List.length h))
     (h ++ wrapper_obj (List.length h) l o ::
        (if hasattr o "hook_point" then [] else [fresh_obj HookPoint])) Q →
  wp (HookedInstance_init f rec l) h Q.
Proof.
  intros Hl HQ. assert (l < List.length h) as Hlt by (by eapply lookup_lt_heap).
  unfold HookedInstance_init.
  apply wp_bind, wp_alloc. apply wp_bind.
  eapply wp_setattr; [apply lookup_snoc_new|].
  rewrite (insert_app_r_alt h) by done. rewrite Nat.sub_diag. cbn [insert list_insert].
  cbn [fresh_obj o_modules dict_set set_modules o_attrs].
  apply wp_bind. eapply wp_deref; [by rewrite lookup_app_l|].
  apply wp_bind.
  eapply (wp_mono _ _ (λ _ h', h' = h ++
     Obj (Attrs HookedInstance false [] None None None [] [])
       (("_module", Some l) ::
        (if hasattr o "hook_point" then [] else [("hook_point", Some (S (List.length h)))]))
     :: (if hasattr o "hook_point" then [] else [fresh_obj HookPoint]))).
  { destruct (hasattr o "hook_point").
    - by apply wp_ret.
    - apply wp_bind, wp_alloc. rewrite length_app. cbn [List.length]. rewrite Nat.add_1_r.
      eapply wp_setattr.
      { rewrite <- app_assoc. cbn [app]. apply list_lookup_middle. done. }
      rewrite <- app_assoc. cbn [app].
      rewrite (insert_app_r_alt h) by done. rewrite Nat.sub_diag. cbn [insert list_insert].
      cbn [o_modules dict_set set_modules o_attrs]. rewrite decide_False by done. done. }
  intros [] h' ->. apply wp_bind. unfold _create_forward.
  apply wp_bind. eapply wp_deref; [by rewrite lookup_app_l|].
  eapply wp_update; [apply list_lookup_middle; done|].
  rewrite (insert_app_r_alt h) by done. rewrite Nat.sub_diag. cbn [insert list_insert].
  exact HQ.
Qed.

Lemma NoDup_kid_roots kids :
  NoDup (kids_locs kids) → NoDup (omap snd (kid_ref <$> kids)).
Proof.
  induction kids as [|[k [c|]] kids IH]; intros Hnd.
  - constructor.
  - apply NoDup_kids_locs_cons in Hnd as (Hndc & Hndk & Hdis).
    rewrite kid_ref_cons_some. cbn [omap list_omap snd]. apply NoDup_cons. split; [|by apply IH].
    intros (kc & Hin & Heq)%list_elem_of_omap. apply list_elem_of_fmap in Hin as ([k' oc] & -> & Hin).
    unfold kid_ref in Heq. cbn in Heq. destruct oc as [c'|]; [|done]. simplify_eq/=.
    apply (Hdis (root c')); [rewrite Heq; apply root_in_locs|].
    eapply kids_locs_elem; [done|apply root_in_locs].
  - rewrite kid_ref_cons_none. cbn [omap list_omap snd]. apply IH.
    by rewrite kids_locs_cons in Hnd.
Qed.

Lemma same_core_set_unwrap m o : same_core o (set_unwrap m o).
Proof. done. Qed.

Lemma auto_hook_spec t :
  wf t → NoDup (locs t) →
  ∀ fuel h, budget t ≤ fuel → repr h t →
  wp (auto_hook fuel (root t)) h (wrap_post h t).
Proof.
  remember (height t) as N eqn:HN. revert t HN.
  induction (lt_wf N) as [N _ IH]. intros [l a kids] HN Hwf Hnd fuel h Hfuel Hr.
  unfold budget in Hfuel. rewrite height_node in Hfuel, HN.
  destruct fuel as [|f]; [lia|]. cbn [auto_hook root].
  pose proof Hr as [Hl Hkids]%repr_inv.
  pose proof Hwf as (Hkeys & Hhook & Hwfk)%wf_inv.
  pose proof Hnd as [Hl_nin Hndk]%NoDup_cons. fold (kids_locs kids) in Hl_nin, Hndk.
  assert (∀ x, x ∈ locs (Node l a kids) → x < List.length h) as Hlt
      by (intros; by eapply repr_locs_lt).
  set (n := List.length h). set (o := Obj a (kid_ref <$> kids)).
  set (t := Node l a kids).
  assert (hasattr o "hook_point" = has_hp t) as Hhas by done.
  apply wp_bind. eapply wp_HookedInstance_init; [done|]. fold n o.
  set (h3 := h ++ _).
  assert (List.length h3 = if has_hp t then S n else S (S n)) as Hlen3.
  { unfold h3. rewrite length_app, Hhas. fold n. destruct (has_hp t); simpl; lia. }
  assert (∀ x, x < n → h3 !! x = h !! x) as Hh3 by (intros; unfold h3; by rewrite lookup_app_l).
  assert (h3 !! n = Some (wrapper_obj n l o)) as Hn3 by (unfold h3; by apply list_lookup_middle).
  assert (has_hp t = false → h3 !! S n = Some (fresh_obj HookPoint)) as Hhp3.
  { intros Hb. unfold h3. rewrite Hhas, Hb.
    rewrite (lookup_app_r h) by (fold n; lia). fold n.
    by replace (S n - n) with 1 by lia. }
  (* _wrap_submodules *)
  apply wp_bind. unfold _wrap_submodules. apply wp_bind.
  eapply wp_deref; [rewrite Hh3; [done|by apply Hlt, (root_in_locs (Node l a kids))]|].
  unfold named_children. cbn [o_modules].
  rewrite named_children_from_some; [|by apply NoDup_kid_roots|by intros ?? ?%elem_of_nil].
  eapply wp_mono.
  { eapply (wrap_kids_spec (auto_hook f) N) with (pre := []) (a := a).
    - intros e He Hwfe Hnde h' Hre. eapply IH; [done|done|done|done| |done].
      unfold budget. lia.
    - lia.
    - intros k c Hin. destruct (Hwfk k c Hin) as [? ?]. split; [done|]. split; [|done].
      eapply repr_frame; [by eapply Hkids|]. intros x Hx. apply Hh3.
      apply Hlt, locs_kids. by eapply kids_locs_elem.
    - done.
    - done.
    - rewrite Hh3; [done|by apply Hlt, (root_in_locs (Node l a kids))].
    - done. }
  intros [] h4 (ms & Hl4 & Hwk & Hfr4). cbn [app] in Hl4.
  pose proof (wrapped_kids_range _ _ _ _ _ Hwk) as Hr4. rewrite Hlen3 in Hr4, Hwk.
  assert (l < n) as Hl_lt by (by apply Hlt, (root_in_locs (Node l a kids))).
  assert (∀ x, x ∈ kids_locs kids → x < n) as Hk_lt by (intros; by apply Hlt, locs_kids).
  assert (n < List.length h3) as Hn_lt by (rewrite Hlen3; destruct (has_hp t); lia).
  assert (wrapped h4 n (List.length h4) t) as Hw4.
  { eapply (wrapped_node h4 n _ l a a kids (wrapper_obj n l o) ms); try done.
    - rewrite Hfr4; [done|done| |lia]. intros Hin. specialize (Hk_lt _ Hin). lia.
    - intros Hb. fold t in Hb. exists (fresh_obj HookPoint). split; [|done].
      rewrite Hfr4; [by apply Hhp3| | |lia].
      + rewrite Hlen3, Hb. lia.
      + intros Hin. specialize (Hk_lt _ Hin). lia.
    - apply renamed_hook_refl. }
  (* setup *)
  apply wp_bind. eapply wp_mono.
  { eapply (setup_spec h4 n (List.length h4) t f); [done| |done| |done].
    - intros x Hx. by apply Hlt.
    - unfold t. rewrite height_node. lia. }
  intros [] h5 (Hlen5 & Hw5 & Hfr5 & Hroot5 & Hhooks5).
  apply wp_ret.
  destruct (Hroot5 (wrapper_obj n l o)) as (o5 & Hn5 & Hcore5 & Hun5).
  { rewrite Hfr4; [done|done| |lia]. intros Hin. specialize (Hk_lt _ Hin). lia. }
  apply wp_bind. eapply wp_update; [done|]. apply wp_ret.
  assert (n < List.length h5) as Hn5_lt by (by eapply lookup_lt_heap).
  split; [done|]. fold n. rewrite length_insert. split; [|split; [|split]].
  - rewrite Hlen5. eapply (proj1 (wrapped_stable_mut h5)); [done| |].
    + intros x ox Hx Hox. destruct (decide (x = n)) as [->|Hne].
      * rewrite list_lookup_insert_eq by done. eexists. split; [done|].
        assert (ox = o5) as -> by congruence. apply same_core_set_unwrap.
      * rewrite list_lookup_insert_ne by done. exists ox. done.
    + intros x ox Hx Hox. specialize (Hlt _ Hx). fold n in Hlt.
      rewrite list_lookup_insert_ne by lia. exists (o_attrs ox).
      split; [by destruct ox|apply renamed_hook_refl].
  - intros x Hx Hnin. rewrite list_lookup_insert_ne by lia.
    rewrite Hfr5; [|done|lia]. rewrite Hfr4; [by apply Hh3|lia| |].
    + intros ?. by apply Hnin, locs_kids.
    + intros ->. apply Hnin, (root_in_locs (Node l a kids)).
  - eexists. rewrite list_lookup_insert_eq by done. split; [done|]. done.
  - intros s. rewrite <- Hhooks5. unfold hook_names, list_all_hooks.
    rewrite list_lookup_insert_eq by done. by rewrite Hn5.
Qed.

(** ** What the wrapped store says about each module *)

Lemma wrapped_is_wrapper h n n' t : wrapped h n n' t → is_wrapper_of h n (root t).
Proof.
  inversion 1 as [? ? l a a' kids oH ms HH Hcls Hpar Hfw Hms Hhp Hren Hl Hk]; subst.
  exists oH. split; [done|]. split; [done|]. rewrite Hms. cbn [dict_get root].
  by rewrite decide_True.
Qed.

Lemma wrapped_elems_image h n n' i c ms es :
  wrapped_elems h n n' i c ms es →
  (is_ordered c = false → ms.*1 = es.*1) ∧
  Forall2 (λ m e, ∃ w e0, m.2 = Some w ∧ e.2 = Some e0 ∧ is_wrapper_of h w (root e0)) ms es.
Proof.
  induction 1 as [|n n1 n' i c k e ms es Hw He [IH1 IH2]]; [by split|]. split.
  - intros Hord. cbn [fmap list_fmap fst]. rewrite Hord. f_equal. by apply IH1.
  - constructor; [|done]. exists n, e. split; [done|]. split; [done|].
    by eapply wrapped_is_wrapper.
Qed.

Lemma wrapped_kids_image h n n' ms kids :
  wrapped_kids h n n' ms kids → Forall2 (kid_image h n) ms kids.
Proof.
  induction 1 as [n|n n' k ms kids Hk IH|n n' k c a' ms kids Hc Hren Hl Hk IH
                 |n n1 n' k c oc ms kids Hc Hl Hcls He Hk IH
                 |n n1 n' k c ms kids Hc1 Hc2 Hw Hk IH].
  - constructor.
  - constructor; [by split|done].
  - constructor; [|done]. split; [done|]. cbn [snd]. by rewrite Hc.
  - pose proof (wrapped_elems_range _ _ _ _ _ _ _ He).
    constructor.
    + split; [done|]. cbn [snd].
      assert (∃ v, Some n = Some v ∧ n ≤ v ∧ container_image h v c) as Himg.
      { exists n. split; [done|]. split; [done|]. exists oc. split; [done|]. split; [done|].
        by apply wrapped_elems_image in He. }
      destruct (t_cls c); try done.
    + eapply Forall2_impl; [done|]. intros [k1 v1] [k2 c2] [? Hm]. split; [done|].
      cbn [snd] in *. destruct c2 as [c2|]; [|done].
      destruct (t_cls c2); try done; destruct Hm as (v & ? & ? & ?); exists v;
        (split; [done|]); (split; [lia|done]).
  - pose proof (wrapped_range _ _ _ _ Hw).
    constructor.
    + split; [done|]. cbn [snd].
      assert (∃ v, Some n = Some v ∧ n ≤ v ∧ is_wrapper_of h v (root c)) as Himg.
      { exists n. split; [done|]. split; [done|]. by eapply wrapped_is_wrapper. }
      destruct (t_cls c); try done.
    + eapply Forall2_impl; [done|]. intros [k1 v1] [k2 c2] [? Hm]. split; [done|].
      cbn [snd] in *. destruct c2 as [c2|]; [|done].
      destruct (t_cls c2); try done; destruct Hm as (v & ? & ? & ?); exists v;
        (split; [done|]); (split; [lia|done]).
Qed.

Lemma wrapped_kids_unit_in h n n' ms kids k c :
  wrapped_kids h n n' ms kids → (k, Some c) ∈ kids →
  t_cls c ≠ HookPoint → is_container (t_cls c) = false →
  ∃ n1 n2, n ≤ n1 ∧ n2 ≤ n' ∧ wrapped h n1 n2 c.
Proof.
  induction 1 as [n|n n' k0 ms kids Hk IH|n n' k0 c0 a' ms kids Hc Hren Hl Hk IH
                 |n n1 n' k0 c0 oc ms kids Hc Hl Hcls He Hk IH
                 |n n1 n' k0 c0 ms kids Hc1 Hc2 Hw Hk IH]; intros Hin Hn1 Hn2.
  - by apply elem_of_nil in Hin.
  - apply elem_of_cons in Hin as [?|Hin]; [simplify_eq|]. by apply IH.
  - apply elem_of_cons in Hin as [?|Hin]; [simplify_eq|]. by apply IH.
  - pose proof (wrapped_elems_range _ _ _ _ _ _ _ He).
    apply elem_of_cons in Hin as [?|Hin]; [simplify_eq; congruence|].
    destruct (IH Hin Hn1 Hn2) as (m1 & m2 & ? & ? & ?). exists m1, m2. split; [lia|done].
  - pose proof (wrapped_range _ _ _ _ Hw). pose proof (wrapped_kids_range _ _ _ _ _ Hk).
    apply elem_of_cons in Hin as [?|Hin].
    + simplify_eq. exists n, n1. split; [lia|]. split; [lia|done].
    + destruct (IH Hin Hn1 Hn2) as (m1 & m2 & ? & ? & ?). exists m1, m2. split; [lia|done].
Qed.

Lemma wrapped_elems_in h n n' i c ms es ke e :
  wrapped_elems h n n' i c ms es → (ke, Some e) ∈ es →
  ∃ n1 n2, n ≤ n1 ∧ n2 ≤ n' ∧ wrapped h n1 n2 e.
Proof.
  induction 1 as [|n n1 n' i c k e0 ms es Hw He IH]; intros Hin.
  - by apply elem_of_nil in Hin.
  - pose proof (wrapped_range _ _ _ _ Hw). pose proof (wrapped_elems_range _ _ _ _ _ _ _ He).
    apply elem_of_cons in Hin as [?|Hin].
    + simplify_eq. exists n, n1. split; [lia|]. split; [lia|done].
    + destruct (IH Hin) as (m1 & m2 & ? & ? & ?). exists m1, m2. split; [lia|done].
Qed.

Lemma wrapped_kids_container_in h n n' ms kids k c ke e :
  wrapped_kids h n n' ms kids → (k, Some c) ∈ kids →
  is_container (t_cls c) = true → (ke, Some e) ∈ t_kids c →
  ∃ n1 n2, n ≤ n1 ∧ n2 ≤ n' ∧ wrapped h n1 n2 e.
Proof.
  induction 1 as [n|n n' k0 ms kids Hk IH|n n' k0 c0 a' ms kids Hc Hren Hl Hk IH
                 |n n1 n' k0 c0 oc ms kids Hc Hl Hcls He Hk IH
                 |n n1 n' k0 c0 ms kids Hc1 Hc2 Hw Hk IH]; intros Hin Hcont Hine.
  - by apply elem_of_nil in Hin.
  - apply elem_of_cons in Hin as [?|Hin]; [simplify_eq|]. by apply IH.
  - apply elem_of_cons in Hin as [?|Hin]; [|by apply IH].
    simplify_eq. rewrite Hc in Hcont. done.
  - pose proof (wrapped_elems_range _ _ _ _ _ _ _ He).
    pose proof (wrapped_kids_range _ _ _ _ _ Hk).
    apply elem_of_cons in Hin as [?|Hin].
    + simplify_eq. destruct (wrapped_elems_in _ _ _ _ _ _ _ _ _ He Hine) as (m1 & m2 & ? & ? & ?).
      exists m1, m2. split; [lia|]. split; [lia|done].
    + destruct (IH Hin Hcont Hine) as (m1 & m2 & ? & ? & ?). exists m1, m2. split; [lia|done].
  - pose proof (wrapped_range _ _ _ _ Hw). pose proof (wrapped_kids_range _ _ _ _ _ Hk).
    apply elem_of_cons in Hin as [?|Hin]; [simplify_eq; congruence|].
    destruct (IH Hin Hcont Hine) as (m1 & m2 & ? & ? & ?). exists m1, m2. split; [lia|done].
Qed.

Lemma wrapped_unit_of h t u :
  unit_of t u → ∀ n n', wrapped h n n' t → ∃ n1 n2, n ≤ n1 ∧ n2 ≤ n' ∧ wrapped h n1 n2 u.
Proof.
  induction 1 as [t|t k c u Hin Hc1 Hc2 Hu IH|t k c ke e u Hin Hc Hine Hu IH]; intros n n' Hw.
  - exists n, n'. done.
  - inversion Hw as [? ? l a a' kids oH ms HH Hcls Hpar Hfw Hms Hhp Hren Hl Hk]; subst.
    pose proof (wrapped_kids_range _ _ _ _ _ Hk).
    destruct (wrapped_kids_unit_in _ _ _ _ _ _ _ Hk Hin Hc1 Hc2) as (m1 & m2 & ? & ? & Hwc).
    destruct (IH _ _ Hwc) as (p1 & p2 & ? & ? & ?). exists p1, p2.
    split; [destruct (has_hp (Node l a kids)); lia|]. split; [lia|done].
  - inversion Hw as [? ? l a a' kids oH ms HH Hcls Hpar Hfw Hms Hhp Hren Hl Hk]; subst.
    pose proof (wrapped_kids_range _ _ _ _ _ Hk).
    destruct (wrapped_kids_container_in _ _ _ _ _ _ _ _ _ Hk Hin Hc Hine) as (m1 & m2 & ? & ? & Hwc).
    destruct (IH _ _ Hwc) as (p1 & p2 & ? & ? & ?). exists p1, p2.
    split; [destruct (has_hp (Node l a kids)); lia|]. split; [lia|done].
Qed.

(** after wrapping, every module of [t] that received a wrapper holds, name
    by name and in the same order, the images of its children *)
Lemma wrapped_children h n n' t u :
  wrapped h n n' t → unit_of t u →
  ∃ a' ms, h !! root u = Some (Obj a' ms) ∧ renamed_hook (t_attrs u) a' ∧
           Forall2 (kid_image h n) ms (t_kids u).
Proof.
  intros Hw Hu. destruct (wrapped_unit_of _ _ _ Hu _ _ Hw) as (n1 & n2 & Hn1 & Hn2 & Hwu).
  inversion Hwu as [? ? l a a' kids oH ms HH Hcls Hpar Hfw Hms Hhp Hren Hl Hk]; subst.
  exists a', ms. split; [done|]. split; [done|]. cbn [t_kids].
  apply wrapped_kids_image in Hk. eapply Forall2_impl; [done|].
  intros [k1 v1] [k2 c2] [? Hm]. split; [done|].
  cbn [snd] in *. destruct c2 as [c2|]; [|done].
  destruct (t_cls c2); try done; destruct Hm as (v & ? & ? & ?); exists v;
    (split; [done|]); (split; [destruct (has_hp (Node l a kids)); lia|done]).
Qed.

(** ** Hook names are not empty *)

Lemma join_nonempty p k : k ≠ "" → join p k ≠ "".
Proof.
  intros Hk. unfold join. destruct (decide (p = "")) as [->|Hp]; [done|].
  destruct p; [done|]. done.
Qed.

Lemma elems_hooks_nonempty c prefix es :
  (∀ k e p, (k, Some e) ∈ es → "" ∉ hooks_of p e) →
  ∀ i, "" ∉ elems_hooks c prefix i es.
Proof.
  induction es as [|[ke [e|]] es IHe]; intros He i; cbn [elems_hooks].
  - by intros ?%elem_of_nil.
  - intros [Hin|Hin]%elem_of_app.
    + eapply He; [|done]. apply elem_of_cons. by left.
    + eapply IHe; [|done]. intros k' e' p' ?. apply (He k'). apply elem_of_cons. by right.
  - apply IHe. intros k' e' p' ?. apply (He k'). apply elem_of_cons. by right.
Qed.

Lemma kids_hooks_nonempty prefix kids :
  (∀ k c, (k, c) ∈ kids → k ≠ "") →
  (∀ k c p, (k, Some c) ∈ kids →
            ("" ∉ hooks_of p c) ∧ ∀ i, "" ∉ elems_hooks (t_cls c) p i (t_kids c)) →
  "" ∉ kids_hooks prefix kids.
Proof.
  induction kids as [|[k [c|]] kids IHk]; intros Hne Hk; cbn [kids_hooks].
  - by intros ?%elem_of_nil.
  - intros [Hin|Hin]%elem_of_app.
    + assert (k ≠ "") as Hk' by (eapply Hne; apply elem_of_cons; by left).
      destruct (Hk k c (join prefix k)) as [H1 H2]; [apply elem_of_cons; by left|].
      unfold kid_hooks in Hin. destruct (t_cls c); try done; try (by eapply H2).
      apply list_elem_of_singleton in Hin. symmetry in Hin. by apply join_nonempty in Hin.
    + eapply IHk; [| |done].
      * intros k' c' ?. apply (Hne k' c'). apply elem_of_cons. by right.
      * intros k' c' p' ?. apply (Hk k'). apply elem_of_cons. by right.
  - apply IHk.
    + intros k' c' ?. apply (Hne k' c'). apply elem_of_cons. by right.
    + intros k' c' p' ?. apply (Hk k'). apply elem_of_cons. by right.
Qed.

Lemma hooks_of_nonempty t : wf t → ∀ prefix, "" ∉ hooks_of prefix t.
Proof.
  remember (height t) as N eqn:HN. revert t HN.
  induction (lt_wf N) as [N _ IH]. intros [l a kids] HN Hwf prefix.
  rewrite hooks_of_node, elem_of_app. intros [Hin|Hin].
  - pose proof Hwf as (_ & _ & Hwfk)%wf_inv. rewrite height_node in HN.
    eapply kids_hooks_nonempty; [| |done].
    + intros; by eapply wf_keys_nonempty.
    + intros k c p Hc. pose proof (kheight_elem _ _ _ Hc).
      destruct (Hwfk k c Hc) as [Hwfc _]. split.
      * eapply (IH (height c)); [lia|done|done].
      * intros i. apply elems_hooks_nonempty. intros ke e p' He.
        destruct c as [lc ac es]. cbn [t_kids] in He. rewrite height_node in H.
        pose proof (kheight_elem _ _ _ He).
        pose proof Hwfc as (_ & _ & Hwfe)%wf_inv. destruct (Hwfe ke e He) as [? _].
        eapply (IH (height e)); [lia|done|done].
  - destruct (has_hp (Node l a kids)); [by apply elem_of_nil in Hin|].
    apply list_elem_of_singleton in Hin. symmetry in Hin. by apply join_nonempty in Hin.
Qed.

(** ** Wrapping a tree: the results *)

Lemma auto_hook_tree t fuel h :
  tree t → repr h t → budget t ≤ fuel →
  ∃ h', auto_hook fuel (root t) h = Ok (List.length h, h') ∧ wrap_post h t (List.length h) h'.
Proof.
  intros [Hwf Hnd] Hr Hf.
  destruct (wp_elim _ _ _ (auto_hook_spec t Hwf Hnd fuel h Hf Hr)) as (H & h' & Hrun & Hpost).
  pose proof Hpost as [-> _]. by exists h'.
Qed.

Lemma tree_elem l a kids k c ke e :
  tree (Node l a kids) → (k, Some c) ∈ kids → (ke, Some e) ∈ t_kids c → tree e.
Proof.
  intros Ht Hin Hine. pose proof (tree_kid _ _ _ _ _ Ht Hin) as Htc.
  destruct c as [lc ac es]. by eapply tree_kid.
Qed.

Lemma tree_unit_of t u : unit_of t u → tree t → tree u.
Proof.
  induction 1 as [t|t k c u Hin Hc1 Hc2 Hu IH|t k c ke e u Hin Hc Hine Hu IH]; intros Ht.
  - done.
  - apply IH. destruct t. by eapply tree_kid.
  - apply IH. destruct t. by eapply tree_elem.
Qed.

Lemma Forall2_dict_get {A} (R : string * option loc → string * A → Prop) ms kids k kid :
  (∀ m x, R m x → m.1 = x.1) →
  Forall2 R ms kids → NoDup kids.*1 → (k, kid) ∈ kids →
  ∃ v, dict_get k ms = Some v ∧ R (k, v) (k, kid).
Proof.
  intros HR. induction 1 as [|[k1 v1] [k2 x2] ms kids Hhd Htl IH]; intros Hnd Hin.
  - by apply elem_of_nil in Hin.
  - pose proof (HR _ _ Hhd) as Hk. cbn in Hk. subst k2.
    cbn [fmap list_fmap fst] in Hnd. apply NoDup_cons in Hnd as [Hk1 Hnd].
    apply elem_of_cons in Hin as [Heq|Hin].
    + simplify_eq. exists v1. cbn [dict_get]. by rewrite decide_True.
    + cbn [dict_get]. rewrite decide_False.
      * by apply IH.
      * intros ->. apply Hk1. apply list_elem_of_fmap. by exists (k1, kid).
Qed.

Lemma Forall2_keys {A} (R : string * option loc → string * A → Prop) ms kids :
  (∀ m x, R m x → m.1 = x.1) → Forall2 R ms kids → ms.*1 = kids.*1.
Proof.
  intros HR. induction 1 as [|m x ms kids Hhd Htl IH]; [done|].
  cbn [fmap list_fmap]. f_equal; [by apply HR|done].
Qed.

(** ** Unwrapping a wrapped tree *)

Lemma restored_root n n' t t' : restored n n' t t' → root t' = root t.
Proof. by inversion 1. Qed.

Lemma restored_cls n n' t t' : restored n n' t t' → t_cls t' = t_cls t.
Proof. inversion 1; subst. unfold t_cls. cbn [t_attrs]. by apply renamed_hook_cls. Qed.

Lemma restored_range_mut :
  (∀ n n' t t', restored n n' t t' → n ≤ n') ∧
  (∀ n n' kids kids', restored_kids n n' kids kids' → n ≤ n') ∧
  (∀ n n' i c es es', restored_elems n n' i c es es' → n ≤ n').
Proof. apply restored_mutind; intros; lia. Qed.

Lemma restored_range n n' t t' : restored n n' t t' → n ≤ n'.
Proof. apply restored_range_mut. Qed.
Lemma restored_kids_range n n' kids kids' : restored_kids n n' kids kids' → n ≤ n'.
Proof. apply restored_range_mut. Qed.
Lemma restored_elems_range n n' i c es es' : restored_elems n n' i c es es' → n ≤ n'.
Proof. apply restored_range_mut. Qed.

(** the objects of the restored tree: those of [t], and new containers *)
Lemma restored_locs_mut :
  (∀ n n' t t', restored n n' t t' →
     ∀ x, x ∈ locs t' → x ∈ locs t ∨ n ≤ x < n') ∧
  (∀ n n' kids kids', restored_kids n n' kids kids' →
     ∀ x, x ∈ kids_locs kids' → x ∈ kids_locs kids ∨ n ≤ x < n') ∧
  (∀ n n' i c es es', restored_elems n n' i c es es' →
     ∀ x, x ∈ kids_locs es' → x ∈ kids_locs es ∨ n ≤ x < n').
Proof.
  apply restored_mutind.
  - intros n n' l a a' kids kids' Hren Hk IH x Hx. rewrite locs_node in Hx |- *.
    apply elem_of_cons in Hx as [->|Hx]; [left; apply elem_of_cons; by left|].
    destruct (IH _ Hx); [left; apply elem_of_cons; by right|by right].
  - intros n x Hx. by left.
  - intros n n' k kids kids' Hk IH x Hx. rewrite kids_locs_cons in Hx |- *. by apply IH.
  - intros n n1 n' k c es' kids kids' Hc He IHe Hk IHk x Hx.
    pose proof (restored_elems_range _ _ _ _ _ _ He).
    pose proof (restored_kids_range _ _ _ _ Hk).
    rewrite kids_locs_cons in Hx |- *. apply elem_of_app in Hx as [Hx|Hx].
    + rewrite locs_node in Hx. apply elem_of_cons in Hx as [->|Hx]; [right; lia|].
      destruct (IHe _ Hx) as [?|?]; [|right; lia].
      left. apply elem_of_app. left. by apply locs_kids'.
    + destruct (IHk _ Hx) as [?|?]; [|right; lia]. left. apply elem_of_app. by right.
  - intros n n1 n' k c c' kids kids' Hc Hr IHr Hk IHk x Hx.
    pose proof (restored_range _ _ _ _ Hr).
    pose proof (restored_kids_range _ _ _ _ Hk).
    rewrite kids_locs_cons in Hx |- *. apply elem_of_app in Hx as [Hx|Hx].
    + destruct (IHr _ Hx) as [?|?]; [|right; lia]. left. apply elem_of_app. by left.
    + destruct (IHk _ Hx) as [?|?]; [|right; lia]. left. apply elem_of_app. by right.
  - intros n i c x Hx. by left.
  - intros n n1 n' i c k e e' es es' Hr IHr He IHe x Hx.
    pose proof (restored_range _ _ _ _ Hr).
    pose proof (restored_elems_range _ _ _ _ _ _ He).
    rewrite kids_locs_cons in Hx |- *. apply elem_of_app in Hx as [Hx|Hx].
    + destruct (IHr _ Hx) as [?|?]; [|right; lia]. left. apply elem_of_app. by left.
    + destruct (IHe _ Hx) as [?|?]; [|right; lia]. left. apply elem_of_app. by right.
Qed.

Lemma restored_locs n n' t t' x :
  restored n n' t t' → x ∈ locs t' → x ∈ locs t ∨ n ≤ x < n'.
Proof. intros H. by apply (proj1 restored_locs_mut _ _ _ _ H). Qed.

Lemma restored_elems_locs n n' i c es es' x :
  restored_elems n n' i c es es' → x ∈ kids_locs es' → x ∈ kids_locs es ∨ n ≤ x < n'.
Proof. intros H. by apply (proj2 (proj2 restored_locs_mut) _ _ _ _ _ _ H). Qed.

Lemma restored_kids_app n n1 n' kids1 kids1' kids2 kids2' :
  restored_kids n n1 kids1 kids1' → restored_kids n1 n' kids2 kids2' →
  restored_kids n n' (kids1 ++ kids2) (kids1' ++ kids2').
Proof.
  induction 1; intros H2; cbn [app].
  - done.
  - constructor. auto.
  - eapply restored_kids_container; eauto.
  - eapply restored_kids_unit; eauto.
Qed.

(** The loops of [unwrap_instance], given what the recursive calls do on
    the wrappers of smaller trees. *)
Section unwrap_loops.
Variable rec : loc → M loc.
Variable N : nat.
Hypothesis IHrec : ∀ e, height e < N → wf e → NoDup (locs e) →
  ∀ h n n', (∀ x, x ∈ locs e → x < n) → n' ≤ List.length h → wrapped h n n' e →
  wp (rec n) h (unwrap_post h e).

Lemma unwrap_elem_spec e h n n1 :
  height e < N → wf e → NoDup (locs e) →
  (∀ x, x ∈ locs e → x < n) → n1 ≤ List.length h → wrapped h n n1 e →
  wp (unwrap_elem rec (Some n)) h (λ u h1,
    u = Some (root e) ∧
    (∃ e', restored (List.length h) (List.length h1) e e' ∧ repr h1 e') ∧
    (∀ x, x < List.length h → x ∉ locs e → h1 !! x = h !! x)).
Proof.
  intros HN Hwf Hnd Hlt Hn1 Hw.
  destruct (wrapped_is_wrapper _ _ _ _ Hw) as (ow & How & Hcls & _).
  unfold unwrap_elem. apply wp_bind. eapply wp_deref; [done|]. rewrite Hcls.
  apply wp_bind. eapply wp_mono; [by apply (IHrec e HN Hwf Hnd h n n1)|].
  intros r h1 (-> & Hres & Hfr). by apply wp_ret.
Qed.

Lemma repr_after (h h1 h2 : heap) n0 e e' :
  restored (List.length h) (List.length h1) e e' → repr h1 e' →
  (∀ x, x ∈ locs e → x < n0) → n0 ≤ List.length h →
  (∀ x, x ∈ locs e ∨ List.length h ≤ x < List.length h1 → h2 !! x = h1 !! x) →
  repr h2 e'.
Proof.
  intros Hres Hr Hlt Hn0 Hag. eapply repr_frame; [done|]. intros x Hx.
  apply Hag. destruct (restored_locs _ _ _ _ _ Hres Hx); [by left|by right].
Qed.

Lemma unwrap_ordered_spec c cl a_c : ∀ es ms cur h n n' i,
  is_ordered c = true →
  kheight es < N →
  (∀ k e, (k, Some e) ∈ es → wf e) →
  NoDup (kids_locs es) →
  (∀ x, x ∈ kids_locs es → x < n) →
  n' ≤ cl →
  wrapped_elems h n n' i c ms es →
  h !! cl = Some (Obj a_c cur) →
  cur.*1 = pretty <$> seq 0 (List.length cur) →
  wp (unwrap_ordered rec cl ms) h (λ _ h',
    ∃ es', h' !! cl = Some (Obj a_c (cur ++ (kid_ref <$> es'))) ∧
           restored_elems (List.length h) (List.length h') (List.length cur) c es es' ∧
           Forall (λ k, ∀ e, k.2 = Some e → repr h' e) es' ∧
           (∀ x, x < List.length h → x ∉ kids_locs es → x ≠ cl → h' !! x = h !! x)).
Proof.
  intros es. induction es as [|[k oe] es IH];
    intros ms cur h n n' i Hord HN Hwf Hnd Hlt Hcl_ge Hwe Hcl Hcur.
  - inversion Hwe; subst. apply wp_ret. exists []. rewrite app_nil_r.
    split; [done|]. split; [constructor|]. split; [constructor|done].
  - inversion Hwe as [|? n1 ? ? ? ? e ms' ? Hw Hwe']; subst.
    rewrite kheight_cons_some in HN.
    pose proof Hnd as (Hnde & Hndes & Hdis)%NoDup_kids_locs_cons.
    pose proof (wrapped_range _ _ _ _ Hw) as Hr1.
    pose proof (wrapped_elems_range _ _ _ _ _ _ _ Hwe') as Hr2.
    assert (cl < List.length h) as Hcl_lt by (by eapply lookup_lt_heap).
    assert (∀ x, x ∈ locs e → x < n) as Hlte by (intros; by apply Hlt, kids_locs_here).
    assert (∀ x, x ∈ kids_locs es → x < n) as Hltes by (intros; by apply Hlt, kids_locs_later).
    unfold unwrap_ordered. cbn [for_each]. apply wp_bind. apply wp_bind.
    eapply wp_mono.
    { apply (unwrap_elem_spec e h n n1); try done; [lia|by eapply Hwf, elem_of_cons; left|lia]. }
    intros u h1 (-> & (e' & Hres & Hre') & Hfr1).
    pose proof (restored_range _ _ _ _ Hres) as Hlen1.
    assert (h1 !! cl = Some (Obj a_c cur)) as Hcl1.
    { rewrite Hfr1; [done|done|]. intros Hin. specialize (Hlte _ Hin). lia. }
    apply wp_bind. eapply wp_deref; [done|].
    eapply wp_add_module; [done|]. cbn [o_modules set_modules o_attrs].
    rewrite dict_set_fresh by (rewrite Hcur; apply pretty_not_in_seq).
    set (h2 := <[cl := _]> h1).
    assert (List.length h2 = List.length h1) as Hlen2 by apply length_insert.
    fold (unwrap_ordered rec cl ms').
    eapply wp_mono;
      [apply (IH ms' (cur ++ [(pretty (List.length cur), Some (root e))]) h2 n1 n' (S i))|].
    + done.
    + lia.
    + intros k' e0 Hin. eapply Hwf, elem_of_cons. by right.
    + done.
    + intros x Hx. specialize (Hltes _ Hx). lia.
    + done.
    + eapply wrapped_elems_frame; [done|]. intros x Hx. unfold h2.
      rewrite list_lookup_insert_ne.
      2:{ destruct Hx as [Hx|Hx]; [specialize (Hltes _ Hx)|]; lia. }
      apply Hfr1.
      * destruct Hx as [Hx|Hx]; [specialize (Hltes _ Hx)|]; lia.
      * destruct Hx as [Hx|Hx]; [intros ?; by eapply Hdis|].
        intros Hin. specialize (Hlte _ Hin). lia.
    + unfold h2. by rewrite list_lookup_insert_eq by lia.
    + rewrite fmap_app, length_app, Hcur. cbn [fmap list_fmap List.length fst].
      rewrite Nat.add_1_r, seq_S, fmap_app. done.
    + intros [] h3 (es' & Hcl3 & Hre3 & Hrepr3 & Hfr3).
      rewrite Hlen2 in Hre3. rewrite length_app, Nat.add_1_r in Hre3.
      cbn [List.length] in Hre3.
      pose proof (restored_elems_range _ _ _ _ _ _ Hre3) as Hlen3.
      exists ((pretty (List.length cur), Some e') :: es').
      split; [|split; [|split]].
      * rewrite kid_ref_cons_some, (restored_root _ _ _ _ Hres).
        by rewrite <- app_assoc in Hcl3.
      * replace (pretty (List.length cur))
          with (if is_ordered c then pretty (List.length cur) else k) by (by rewrite Hord).
        by econstructor.
      * constructor; [|done]. intros e0 He0. cbn [snd] in He0. simplify_eq.
        eapply (repr_after h h1 h3 n); [done|done|done|lia|].
        intros x Hx. rewrite Hfr3.
        -- unfold h2. rewrite list_lookup_insert_ne; [done|].
           destruct Hx as [Hx|Hx]; [specialize (Hlte _ Hx)|]; lia.
        -- rewrite Hlen2. destruct Hx as [Hx|Hx]; [specialize (Hlte _ Hx)|]; lia.
        -- destruct Hx as [Hx|Hx]; [by apply Hdis|].
           intros Hin. specialize (Hltes _ Hin). lia.
        -- destruct Hx as [Hx|Hx]; [specialize (Hlte _ Hx)|]; lia.
      * intros x Hx Hnin Hne. rewrite Hfr3.
        -- unfold h2. rewrite list_lookup_insert_ne by done. apply Hfr1; [done|].
           intros ?. apply Hnin. by apply kids_locs_here.
        -- lia.
        -- intros ?. apply Hnin. by apply kids_locs_later.
        -- done.
Qed.

Lemma unwrap_keyed_spec c cl a_c : ∀ es ms cur h n n' i,
  is_ordered c = false →
  kheight es < N →
  (∀ k e, (k, Some e) ∈ es → wf e) →
  NoDup (kids_locs es) →
  (∀ x, x ∈ kids_locs es → x < n) →
  n' ≤ cl →
  wrapped_elems h n n' i c ms es →
  h !! cl = Some (Obj a_c cur) →
  NoDup (cur.*1 ++ es.*1) →
  wp (unwrap_keyed rec cl ms) h (λ _ h',
    ∃ es', h' !! cl = Some (Obj a_c (cur ++ (kid_ref <$> es'))) ∧
           restored_elems (List.length h) (List.length h') i c es es' ∧
           Forall (λ k, ∀ e, k.2 = Some e → repr h' e) es' ∧
           (∀ x, x < List.length h → x ∉ kids_locs es → x ≠ cl → h' !! x = h !! x)).
Proof.
  intros es. induction es as [|[k oe] es IH];
    intros ms cur h n n' i Hord HN Hwf Hnd Hlt Hcl_ge Hwe Hcl Hcur.
  - inversion Hwe; subst. apply wp_ret. exists []. rewrite app_nil_r.
    split; [done|]. split; [constructor|]. split; [constructor|done].
  - inversion Hwe as [|? n1 ? ? ? ? e ms' ? Hw Hwe']; subst.
    rewrite kheight_cons_some in HN. rewrite Hord.
    pose proof Hnd as (Hnde & Hndes & Hdis)%NoDup_kids_locs_cons.
    pose proof (wrapped_range _ _ _ _ Hw) as Hr1.
    pose proof (wrapped_elems_range _ _ _ _ _ _ _ Hwe') as Hr2.
    pose proof (NoDup_keys_step cur k (Some (root e)) _ _ Hcur) as [Hk Hcur'].
    assert (cl < List.length h) as Hcl_lt by (by eapply lookup_lt_heap).
    assert (∀ x, x ∈ locs e → x < n) as Hlte by (intros; by apply Hlt, kids_locs_here).
    assert (∀ x, x ∈ kids_locs es → x < n) as Hltes by (intros; by apply Hlt, kids_locs_later).
    unfold unwrap_keyed. cbn [for_each]. apply wp_bind. apply wp_bind.
    eapply wp_mono.
    { apply (unwrap_elem_spec e h n n1); try done; [lia|by eapply Hwf, elem_of_cons; left|lia]. }
    intros u h1 (-> & (e' & Hres & Hre') & Hfr1).
    pose proof (restored_range _ _ _ _ Hres) as Hlen1.
    assert (h1 !! cl = Some (Obj a_c cur)) as Hcl1.
    { rewrite Hfr1; [done|done|]. intros Hin. specialize (Hlte _ Hin). lia. }
    eapply wp_add_module; [done|]. cbn [o_modules set_modules o_attrs].
    rewrite dict_set_fresh by done.
    set (h2 := <[cl := _]> h1).
    assert (List.length h2 = List.length h1) as Hlen2 by apply length_insert.
    fold (unwrap_keyed rec cl ms').
    eapply wp_mono; [apply (IH ms' (cur ++ [(k, Some (root e))]) h2 n1 n' (S i))|].
    + done.
    + lia.
    + intros k' e0 Hin. eapply Hwf, elem_of_cons. by right.
    + done.
    + intros x Hx. specialize (Hltes _ Hx). lia.
    + done.
    + eapply wrapped_elems_frame; [done|]. intros x Hx. unfold h2.
      rewrite list_lookup_insert_ne.
      2:{ destruct Hx as [Hx|Hx]; [specialize (Hltes _ Hx)|]; lia. }
      apply Hfr1.
      * destruct Hx as [Hx|Hx]; [specialize (Hltes _ Hx)|]; lia.
      * destruct Hx as [Hx|Hx]; [intros ?; by eapply Hdis|].
        intros Hin. specialize (Hlte _ Hin). lia.
    + unfold h2. by rewrite list_lookup_insert_eq by lia.
    + done.
    + intros [] h3 (es' & Hcl3 & Hre3 & Hrepr3 & Hfr3). rewrite Hlen2 in Hre3.
      pose proof (restored_elems_range _ _ _ _ _ _ Hre3) as Hlen3.
      exists ((k, Some e') :: es').
      split; [|split; [|split]].
      * rewrite kid_ref_cons_some, (restored_root _ _ _ _ Hres).
        by rewrite <- app_assoc in Hcl3.
      * replace k with (if is_ordered c then pretty i else k) at 2 by (by rewrite Hord).
        by econstructor.
      * constructor; [|done]. intros e0 He0. cbn [snd] in He0. simplify_eq.
        eapply (repr_after h h1 h3 n); [done|done|done|lia|].
        intros x Hx. rewrite Hfr3.
        -- unfold h2. rewrite list_lookup_insert_ne; [done|].
           destruct Hx as [Hx|Hx]; [specialize (Hlte _ Hx)|]; lia.
        -- rewrite Hlen2. destruct Hx as [Hx|Hx]; [specialize (Hlte _ Hx)|]; lia.
        -- destruct Hx as [Hx|Hx]; [by apply Hdis|].
           intros Hin. specialize (Hltes _ Hin). lia.
        -- destruct Hx as [Hx|Hx]; [specialize (Hlte _ Hx)|]; lia.
      * intros x Hx Hnin Hne. rewrite Hfr3.
        -- unfold h2. rewrite list_lookup_insert_ne by done. apply Hfr1; [done|].
           intros ?. apply Hnin. by apply kids_locs_here.
        -- lia.
        -- intros ?. apply Hnin. by apply kids_locs_later.
        -- done.
Qed.

Lemma unwrap_child_hook l a pre rest k c a' h :
  t_cls c = HookPoint → wf c →
  renamed_hook (t_attrs c) a' →
  h !! root c = Some (Obj a' []) →
  h !! l = Some (Obj a (pre ++ (k, Some (root c)) :: rest)) →
  wp (unwrap_child rec l (k, root c)) h (unwrap_child_post l a pre rest k c h).
Proof.
  intros Hc Hwf Hren Hlc Hl. destruct c as [lc ac es].
  apply wf_inv in Hwf as (_ & Hhook & _). unfold t_cls in Hc. cbn [t_attrs root] in *.
  rewrite (Hhook Hc) in *.
  unfold unwrap_child. apply wp_bind. eapply wp_deref; [done|].
  unfold o_cls. cbn [o_attrs]. rewrite (renamed_hook_cls _ _ Hren), Hc.
  apply wp_ret. exists (Node lc a' []). split; [done|]. split; [|split; [|done]].
  - eapply restored_kids_unit; [by unfold t_cls; cbn [t_attrs]; rewrite Hc| |constructor].
    constructor; [done|constructor].
  - by constructor.
Qed.

Lemma unwrap_child_unit l a pre rest k c h n n1 :
  height c < N → wf c → NoDup (locs c) →
  (∀ x, x ∈ locs c → x < n) → n1 ≤ List.length h →
  is_container (t_cls c) = false →
  wrapped h n n1 c →
  (k ∉ pre.*1) →
  h !! l = Some (Obj a (pre ++ (k, Some n) :: rest)) → l ∉ locs c → l < n →
  wp (unwrap_child rec l (k, n)) h (unwrap_child_post l a pre rest k c h).
Proof.
  intros HN Hwf Hnd Hlt Hn1 Hcont Hw Hk Hl Hl_nin Hl_lt.
  pose proof (wrapped_range _ _ _ _ Hw) as Hr.
  destruct (wrapped_is_wrapper _ _ _ _ Hw) as (ow & How & Hcls & _).
  unfold unwrap_child. apply wp_bind. eapply wp_deref; [done|]. rewrite Hcls.
  apply wp_bind. eapply wp_mono; [by apply (IHrec c HN Hwf Hnd h n n1)|].
  intros r h1 (-> & (c' & Hres & Hrc') & Hfr).
  pose proof (restored_range _ _ _ _ Hres) as Hlen1.
  assert (h1 !! l = Some (Obj a (pre ++ (k, Some n) :: rest))) as Hl1.
  { rewrite Hfr; [done|lia|done]. }
  eapply wp_setattr; [done|]. cbn [o_modules set_modules o_attrs].
  rewrite dict_set_app_here by done. exists c'.
  rewrite (restored_root _ _ _ _ Hres), length_insert.
  split; [by rewrite list_lookup_insert_eq by lia|]. split; [|split].
  - eapply restored_kids_unit; [done|done|constructor].
  - eapply (repr_after h h1 _ n); [done|done|done|lia|].
    intros x Hx. rewrite list_lookup_insert_ne; [done|].
    destruct Hx as [Hx|Hx]; [by intros ->|lia].
  - intros x Hx Hnin Hne. rewrite list_lookup_insert_ne by done. by apply Hfr.
Qed.

Lemma unwrap_child_container l a pre rest k c oc h n n1 :
  kheight (t_kids c) < N → wf c → NoDup (locs c) →
  (∀ x, x ∈ locs c → x < n) → n1 ≤ List.length h →
  is_container (t_cls c) = true →
  h !! n = Some oc → o_cls oc = t_cls c →
  wrapped_elems h (S n) n1 0 (t_cls c) (o_modules oc) (t_kids c) →
  (k ∉ pre.*1) →
  h !! l = Some (Obj a (pre ++ (k, Some n) :: rest)) → l ∉ locs c → l < n →
  wp (unwrap_child rec l (k, n)) h (unwrap_child_post l a pre rest k c h).
Proof.
  intros HN Hwf Hnd Hlt Hn1 Hcont Hn Hcls Hwe Hk Hl Hl_nin Hl_lt.
  destruct c as [lc ac es]. pose proof Hwf as (Hkeys & _ & Hwfes)%wf_inv.
  pose proof Hnd as Hndes. rewrite locs_node in Hndes. apply NoDup_cons in Hndes as [_ Hndes].
  cbn [t_kids] in *.
  pose proof (wrapped_elems_range _ _ _ _ _ _ _ Hwe) as Hr.
  assert (∀ x, x ∈ kids_locs es → x < n) as Hes_lt by (intros; by apply Hlt, locs_kids).
  set (cl := List.length h). set (c0 := t_cls (Node lc ac es)) in *.
  set (h0 := h ++ [fresh_obj c0]).
  assert (List.length h0 = S cl) as Hlen0 by (unfold h0; rewrite length_app; simpl; lia).
  assert (wp (unHooked_container ←- alloc (fresh_obj c0) ;;
              (if is_ordered c0 then unwrap_ordered rec unHooked_container (o_modules oc)
               else unwrap_keyed rec unHooked_container (o_modules oc)) ;;;
              setattr l k unHooked_container) h
            (unwrap_child_post l a pre rest k (Node lc ac es) h)) as Hgoal.
  { apply wp_bind. apply wp_alloc. fold cl h0.
    assert (h0 !! cl = Some (Obj (o_attrs (fresh_obj c0)) [])) as Hcl0
        by apply lookup_snoc_new.
    assert (wrapped_elems h0 (S n) n1 0 c0 (o_modules oc) es) as Hwe0.
    { eapply wrapped_elems_frame; [done|]. intros x Hx. apply lookup_snoc_old.
      destruct Hx as [Hx|Hx]; [specialize (Hes_lt _ Hx)|]; lia. }
    apply wp_bind.
    eapply (wp_mono _ _ (λ _ h', ∃ es',
              h' !! cl = Some (Obj (o_attrs (fresh_obj c0)) (kid_ref <$> es')) ∧
              restored_elems (S cl) (List.length h') 0 c0 es es' ∧
              Forall (λ k, ∀ e, k.2 = Some e → repr h' e) es' ∧
              (∀ x, x < S cl → x ∉ kids_locs es → x ≠ cl → h' !! x = h0 !! x))).
    { destruct (is_ordered c0) eqn:Hord.
      - eapply wp_mono;
          [apply (unwrap_ordered_spec c0 cl (o_attrs (fresh_obj c0)) es (o_modules oc) [] h0
                    (S n) n1 0); try done|].
        + intros k' e Hin. by apply (Hwfes k').
        + intros x Hx. specialize (Hes_lt _ Hx). lia.
        + intros [] h' (es' & ? & ? & ? & ?). exists es'. by rewrite <- Hlen0.
      - eapply wp_mono;
          [apply (unwrap_keyed_spec c0 cl (o_attrs (fresh_obj c0)) es (o_modules oc) [] h0
                    (S n) n1 0); try done|].
        + intros k' e Hin. by apply (Hwfes k').
        + intros x Hx. specialize (Hes_lt _ Hx). lia.
        + intros [] h' (es' & ? & ? & ? & ?). exists es'. by rewrite <- Hlen0. }
    intros [] h' (es' & Hcl' & Hre & Hrepr & Hfr').
    pose proof (restored_elems_range _ _ _ _ _ _ Hre) as Hr'.
    assert (l ≠ cl) as Hlcl by (unfold cl; lia).
    assert (l ∉ kids_locs es) as Hl_nin' by (intros ?; by apply Hl_nin, locs_kids).
    assert (h' !! l = Some (Obj a (pre ++ (k, Some n) :: rest))) as Hl'.
    { rewrite Hfr'; [|lia|done|done]. unfold h0. rewrite lookup_snoc_old; [done|]. fold cl. lia. }
    eapply wp_setattr; [done|]. cbn [o_modules set_modules o_attrs].
    rewrite dict_set_app_here by done.
    exists (Node cl (o_attrs (fresh_obj c0)) es'). cbn [root]. rewrite length_insert.
    split; [by rewrite list_lookup_insert_eq by lia|]. split; [|split].
    - by eapply (restored_kids_container cl (List.length h') _ k (Node lc ac es) es');
        [done|done|constructor].
    - constructor.
      + by rewrite list_lookup_insert_ne.
      + rewrite Forall_forall in Hrepr |- *. intros [ke oe] Hin e Hoe.
        cbn [snd] in Hoe. subst oe.
        eapply repr_frame; [by apply (Hrepr _ Hin)|]. intros x Hx.
        rewrite list_lookup_insert_ne; [done|]. intros Heq. subst x.
        assert (l ∈ kids_locs es') as Hin' by (by eapply kids_locs_elem).
        destruct (restored_elems_locs _ _ _ _ _ _ _ Hre Hin'); [done|lia].
    - intros x Hx Hnin Hne. rewrite list_lookup_insert_ne by done.
      rewrite Hfr'; [|lia| |unfold cl; lia].
      + unfold h0. by rewrite lookup_snoc_old.
      + intros ?. by apply Hnin, locs_kids. }
  unfold unwrap_child. apply wp_bind. eapply wp_deref; [done|]. rewrite Hcls.
  fold c0 in Hcont. unfold c0 in *. clear c0.
  destruct (t_cls (Node lc ac es)); try done.
Qed.

Lemma restored_kids_locs n n' kids kids' x :
  restored_kids n n' kids kids' → x ∈ kids_locs kids' → x ∈ kids_locs kids ∨ n ≤ x < n'.
Proof. intros H. by apply (proj1 (proj2 restored_locs_mut) _ _ _ _ H). Qed.

Lemma unwrap_kids_spec l a : ∀ kids ms pre h n n',
  kheight kids < N →
  (∀ k c, (k, Some c) ∈ kids → wf c) →
  NoDup (kids_locs kids) →
  (∀ x, x ∈ kids_locs kids → x < n) →
  n' ≤ List.length h →
  wrapped_kids h n n' ms kids →
  NoDup (pre.*1 ++ kids.*1) →
  h !! l = Some (Obj a (pre ++ ms)) → l ∉ kids_locs kids → l < n →
  wp (for_each (some_children ms) (unwrap_child rec l)) h (λ _ h',
    ∃ kids', h' !! l = Some (Obj a (pre ++ (kid_ref <$> kids'))) ∧
             restored_kids (List.length h) (List.length h') kids kids' ∧
             Forall (λ k, ∀ c, k.2 = Some c → repr h' c) kids' ∧
             (∀ x, x < List.length h → x ∉ kids_locs kids → x ≠ l → h' !! x = h !! x)).
Proof.
  intros kids. induction kids as [|[k [c|]] kids IH];
    intros ms pre h n n' HN Hwf Hnd Hlt Hn' Hw Hkeys Hl Hl_nin Hl_lt.
  - inversion Hw; subst. apply wp_ret. exists [].
    split; [done|]. split; [constructor|]. split; [constructor|done].
  - rewrite kheight_cons_some in HN.
    pose proof Hnd as (Hndc & Hndk & Hdis)%NoDup_kids_locs_cons.
    pose proof (NoDup_keys_step pre k (@None nat) _ _ Hkeys) as [Hk _].
    assert (wf c) as Hwfc by (eapply Hwf, elem_of_cons; by left).
    assert (∀ x, x ∈ locs c → x < n) as Hltc by (intros; by apply Hlt, kids_locs_here).
    assert (∀ x, x ∈ kids_locs kids → x < n) as Hltk by (intros; by apply Hlt, kids_locs_later).
    assert (l ∉ locs c) as Hl_c by (intros ?; by apply Hl_nin, kids_locs_here).
    assert (l ∉ kids_locs kids) as Hl_k by (intros ?; by apply Hl_nin, kids_locs_later).
    pose proof (wrapped_kids_range _ _ _ _ _ Hw) as Hrange.
    assert (∃ v n1 ms', ms = (k, Some v) :: ms' ∧ n ≤ n1 ∧ wrapped_kids h n1 n' ms' kids ∧
              wp (unwrap_child rec l (k, v)) h (unwrap_child_post l a pre ms' k c h))
      as (v & n1 & ms' & -> & Hn1 & Hw' & Hstep).
    { inversion Hw as [| |? ? ? ? a' ms' ? Hc Hren Hlc Hw'
                      |? n1 ? ? ? oc ms' ? Hc Hn Hcls Hwe Hw'
                      |? n1 ? ? ? ms' ? Hc1 Hc2 Hwc Hw']; subst.
      - exists (root c), n, ms'. split; [done|]. split; [done|]. split; [done|].
        by eapply unwrap_child_hook.
      - pose proof (wrapped_elems_range _ _ _ _ _ _ _ Hwe).
        pose proof (wrapped_kids_range _ _ _ _ _ Hw').
        exists n, n1, ms'. split; [done|]. split; [lia|]. split; [done|].
        eapply (unwrap_child_container l a pre ms' k c oc h n n1); try done; [|lia].
        pose proof (kheight_lt_height c). lia.
      - pose proof (wrapped_range _ _ _ _ Hwc).
        pose proof (wrapped_kids_range _ _ _ _ _ Hw').
        exists n, n1, ms'. split; [done|]. split; [lia|]. split; [done|].
        eapply (unwrap_child_unit l a pre ms' k c h n n1); try done; lia. }
    pose proof (wrapped_kids_range _ _ _ _ _ Hw') as Hrange'.
    rewrite some_children_cons_some. cbn [for_each]. apply wp_bind.
    eapply wp_mono; [done|].
    intros [] h1 (c' & Hl1 & Hres1 & Hrc1 & Hfr1).
    pose proof (restored_kids_range _ _ _ _ Hres1) as Hlen1.
    pose proof (NoDup_keys_step pre k (Some (root c')) _ _ Hkeys) as [_ Hkeys'].
    eapply wp_mono; [apply (IH ms' (pre ++ [(k, Some (root c'))]) h1 n1 n')|].
    + lia.
    + intros k' c0 Hin. eapply Hwf, elem_of_cons. by right.
    + done.
    + intros x Hx. specialize (Hltk _ Hx). lia.
    + lia.
    + eapply wrapped_kids_frame; [done|]. intros x Hx. apply Hfr1.
      * destruct Hx as [Hx|Hx]; [specialize (Hltk _ Hx)|]; lia.
      * destruct Hx as [Hx|Hx]; [intros ?; by eapply Hdis|].
        intros Hin. specialize (Hltc _ Hin). lia.
      * destruct Hx as [Hx|Hx]; [by intros ->|lia].
    + done.
    + by rewrite <- app_assoc.
    + done.
    + lia.
    + intros [] h' (kids' & Hl' & Hres & Hrepr & Hfr). exists ((k, Some c') :: kids').
      split; [|split; [|split]].
      * rewrite kid_ref_cons_some. by rewrite <- app_assoc in Hl'.
      * change ((k, Some c') :: kids') with ([(k, Some c')] ++ kids').
        change ((k, Some c) :: kids) with ([(k, Some c)] ++ kids).
        by eapply restored_kids_app.
      * constructor; [|done]. intros c0 Hc0. cbn [snd] in Hc0. simplify_eq.
        eapply repr_frame; [done|]. intros x Hx. apply Hfr.
        -- pose proof (repr_locs_lt _ _ _ Hrc1 Hx). lia.
        -- destruct (restored_kids_locs _ _ _ _ x Hres1) as [Hin|Hin];
             [by apply kids_locs_here| |].
           ++ rewrite kids_locs_cons, app_nil_r in Hin. by apply Hdis.
           ++ intros Hin'. specialize (Hltk _ Hin'). lia.
        -- destruct (restored_kids_locs _ _ _ _ x Hres1) as [Hin|Hin];
             [by apply kids_locs_here| |].
           ++ rewrite kids_locs_cons, app_nil_r in Hin. by intros ->.
           ++ lia.
      * intros x Hx Hnin Hne. rewrite Hfr.
        -- apply Hfr1; [done| |done]. intros ?. apply Hnin. by apply kids_locs_here.
        -- lia.
        -- intros ?. apply Hnin. by apply kids_locs_later.
        -- done.
  - inversion Hw as [|? ? ? ms' ? Hw'| | |]; subst.
    rewrite some_children_cons_none.
    rewrite kheight_cons_none in HN. rewrite kids_locs_cons in Hnd, Hl_nin, Hlt.
    cbn [app] in Hnd, Hl_nin, Hlt.
    apply (NoDup_keys_step pre k None) in Hkeys as [Hk Hkeys].
    eapply wp_mono; [apply (IH ms' (pre ++ [(k, None)]) h n n')|]; try done.
    + intros k' c' Hin. apply (Hwf k'). apply elem_of_cons. by right.
    + by rewrite <- app_assoc.
    + intros [] h' (kids' & Hl' & Hres & Hrepr & Hfr). exists ((k, None) :: kids').
      split; [by rewrite <- app_assoc in Hl'|]. split; [by constructor|].
      split; [by constructor|].
      intros x ? Hx ?. apply Hfr; [done| |done]. by rewrite kids_locs_cons in Hx.
Qed.
End unwrap_loops.

(** Unwrapping the wrapper of [t]: [unwrap_instance] returns the module, and
    the store holds the restored tree. *)
Theorem unwrap_instance_spec t :
  wf t → NoDup (locs t) →
  ∀ fuel h n n',
    height t ≤ fuel → (∀ x, x ∈ locs t → x < n) → n' ≤ List.length h →
    wrapped h n n' t →
    wp (unwrap_instance fuel n) h (unwrap_post h t).
Proof.
  remember (height t) as N eqn:HN. revert t HN.
  induction (lt_wf N) as [N _ IH]. intros [l a kids] HN Hwf Hnd fuel h n n' Hfuel Hlt Hn' Hw.
  rewrite height_node in HN.
  destruct fuel as [|f]; [lia|]. cbn [unwrap_instance].
  pose proof Hwf as (Hkeys & _ & Hwfk)%wf_inv.
  pose proof Hnd as Hndk. rewrite locs_node in Hndk. apply NoDup_cons in Hndk as [Hl_nin Hndk].
  assert (l < n) as Hl_lt by (apply Hlt, (root_in_locs (Node l a kids))).
  assert (∀ x, x ∈ kids_locs kids → x < n) as Hk_lt by (intros; by apply Hlt, locs_kids).
  inversion Hw as [? ? ? ? a' ? oH ms HH Hcls Hpar Hfw Hms Hhp Hren Hl Hwk]; subst.
  pose proof (wrapped_kids_range _ _ _ _ _ Hwk) as Hrange.
  set (n0 := if has_hp (Node l a kids) then S n else S (S n)) in *.
  assert (n < n0) as Hn0 by (unfold n0; destruct (has_hp _); lia).
  apply wp_bind. eapply wp_deref; [done|]. rewrite Hms. cbn [dict_get].
  rewrite decide_True by done.
  apply wp_bind. unfold unwrap_children. apply wp_bind. eapply wp_deref; [done|].
  unfold named_children. cbn [o_modules].
  destruct (wrapped_kids_values _ _ _ _ _ Hwk) as [Hvals _]; [intros; apply Hk_lt in H; lia|done|].
  rewrite named_children_from_some; [|done|by intros ?? ?%elem_of_nil].
  eapply wp_mono.
  { eapply (unwrap_kids_spec (unwrap_instance f) (S (kheight kids))) with (kids := kids) (pre := []) (a := a') (n := n0) (n' := n').
    - intros e He Hwfe Hnde h' m m' Hlte Hm' Hwe. eapply IH; [done|done|done|done| |done|done|done].
      lia.
    - lia.
    - intros k c Hin. by apply (Hwfk k c).
    - done.
    - intros x Hx. specialize (Hk_lt _ Hx). lia.
    - done.
    - done.
    - done.
    - done.
    - done.
    - lia. }
  intros [] h' (kids' & Hl' & Hres & Hrepr & Hfr). cbn [app] in Hl'.
  apply wp_ret. split; [done|]. split.
  - exists (Node l a' kids'). split; [by constructor|by constructor].
  - intros x Hx Hnin. apply Hfr; [done| |].
    + intros ?. by apply Hnin, locs_kids.
    + intros ->. apply Hnin, (root_in_locs (Node l a kids)).
Qed.

(** ** The restored tree is a tree with the same hook names *)

Lemma pretty_N_go_nonempty (x : N) s : s ≠ "" → pretty_N_go x s ≠ "".
Proof.
  revert s. induction (N.lt_wf_0 x) as [x _ IH]; intros s Hs.
  assert (x = 0 ∨ 0 < x)%N as [->|Hx] by lia.
  - by rewrite pretty_N_go_0.
  - rewrite pretty_N_go_step by done. apply IH; [by apply N.div_lt|done].
Qed.

Lemma pretty_nat_nonempty (i : nat) : pretty i ≠ "".
Proof.
  unfold pretty, pretty_nat, pretty, pretty_N. destruct (decide _); [done|].
  rewrite pretty_N_go_step by lia. by apply pretty_N_go_nonempty.
Qed.

Lemma dict_get_keys {V W} k (d1 : list (string * V)) (d2 : list (string * W)) :
  d1.*1 = d2.*1 → is_Some (dict_get k d1) ↔ is_Some (dict_get k d2).
Proof.
  revert d2. induction d1 as [|[k1 v1] d1 IH]; intros [|[k2 v2] d2] Heq; try done.
  { cbn [dict_get]. split; by intros [? ?]. }
  cbn [fmap list_fmap fst] in Heq. injection Heq as -> Heq. cbn [dict_get].
  destruct (decide (k = k2)); [by split; eauto|]. by apply IH.
Qed.

Lemma dict_has_keys {V W} k (d1 : list (string * V)) (d2 : list (string * W)) :
  d1.*1 = d2.*1 → dict_has k d1 = dict_has k d2.
Proof. intros Heq. unfold dict_has. apply bool_decide_ext. by apply dict_get_keys. Qed.

Lemma kid_ref_keys (kids : list (string * option mtree)) : (kid_ref <$> kids).*1 = kids.*1.
Proof. induction kids as [|[k c] kids IH]; [done|]. cbn [fmap list_fmap]. by rewrite IH. Qed.

Lemma has_hp_keys l l' a a' kids kids' :
  a_params a' = a_params a → kids'.*1 = kids.*1 →
  has_hp (Node l' a' kids') = has_hp (Node l a kids).
Proof.
  intros Hp Hk. unfold has_hp, hasattr. cbn [t_attrs t_kids o_attrs o_modules].
  rewrite Hp. f_equal. apply dict_has_keys. by rewrite !kid_ref_keys.
Qed.

Lemma is_container_cases c :
  is_container c = true → c = nn_ModuleList ∨ c = nn_Sequential ∨ c = nn_ModuleDict.
Proof. destruct c; try done; auto. Qed.

Lemma kid_hooks_container p k c :
  is_container (t_cls c) = true →
  kid_hooks p k c = elems_hooks (t_cls c) (join p k) 0 (t_kids c).
Proof. intros Hc. unfold kid_hooks. by destruct (t_cls c). Qed.

Lemma kid_hooks_unit p k c :
  is_container (t_cls c) = false →
  kid_hooks p k c = if decide (t_cls c = HookPoint) then [join p k] else hooks_of (join p k) c.
Proof. intros Hc. unfold kid_hooks. by destruct (t_cls c). Qed.

Lemma wf_intro l a kids :
  NoDup kids.*1 → Forall (λ k, k ≠ "") kids.*1 → (a_cls a = HookPoint → kids = []) →
  Forall kid_ok kids → wf (Node l a kids).
Proof.
  intros H1 H2 H3 H4. constructor; [done| |done|done].
  by rewrite Forall_fmap in H2.
Qed.

Lemma wf_elim l a kids :
  wf (Node l a kids) →
  NoDup kids.*1 ∧ Forall (λ k, k ≠ "") kids.*1 ∧ (a_cls a = HookPoint → kids = []) ∧
  Forall kid_ok kids.
Proof.
  inversion 1 as [? ? ? H1 H0 H2 H3]; subst. split; [done|]. split; [by rewrite Forall_fmap|].
  done.
Qed.

Lemma kheight_node_kids t : height t = S (kheight (t_kids t)).
Proof. by destruct t. Qed.

Lemma seq_keys_cons (i n : nat) :
  pretty i :: (pretty <$> seq (S i) n) = (pretty <$> seq i (S n) : list string).
Proof. done. Qed.

(** What [restored] keeps: the class, the names of the children, the
    height, the hook names, and the conditions of [wf]. *)
Lemma restored_facts_mut :
  (∀ n n' t t', restored n n' t t' →
     t_cls t' = t_cls t ∧
     (Forall (λ e, is_Some e.2) (t_kids t) → Forall (λ e, is_Some e.2) (t_kids t')) ∧
     height t' = height t ∧
     (∀ p, hooks_of p t' = hooks_of p t) ∧
     (wf t → wf t')) ∧
  (∀ n n' kids kids', restored_kids n n' kids kids' →
     kids'.*1 = kids.*1 ∧
     (Forall (λ e, is_Some e.2) kids → Forall (λ e, is_Some e.2) kids') ∧
     kheight kids' = kheight kids ∧
     (∀ p, kids_hooks p kids' = kids_hooks p kids) ∧
     (Forall kid_ok kids → Forall kid_ok kids')) ∧
  (∀ n n' i c es es', restored_elems n n' i c es es' →
     es'.*1 = (if is_ordered c then pretty <$> seq i (List.length es) else es.*1) ∧
     Forall (λ e, is_Some e.2) es' ∧
     kheight es' = kheight es ∧
     (∀ p, elems_hooks c p i es' = elems_hooks c p i es) ∧
     (Forall kid_ok es → Forall kid_ok es')).
Proof.
  apply restored_mutind.
  - intros n n' l a a' kids kids' Hren Hk (Hkeys & Hsome & Hh & Hhooks & Hok).
    split; [by apply renamed_hook_cls|]. split; [done|].
    split; [by rewrite !height_node, Hh|]. split.
    + intros p. rewrite !hooks_of_node, Hhooks.
      by rewrite (has_hp_keys l l a a' kids kids') by eauto using renamed_hook_params.
    + intros (Hnd & Hne & Hhp & Hkids)%wf_elim. apply wf_intro.
      * by rewrite Hkeys.
      * by rewrite Hkeys.
      * intros Hc. rewrite (renamed_hook_cls _ _ Hren) in Hc. rewrite (Hhp Hc) in Hkeys.
        by apply fmap_nil_inv in Hkeys.
      * auto.
  - intros n. repeat split; done.
  - intros n n' k kids kids' Hk (Hkeys & Hsome & Hh & Hhooks & Hok).
    split; [cbn [fmap list_fmap fst]; by rewrite Hkeys|].
    split; [by intros [[] _]%Forall_cons|].
    split; [by rewrite !kheight_cons_none|]. split; [done|].
    intros [? ?]%Forall_cons. apply Forall_cons. split; [|auto]. by intros c.
  - intros n n1 n' k c es' kids kids' Hc He (Hekeys & Hesome & Heh & Hehooks & Heok)
           Hk (Hkeys & Hsome & Hh & Hhooks & Hok).
    set (c' := Node n (o_attrs (fresh_obj (t_cls c))) es').
    assert (t_cls c' = t_cls c) as Hcls by done.
    split; [cbn [fmap list_fmap fst]; by rewrite Hkeys|].
    split; [intros [_ ?]%Forall_cons; apply Forall_cons; split; [by eexists|auto]|].
    split.
    { rewrite !kheight_cons_some, Hh. unfold c'. rewrite height_node, Heh.
      by rewrite (kheight_node_kids c). }
    split.
    { intros p. cbn [kids_hooks]. rewrite Hhooks. f_equal.
      rewrite !kid_hooks_container by (by rewrite ?Hcls). by rewrite Hcls. }
    intros [Hkc Hkk]%Forall_cons. apply Forall_cons. split; [|auto].
    intros c0 Hc0. cbn [snd] in Hc0. injection Hc0 as <-.
    destruct (Hkc c eq_refl) as [Hwfc Hsomec]. unfold c' in *. clear c'.
    destruct c as [lc ac es]. cbn [t_kids] in *.
    apply wf_elim in Hwfc as (Hnd & Hne & _ & Hes). split; [|done].
    apply wf_intro.
    + rewrite Hekeys. destruct (is_ordered _); [|done].
      apply (NoDup_fmap_2 _), NoDup_seq.
    + rewrite Hekeys. destruct (is_ordered _); [|done].
      rewrite Forall_fmap. apply Forall_forall. intros j _. apply pretty_nat_nonempty.
    + cbn [a_cls o_attrs fresh_obj]. intros Heq. by rewrite Heq in Hc.
    + auto.
  - intros n n1 n' k c c' kids kids' Hc Hr (Hcls & Hcsome & Hch & Hchooks & Hcwf)
           Hk (Hkeys & Hsome & Hh & Hhooks & Hok).
    split; [cbn [fmap list_fmap fst]; by rewrite Hkeys|].
    split; [intros [_ ?]%Forall_cons; apply Forall_cons; split; [by eexists|auto]|].
    split; [by rewrite !kheight_cons_some, Hh, Hch|].
    split.
    { intros p. cbn [kids_hooks]. rewrite Hhooks. f_equal.
      rewrite !kid_hooks_unit by (by rewrite ?Hcls). rewrite Hcls.
      by destruct (decide _). }
    intros [Hkc Hkk]%Forall_cons. apply Forall_cons. split; [|auto].
    intros c0 Hc0. cbn [snd] in Hc0. simplify_eq.
    destruct (Hkc c eq_refl) as [Hwfc _]. split; [auto|]. by rewrite Hcls, Hc.
  - intros n i c. split; [by destruct (is_ordered c)|]. repeat split; done.
  - intros n n1 n' i c k e e' es es' Hr (Hcls & Hesome & Heh & Hehooks & Hewf)
           He (Hkeys & Hsome & Hh & Hhooks & Hok).
    split.
    { cbn [fmap list_fmap fst List.length]. rewrite Hkeys.
      destruct (is_ordered c); [apply seq_keys_cons|done]. }
    split; [apply Forall_cons; split; [by eexists|done]|].
    split; [by rewrite !kheight_cons_some, Hh, Heh|].
    split.
    { intros p. cbn [elems_hooks]. rewrite Hhooks, Hehooks. by destruct (is_ordered c). }
    intros [Hke Hkk]%Forall_cons. apply Forall_cons. split; [|auto].
    intros e0 He0. cbn [snd] in He0. simplify_eq.
    destruct (Hke e eq_refl) as [Hwfe Hsomee]. split; [auto|].
    rewrite Hcls. auto.
Qed.

Lemma NoDup_app_locs (l1 l2 : list loc) :
  NoDup l1 → NoDup l2 → (∀ x, x ∈ l1 → x ∉ l2) → NoDup (l1 ++ l2).
Proof. intros. by apply NoDup_app. Qed.

Lemma restored_NoDup_mut :
  (∀ n n' t t', restored n n' t t' →
     NoDup (locs t) → (∀ x, x ∈ locs t → x < n) → NoDup (locs t')) ∧
  (∀ n n' kids kids', restored_kids n n' kids kids' →
     NoDup (kids_locs kids) → (∀ x, x ∈ kids_locs kids → x < n) →
     NoDup (kids_locs kids')) ∧
  (∀ n n' i c es es', restored_elems n n' i c es es' →
     NoDup (kids_locs es) → (∀ x, x ∈ kids_locs es → x < n) →
     NoDup (kids_locs es')).
Proof.
  apply restored_mutind.
  - intros n n' l a a' kids kids' Hren Hk IH Hnd Hlt.
    rewrite locs_node in Hnd |- *. apply NoDup_cons in Hnd as [Hl Hnd].
    assert (l < n) as Hl_lt by (apply Hlt, (root_in_locs (Node l a kids))).
    apply NoDup_cons. split.
    + intros Hin. destruct (restored_kids_locs _ _ _ _ _ Hk Hin); [done|lia].
    + apply IH; [done|]. intros x Hx. by apply Hlt, locs_kids.
  - intros n _ _. constructor.
  - intros n n' k kids kids' Hk IH Hnd Hlt. rewrite kids_locs_cons in Hnd, Hlt |- *. by apply IH.
  - intros n n1 n' k c es' kids kids' Hc He IHe Hk IHk Hnd Hlt.
    pose proof (restored_elems_range _ _ _ _ _ _ He) as Hr1.
    apply NoDup_kids_locs_cons in Hnd as (Hndc & Hndk & Hdis).
    assert (∀ x, x ∈ kids_locs (t_kids c) → x < n) as Hes_lt.
    { intros x Hx. by apply Hlt, kids_locs_here, locs_kids'. }
    assert (∀ x, x ∈ kids_locs kids → x < n) as Hk_lt
        by (intros; by apply Hlt, kids_locs_later).
    rewrite kids_locs_cons, locs_node. apply NoDup_app_locs.
    + apply NoDup_cons. split.
      * intros Hin. destruct (restored_elems_locs _ _ _ _ _ _ _ He Hin) as [Hx|Hx]; [|lia].
        specialize (Hes_lt _ Hx). lia.
      * apply IHe.
        -- destruct c as [lc ac es]. rewrite locs_node in Hndc.
           by apply NoDup_cons in Hndc as [_ ?].
        -- intros x Hx. specialize (Hes_lt _ Hx). lia.
    + apply IHk; [done|]. intros x Hx. specialize (Hk_lt _ Hx). lia.
    + intros x Hx Hin.
      destruct (restored_kids_locs _ _ _ _ _ Hk Hin) as [Hx'|Hx'];
        apply elem_of_cons in Hx as [->|Hx].
      * specialize (Hk_lt _ Hx'). lia.
      * destruct (restored_elems_locs _ _ _ _ _ _ _ He Hx) as [Hy|Hy].
        -- eapply Hdis; [|done]. by apply locs_kids'.
        -- specialize (Hk_lt _ Hx'). lia.
      * lia.
      * destruct (restored_elems_locs _ _ _ _ _ _ _ He Hx) as [Hy|Hy]; [|lia].
        specialize (Hes_lt _ Hy). lia.
  - intros n n1 n' k c c' kids kids' Hc Hr IHr Hk IHk Hnd Hlt.
    pose proof (restored_range _ _ _ _ Hr) as Hr1.
    apply NoDup_kids_locs_cons in Hnd as (Hndc & Hndk & Hdis).
    assert (∀ x, x ∈ locs c → x < n) as Hc_lt by (intros; by apply Hlt, kids_locs_here).
    assert (∀ x, x ∈ kids_locs kids → x < n) as Hk_lt
        by (intros; by apply Hlt, kids_locs_later).
    rewrite kids_locs_cons. apply NoDup_app_locs.
    + by apply IHr.
    + apply IHk; [done|]. intros x Hx. specialize (Hk_lt _ Hx). lia.
    + intros x Hx Hin.
      destruct (restored_kids_locs _ _ _ _ _ Hk Hin) as [Hx'|Hx'];
        destruct (restored_locs _ _ _ _ _ Hr Hx) as [Hy|Hy].
      * by eapply Hdis.
      * specialize (Hk_lt _ Hx'). lia.
      * specialize (Hc_lt _ Hy). lia.
      * lia.
  - intros n i c _ _. constructor.
  - intros n n1 n' i c k e e' es es' Hr IHr He IHe Hnd Hlt.
    pose proof (restored_range _ _ _ _ Hr) as Hr1.
    apply NoDup_kids_locs_cons in Hnd as (Hnde & Hndes & Hdis).
    assert (∀ x, x ∈ locs e → x < n) as He_lt by (intros; by apply Hlt, kids_locs_here).
    assert (∀ x, x ∈ kids_locs es → x < n) as Hes_lt
        by (intros; by apply Hlt, kids_locs_later).
    rewrite kids_locs_cons. apply NoDup_app_locs.
    + by apply IHr.
    + apply IHe; [done|]. intros x Hx. specialize (Hes_lt _ Hx). lia.
    + intros x Hx Hin.
      destruct (restored_elems_locs _ _ _ _ _ _ _ He Hin) as [Hx'|Hx'];
        destruct (restored_locs _ _ _ _ _ Hr Hx) as [Hy|Hy].
      * by eapply Hdis.
      * specialize (Hes_lt _ Hx'). lia.
      * specialize (He_lt _ Hy). lia.
      * lia.
Qed.

Lemma restored_tree n n' t t' :
  restored n n' t t' → tree t → (∀ x, x ∈ locs t → x < n) → tree t'.
Proof.
  intros Hr [Hwf Hnd] Hlt. split.
  - by apply (proj1 restored_facts_mut _ _ _ _ Hr).
  - by apply (proj1 restored_NoDup_mut _ _ _ _ Hr).
Qed.

Lemma restored_hooks n n' t t' p : restored n n' t t' → hooks_of p t' = hooks_of p t.
Proof. intros Hr. by apply (proj1 restored_facts_mut _ _ _ _ Hr). Qed.

Lemma restored_height n n' t t' : restored n n' t t' → height t' = height t.
Proof. intros Hr. by apply (proj1 restored_facts_mut _ _ _ _ Hr). Qed.

(** ** The modules of the tests are trees, held by their stores *)

Lemma SimpleModule_tree_ok : tree SimpleModule_tree.
Proof. solve_tree. Qed.
Lemma SimpleModule_repr : repr SimpleModule_heap SimpleModule_tree.
Proof. solve_repr. Qed.

Lemma SimpleNestedModuleList_tree_ok : tree SimpleNestedModuleList_tree.
Proof. solve_tree. Qed.
Lemma SimpleNestedModuleList_repr : repr SimpleNestedModuleList_heap SimpleNestedModuleList_tree.
Proof. solve_repr. Qed.

Lemma WithHook_tree_ok : tree WithHook_tree.
Proof. solve_tree. Qed.
Lemma WithHook_repr : repr WithHook_heap WithHook_tree.
Proof. solve_repr. Qed.

Lemma Holder_tree_ok : tree Holder_tree.
Proof. solve_tree. Qed.
Lemma Holder_repr : repr Holder_heap Holder_tree.
Proof. solve_repr. Qed.

Lemma Leaf_tree_ok : tree Leaf_tree.
Proof. solve_tree. Qed.
Lemma Leaf_repr : repr Leaf_heap Leaf_tree.
Proof. solve_repr. Qed.

(** The children the wrapped module holds once [auto_hook] has returned. *)
Lemma auto_hook_children t fuel h :
  tree t → repr h t → budget t ≤ fuel →
  ∃ h' oH a' ms,
    auto_hook fuel (root t) h = Ok (List.length h, h') ∧
    h' !! List.length h = Some oH ∧ a_unwrap (o_attrs oH) = Some (root t) ∧
    h' !! root t = Some (Obj a' ms) ∧ renamed_hook (t_attrs t) a' ∧
    Forall2 (kid_image h' (List.length h)) ms (t_kids t).
Proof.
  intros Ht Hr Hf.
  destruct (auto_hook_tree t fuel h Ht Hr Hf) as (h' & Hrun & Hpost).
  destruct Hpost as (_ & Hw & _ & (oH & HoH & Hun) & _).
  destruct (wrapped_children _ _ _ _ _ Hw (unit_of_root t)) as (a' & ms & Hl & Hren & Himg).
  by exists h', oH, a', ms.
Qed.

(** * Unwrapping what was wrapped *)


(** The keys of a [Sequential] are lost as well: its elements come back
    under their positions. *)
Example NamedSequential_keys :
  ∃ H h1 h2 net o,
    auto_hook 5 (root NamedSequential_tree) NamedSequential_heap = Ok (H, h1) ∧
    unwrap_instance 5 H h1 = Ok (root NamedSequential_tree, h2) ∧
    (o_modules <$> h2 !! root NamedSequential_tree) = Some [("net", Some net)] ∧
    h2 !! net = Some o ∧ o_cls o = nn_Sequential ∧
    o_modules o = [("0", Some 2); ("1", Some 3)].
Proof.
  eexists _, _, _, _, _. split; [by vm_compute|]. split; [by vm_compute|].
  split; [by vm_compute|]. split; [by vm_compute|]. split; by vm_compute.
Qed.



(** * Wrapping twice *)

(** C2: wrapping an already wrapped leaf module. The outer wrapper gets no
    observation point, but the loop over the children of the inner wrapper
    reaches its [_module] and wraps the original module a second time: the
    store then holds two wrappers around the module at address 0, each with
    an observation point of its own, and the outer wrapper lists both. *)
Theorem double_wrap_two_hook_points :
  ∃ H h',
    (w ←- auto_hook 3 (root Leaf_tree) ;; auto_hook 3 w) Leaf_heap = Ok (H, h') ∧
    list_all_hooks h' H = [("_module.hook_point", 5); ("hook_point", 2)] ∧
    is_HookPoint h' 5 = true ∧ is_HookPoint h' 2 = true ∧
    is_wrapper_of h' 4 0 ∧ own_hook_point h' 4 = Some 5 ∧
    is_wrapper_of h' 1 4 ∧ own_hook_point h' 1 = Some 2 ∧
    is_wrapper_of h' H 1 ∧ own_hook_point h' H = None.
Proof.
  eexists _, _. split; [by vm_compute|].
  repeat split; try (by vm_compute); eexists; (split; [by vm_compute|]); by vm_compute.
Qed.


(** * Hook completeness *)




(** the scenario of the tests: the hooks of [SimpleNestedModuleList] *)
Example SimpleNestedModuleList_hooks :
  hooks_of "" SimpleNestedModuleList_tree =
  ["bla.0.inner1.hook_point"; "bla.0.hook_point";
   "bla.1.inner1.hook_point"; "bla.1.hook_point"; "hook_point"].
Proof. by vm_compute. Qed.

(** * The synthesized forward *)

(** C4, as stated, fails for the engine: [new_forward] passes the keyword
    arguments on to the original forward. *)
Lemma kwargs_dropped_counterexample :
  ¬ kwargs_dropped_claim 3 Leaf_heap Leaf_tree.
Proof.
  intros Hclaim.
  destruct (auto_hook 3 (root Leaf_tree) Leaf_heap) as [[H h']| |] eqn:Hrun;
    [|by vm_compute in Hrun..].
  destruct (Hclaim H h' Hrun (λ _ _ _, 0) [7] [("scale", 2)]) as (r & hp & Hcall).
  vm_compute in Hrun. by simplify_eq.
Qed.

(** C4 (amended): the forward synthesized for a wrapped node that received
    its own observation point invokes the original, pre-wrap forward with the
    positional and the keyword arguments of the call, and routes the result
    through that observation point; only the block wrapper of the adapter
    strips the keyword arguments: the forward it installs invokes the
    original forward of the block with the positional arguments alone. *)
Theorem forward_of_wrapped :
  (∀ t fuel h,
     tree t → repr h t → budget t ≤ fuel → has_hp t = false →
     ∃ H h' hp,
       auto_hook fuel (root t) h = Ok (H, h') ∧
       is_HookPoint h' hp = true ∧
       ∀ (value : Type) (class_forward : loc → list value → list (string * value) → value)
         args kwargs,
         forward class_forward h' H args kwargs =
         match call_forward class_forward h'
                 (get_forward (root t) (Obj (t_attrs t) [])) args kwargs with
         | Ok (r, tr) => Ok (r, tr ++ [EHook hp r])
         | Raise e => Raise e
         | Undef => Undef
         end) ∧
  (∀ h block o,
     h !! block = Some o →
     ∃ h',
       Adapter._wrap_block block h = Ok (block, h') ∧
       ∀ (value : Type) (class_forward : loc → list value → list (string * value) → value)
         args kwargs,
         forward class_forward h' block args kwargs =
         call_forward class_forward h' (get_forward block o) args []).
Proof.
  split.
  - intros t fuel h Ht Hr Hf Hhp.
    destruct (auto_hook_tree t fuel h Ht Hr Hf) as (h' & Hrun & Hpost).
    destruct Hpost as (_ & Hw & _).
    inversion Hw as [? ? l a a' kids oH ms HH Hcls Hpar Hfw Hms Hhp' Hren Hl Hk]; subst.
    destruct (Hhp' Hhp) as (ohp & Hohp & Hhcls & _).
    exists (List.length h), h', (S (List.length h)). split; [done|].
    split; [by eapply is_HookPoint_cls|].
    intros value cf args kwargs. unfold forward. rewrite HH. unfold get_forward at 1.
    rewrite Hfw. cbn [call_forward root t_attrs].
    destruct (call_forward cf h' (get_forward l (Obj a [])) args kwargs) as [[r tr]| |];
      [|done..].
    unfold call_hook_point. rewrite HH, Hms, Hhp. cbn [dict_get].
    rewrite decide_False by done. rewrite decide_True by done.
    by rewrite (proj2 (is_HookPoint_cls _ _ _ Hohp) Hhcls).
  - intros h block o Ho. eexists. split.
    + cbv [Adapter._wrap_block bind deref update ret]. rewrite Ho. cbv beta iota.
      rewrite Ho. reflexivity.
    + intros value cf args kwargs. unfold forward.
      rewrite list_lookup_insert_eq by (by eapply lookup_lt_heap).
      done.
Qed.

Lemma forward_of_wrapped_witness :
  (tree Leaf_tree ∧ repr Leaf_heap Leaf_tree ∧ budget Leaf_tree ≤ 3 ∧ has_hp Leaf_tree = false ∧
   ∃ H h' hp,
     auto_hook 3 (root Leaf_tree) Leaf_heap = Ok (H, h') ∧
     is_HookPoint h' hp = true ∧
     ∀ (value : Type) (class_forward : loc → list value → list (string * value) → value)
       args kwargs,
       forward class_forward h' H args kwargs =
       match call_forward class_forward h'
               (get_forward (root Leaf_tree) (Obj (t_attrs Leaf_tree) [])) args kwargs with
       | Ok (r, tr) => Ok (r, tr ++ [EHook hp r])
       | Raise e => Raise e
       | Undef => Undef
       end) ∧
  (Leaf_heap !! 0 = Some (Obj (plain true []) []) ∧
   ∃ h',
     Adapter._wrap_block 0 Leaf_heap = Ok (0, h') ∧
     ∀ (value : Type) (class_forward : loc → list value → list (string * value) → value)
       args kwargs,
       forward class_forward h' 0 args kwargs =
       call_forward class_forward h' (get_forward 0 (Obj (plain true []) [])) args []).
Proof.
  split.
  - split; [apply Leaf_tree_ok|]. split; [apply Leaf_repr|].
    split; [vm_compute; lia|]. split; [reflexivity|].
    apply (proj1 forward_of_wrapped Leaf_tree 3 Leaf_heap).
    + apply Leaf_tree_ok.
    + apply Leaf_repr.
    + vm_compute; lia.
    + reflexivity.
  - split; [reflexivity|].
    apply (proj2 forward_of_wrapped Leaf_heap 0 (Obj (plain true []) [])). reflexivity.
Defined.

(** the forward of a wrapped leaf, on a call with one keyword argument *)
Example Leaf_forward_trace :
  ∃ H h', auto_hook 3 (root Leaf_tree) Leaf_heap = Ok (H, h') ∧
          forward (λ _ (args : list nat) kwargs, List.length kwargs) h' H [7] [("scale", 2)] =
          Ok (1, [ECall 0 [7] [("scale", 2)]; EHook 2 1]).
Proof. eexists _, _. split; by vm_compute. Qed.

(** * Container fidelity *)



(** * No child is rejected *)




(** * The adapter *)

(** ** Unsupported accessors *)

(** C7. On every adapter object and in every store, each of the fifteen
    accessors [W_K], [W_Q], [W_V], [W_O], [W_in], [W_gate], [W_out], [b_K],
    [b_Q], [b_V], [b_O], [b_in], [b_out], [QK] and [OV] raises
    [NotImplementedError]; none of them returns a value. *)
Theorem unsupported_accessors (self : Adapter.HookedTransformerAdapter) (h : heap) :
  Forall (λ accessor : Adapter.HookedTransformerAdapter → M Adapter.value,
            accessor self h = Raise NotImplementedError ∧
            ∀ r, accessor self h ≠ Ok r)
    [Adapter.W_K; Adapter.W_Q; Adapter.W_V; Adapter.W_O;
     Adapter.W_in; Adapter.W_gate; Adapter.W_out;
     Adapter.b_K; Adapter.b_Q; Adapter.b_V; Adapter.b_O;
     Adapter.b_in; Adapter.b_out; Adapter.QK; Adapter.OV].
Proof. repeat constructor; done. Qed.

(** ** Construction *)

Section construction.
Variable from_pretrained : string → M loc.
Variable wrap : loc → M loc.
Variable tokenizer_from_pretrained : string → bool → bool → option string → M Adapter.Tokenizer.
Variable set_tokenizer : Adapter.Tokenizer → string → Adapter.Tokenizer.
Variable non_hf_hosted : list string.
Variable hf_token : option string.

Local Abbreviation __init__ :=
  (Adapter.__init__ from_pretrained wrap tokenizer_from_pretrained set_tokenizer
     non_hf_hosted hf_token).
Local Abbreviation init_slots :=
  (Adapter.init_slots tokenizer_from_pretrained set_tokenizer non_hf_hosted hf_token).
Local Abbreviation resolve_model := (Adapter.resolve_model from_pretrained wrap).

Lemma init_slots_no_tokenizer map_cfg cfg move side m h :
  Adapter.tokenizer_name cfg = None →
  init_slots map_cfg cfg None move side m h =
  Raise (if bool_decide (Adapter.d_vocab cfg = (-1)%Z) then AssertionError else AttributeError).
Proof.
  intros Hn. unfold Adapter.init_slots, Adapter.resolve_tokenizer, bind. rewrite Hn.
  by case_bool_decide.
Qed.

(** C9. The constructor goes on to bind the slots in exactly two cases: a
    model name alone, whose model is fetched and wrapped, or a model
    together with a tokenizer, whose model is wrapped. Both modes at once,
    neither, and a model or a tokenizer alone all raise [ValueError], so no
    object is returned. *)
Theorem construction_modes map_cfg cfg hf_model_name model tokenizer move side h :
  __init__ map_cfg cfg hf_model_name model tokenizer move side h =
  match hf_model_name, model, tokenizer with
  | Some name, None, None =>
      (m ←- from_pretrained name ;; w ←- wrap m ;;
       init_slots map_cfg cfg None move side w) h
  | None, Some m, Some t =>
      (w ←- wrap m ;; init_slots map_cfg cfg (Some t) move side w) h
  | _, _, _ => Raise ValueError
  end.
Proof.
  destruct hf_model_name as [name|], model as [m|], tokenizer as [t|]; try reflexivity.
  unfold Adapter.__init__, Adapter.validate_args, Adapter.resolve_model, bind, ret; simpl.
  by destruct (from_pretrained name h) as [[m h1]| |].
Qed.

(** C8. With no tokenizer and no tokenizer name in the configuration the
    constructor never returns an object. Once the model is resolved it
    raises [AssertionError] when the vocabulary size is left at [-1], and
    [AttributeError] when a vocabulary size is declared: the slot
    [self.tokenizer] then holds [None], and line 191 reads
    [self.tokenizer.eos_token]. *)
Theorem no_tokenizer_never_constructs map_cfg cfg move side h :
  Adapter.tokenizer_name cfg = None →
  (∀ hf_model_name model r,
     __init__ map_cfg cfg hf_model_name model None move side h ≠ Ok r) ∧
  (∀ name m h', resolve_model (Some name) None None h = Ok (m, h') →
     __init__ map_cfg cfg (Some name) None None move side h =
     Raise (if bool_decide (Adapter.d_vocab cfg = (-1)%Z)
            then AssertionError else AttributeError)).
Proof.
  intros Hn. split.
  - intros hf_model_name model r. unfold Adapter.__init__, bind.
    destruct (Adapter.validate_args _ _ _ _) as [[[] h0]| |]; try done.
    destruct (Adapter.resolve_model _ _ _ _ _ _) as [[m h1]| |]; try done.
    by rewrite init_slots_no_tokenizer.
  - intros name m h' Hm. unfold Adapter.__init__, Adapter.validate_args, bind, ret.
    cbn [bool_decide decide_rel option_eq_None_dec is_Some_dec Bool.eqb orb].
    rewrite Hm. by rewrite init_slots_no_tokenizer.
Qed.

End construction.

Lemma no_tokenizer_never_constructs_witness :
  Adapter.tokenizer_name algorithmic_cfg = None ∧
  (∀ hf_model_name model r,
     Adapter.__init__ hub_model (auto_hook 3) hub_tokenizer keep_tokenizer [] None
       gpt2_map_cfg algorithmic_cfg hf_model_name model None true "right" [] ≠ Ok r) ∧
  (∀ name m h', Adapter.resolve_model hub_model (auto_hook 3) (Some name) None None [] = Ok (m, h') →
     Adapter.__init__ hub_model (auto_hook 3) hub_tokenizer keep_tokenizer [] None
       gpt2_map_cfg algorithmic_cfg (Some name) None None true "right" [] =
     Raise (if bool_decide (Adapter.d_vocab algorithmic_cfg = (-1)%Z)
            then AssertionError else AttributeError)).
Proof.
  split; [reflexivity|].
  apply (no_tokenizer_never_constructs hub_model (auto_hook 3) hub_tokenizer keep_tokenizer []
           None gpt2_map_cfg algorithmic_cfg true "right" []).
  reflexivity.
Defined.

(** The failing construction: a model name, no tokenizer, no tokenizer name,
    a declared vocabulary size. *)
Example no_tokenizer_with_vocabulary :
  Adapter.__init__ hub_model (auto_hook 3) hub_tokenizer keep_tokenizer [] None
    gpt2_map_cfg algorithmic_cfg (Some "gpt2") None None true "right" []
  = Raise AttributeError.
Proof. by vm_compute. Qed.

(** * Wrapping mutates the module in place *)




(** * Further properties of the engine *)

(** ** Computations that returned *)

Lemma bind_Ok {A B} (m : M A) (k : A → M B) h r :
  bind m k h = Ok r → ∃ a h1, m h = Ok (a, h1) ∧ k a h1 = Ok r.
Proof. unfold bind. destruct (m h) as [[a h1]| |]; [eauto|done..]. Qed.

Lemma update_Ok l f h r :
  update l f h = Ok r → ∃ o, h !! l = Some o ∧ r = (tt, <[l := f o]> h).
Proof. unfold update. destruct (h !! l) as [o|]; [|done]. intros [= <-]. eauto. Qed.

Lemma renamed_hook_impl a a' : renamed_hook a a' → a_impl a' = a_impl a.
Proof. by intros [->|[_ [nm ->]]]. Qed.

(** ** The wrapper is new, and the rest of the store is left alone *)



(** ** Parameters stay where they are *)

(** Wrapping neither copies nor moves a parameter: every module that
    receives a wrapper keeps its class, its parameters (the same tensors) and
    its own forward, and its wrapper, a new object, registers no parameter. *)
Theorem wrap_keeps_parameters t fuel h u :
  tree t → repr h t → budget t ≤ fuel → unit_of t u →
  ∃ H h' a' ms w ow,
    auto_hook fuel (root t) h = Ok (H, h') ∧
    h' !! root u = Some (Obj a' ms) ∧
    a_cls a' = t_cls u ∧ a_impl a' = a_impl (t_attrs u) ∧
    a_params a' = a_params (t_attrs u) ∧ a_forward a' = a_forward (t_attrs u) ∧
    List.length h ≤ w ∧ h' !! w = Some ow ∧ o_cls ow = HookedInstance ∧
    dict_get "_module" (o_modules ow) = Some (Some (root u)) ∧
    a_params (o_attrs ow) = [].
Proof.
  intros Ht Hr Hf Hu. destruct (auto_hook_tree t fuel h Ht Hr Hf) as (h' & Hrun & Hpost).
  destruct Hpost as (_ & Hw & _).
  destruct (wrapped_unit_of _ _ _ Hu _ _ Hw) as (n1 & n2 & Hn1 & Hn2 & Hwu).
  inversion Hwu as [? ? l a a' kids oH ms HH Hcls Hpar Hfw Hms Hhp Hren Hl Hk]; subst.
  exists (List.length h), h', a', ms, n1, oH. split; [done|]. split; [done|].
  split; [by apply renamed_hook_cls|]. split; [by apply renamed_hook_impl|].
  split; [by apply renamed_hook_params|]. split; [by apply renamed_hook_forward|].
  split; [done|]. split; [done|]. split; [done|]. split; [|done].
  rewrite Hms. cbn [dict_get root]. by rewrite decide_True.
Qed.

Lemma wrap_keeps_parameters_witness :
  tree SimpleModule_tree ∧ repr SimpleModule_heap SimpleModule_tree ∧
  budget SimpleModule_tree ≤ 5 ∧
  unit_of SimpleModule_tree (Node 1 (plain true [("weight", 0); ("bias", 1)]) []) ∧
  ∃ H h' a' ms w ow,
    auto_hook 5 (root SimpleModule_tree) SimpleModule_heap = Ok (H, h') ∧
    h' !! root (Node 1 (plain true [("weight", 0); ("bias", 1)]) []) = Some (Obj a' ms) ∧
    a_cls a' = t_cls (Node 1 (plain true [("weight", 0); ("bias", 1)]) []) ∧
    a_impl a' = a_impl (t_attrs (Node 1 (plain true [("weight", 0); ("bias", 1)]) [])) ∧
    a_params a' = a_params (t_attrs (Node 1 (plain true [("weight", 0); ("bias", 1)]) [])) ∧
    a_forward a' = a_forward (t_attrs (Node 1 (plain true [("weight", 0); ("bias", 1)]) [])) ∧
    List.length SimpleModule_heap ≤ w ∧ h' !! w = Some ow ∧ o_cls ow = HookedInstance ∧
    dict_get "_module" (o_modules ow) =
      Some (Some (root (Node 1 (plain true [("weight", 0); ("bias", 1)]) []))) ∧
    a_params (o_attrs ow) = [].
Proof.
  assert (unit_of SimpleModule_tree (Node 1 (plain true [("weight", 0); ("bias", 1)]) []))
    as Hu.
  { eapply unit_of_child; [apply elem_of_cons; left; reflexivity|discriminate|reflexivity|].
    apply unit_of_root. }
  split; [apply SimpleModule_tree_ok|]. split; [apply SimpleModule_repr|].
  split; [vm_compute; lia|]. split; [exact Hu|].
  apply (wrap_keeps_parameters SimpleModule_tree 5 SimpleModule_heap).
  - apply SimpleModule_tree_ok.
  - apply SimpleModule_repr.
  - vm_compute; lia.
  - exact Hu.
Defined.

(** ** What [list_all_hooks] lists *)

Lemma elem_of_dict_set {V} k (v : V) d s x :
  (s, x) ∈ dict_set k v d → (s, x) = (k, v) ∨ (s, x) ∈ d.
Proof.
  induction d as [|[k' v'] d IH]; cbn [dict_set].
  - intros [?|?%elem_of_nil]%elem_of_cons; [by left|done].
  - destruct (decide (k = k')) as [->|Hne].
    + intros [?|?]%elem_of_cons; [by left|]. right. apply elem_of_cons. by right.
    + intros [?|Hin]%elem_of_cons; [right; apply elem_of_cons; by left|].
      destruct (IH Hin); [by left|]. right. apply elem_of_cons. by right.
Qed.

Lemma dict_set_NoDup {V} k (v : V) d : NoDup d.*1 → NoDup (dict_set k v d).*1.
Proof.
  induction d as [|[k' v'] d IH]; cbn [dict_set fmap list_fmap fst].
  - intros _. apply NoDup_singleton.
  - intros [Hk Hnd]%NoDup_cons. destruct (decide (k = k')) as [->|Hne].
    + by apply NoDup_cons.
    + cbn [fmap list_fmap fst]. apply NoDup_cons. split; [|auto].
      rewrite dict_set_keys. intros [?|?]; done.
Qed.

Lemma collect_hooks_in h nm md hd s x :
  (s, x) ∈ (collect h nm md hd).2 →
  (s, x) ∈ hd ∨ ((s, x) ∈ nm ∧ s ≠ "" ∧ is_HookPoint h x = true).
Proof.
  revert md hd. induction nm as [|[name y] nm IH]; intros md hd; cbn [collect].
  - by left.
  - destruct (decide (name = "")) as [->|Hne].
    + intros Hin. destruct (IH _ _ Hin) as [?|(? & ? & ?)]; [by left|].
      right. split; [by apply elem_of_cons; right|done].
    + intros Hin. destruct (IH _ _ Hin) as [Hhd|(? & ? & ?)].
      * destruct (is_HookPoint h y) eqn:Hy; [|by left].
        apply elem_of_dict_set in Hhd as [?|?]; [|by left]. simplify_eq.
        right. split; [apply elem_of_cons; by left|done].
      * right. split; [by apply elem_of_cons; right|done].
Qed.

Lemma collect_NoDup h nm md hd : NoDup hd.*1 → NoDup (collect h nm md hd).2.*1.
Proof.
  revert md hd. induction nm as [|[name y] nm IH]; intros md hd Hnd; cbn [collect]; [done|].
  destruct (decide (name = "")); [by apply IH|]. apply IH.
  destruct (is_HookPoint h y); [by apply dict_set_NoDup|done].
Qed.

Lemma rename_loop_Ok nm : ∀ h h1,
  for_each nm (λ '(name, module),
                 if decide (name = "") then ret tt
                 else update module (set_name name)) h = Ok (tt, h1) →
  List.length h1 = List.length h ∧
  ∀ x o, h !! x = Some o →
         ∃ nmx, h1 !! x = Some (Obj (with_name nmx (o_attrs o)) (o_modules o)).
Proof.
  induction nm as [|[name y] nm IH]; intros h h1; cbn [for_each].
  - intros [= <-]. split; [done|]. intros x o Hx. exists (a_name (o_attrs o)).
    rewrite with_name_id. by destruct o.
  - intros (a & h0 & Hstep & Hrest)%bind_Ok. apply IH in Hrest as [Hlen Hrest].
    destruct (decide (name = "")) as [->|Hne].
    + injection Hstep as <- <-. done.
    + apply update_Ok in Hstep as (oy & Hy & [= -> ->]).
      rewrite length_insert in Hlen. split; [done|]. intros x o Hx.
      destruct (decide (x = y)) as [->|Hxy].
      * assert (o = oy) as -> by congruence.
        destruct (Hrest y (set_name name oy)) as [nmx Hx1].
        { rewrite list_lookup_insert_eq; [done|]. by eapply lookup_lt_heap. }
        exists nmx. by rewrite Hx1.
      * apply Hrest. by rewrite list_lookup_insert_ne.
Qed.

Lemma setup_Ok f self h h' :
  setup f self h = Ok (tt, h') →
  ∃ nm m h1 o1,
    named_modules f h self [] "" = Ok (nm, m) ∧
    List.length h1 = List.length h ∧
    (∀ x o, h !! x = Some o →
            ∃ nmx, h1 !! x = Some (Obj (with_name nmx (o_attrs o)) (o_modules o))) ∧
    h1 !! self = Some o1 ∧
    h' = <[self := set_dicts (collect h nm [] []).1 (collect h nm [] []).2 o1]> h1.
Proof.
  unfold setup. destruct (named_modules f h self [] "") as [[nm m]| |]; [|done..].
  intros (a & h1 & Hloop & Hupd)%bind_Ok. destruct a.
  apply rename_loop_Ok in Hloop as [Hlen Hloop].
  apply update_Ok in Hupd as (o1 & Ho1 & [= ->]).
  by exists nm, m, h1, o1.
Qed.

Lemma auto_hook_Ok fuel module h H h' :
  auto_hook fuel module h = Ok (H, h') →
  ∃ f h4 h5 o5,
    fuel = S f ∧ setup f H h4 = Ok (tt, h5) ∧ h5 !! H = Some o5 ∧
    h' = <[H := set_unwrap module o5]> h5.
Proof.
  destruct fuel as [|f]; [done|]. cbn [auto_hook].
  intros (Hooked & h5 & Hinit & Hrest)%bind_Ok.
  apply bind_Ok in Hrest as ([] & h6 & Hupd & [= <- <-]).
  apply update_Ok in Hupd as (o5 & Ho5 & [= ->]).
  unfold HookedInstance_init in Hinit.
  apply bind_Ok in Hinit as (self & h0 & _ & Hinit).
  apply bind_Ok in Hinit as (? & ? & _ & Hinit).
  apply bind_Ok in Hinit as (? & ? & _ & Hinit).
  apply bind_Ok in Hinit as (? & ? & _ & Hinit).
  apply bind_Ok in Hinit as (? & ? & _ & Hinit).
  apply bind_Ok in Hinit as (? & h4 & _ & Hinit).
  apply bind_Ok in Hinit as ([] & h5' & Hsetup & [= <- <-]).
  by exists f, h4, h5', o5.
Qed.

Lemma is_HookPoint_same (h h' : heap) x :
  o_cls <$> h' !! x = o_cls <$> h !! x → is_HookPoint h' x = is_HookPoint h x.
Proof.
  unfold is_HookPoint. destruct (h' !! x), (h !! x); intros [=]; try done.
  by match goal with H : o_cls _ = o_cls _ |- _ => rewrite H end.
Qed.

(** Whatever [auto_hook] is given, when it returns every entry of
    [list_all_hooks] of the wrapper is an observation point, and no name is
    listed twice. *)
Theorem listed_hooks_are_hook_points fuel module h H h' :
  auto_hook fuel module h = Ok (H, h') →
  Forall (λ e, is_HookPoint h' e.2 = true) (list_all_hooks h' H) ∧
  NoDup (hook_names h' H).
Proof.
  intros (f & h4 & h5 & o5 & -> & Hsetup & Ho5 & ->)%auto_hook_Ok.
  apply setup_Ok in Hsetup as (nm & m & h1 & o1 & Hnm & Hlen & Hh1 & Ho1 & ->).
  assert (H < List.length h1) as HH by (by eapply lookup_lt_heap).
  rewrite list_lookup_insert_eq in Ho5 by done. injection Ho5 as <-.
  unfold hook_names, list_all_hooks.
  rewrite list_lookup_insert_eq by (by rewrite length_insert).
  cbn [set_unwrap set_dicts o_attrs a_hook_dict]. split; [|by apply collect_NoDup, NoDup_nil].
  apply Forall_forall. intros [s x] Hin. cbn [snd].
  apply collect_hooks_in in Hin as [?%elem_of_nil|(_ & _ & Hx)]; [done|].
  rewrite <- Hx. apply is_HookPoint_same.
  assert (o_cls <$> h1 !! x = o_cls <$> h4 !! x) as Hcls.
  { destruct (h4 !! x) as [o|] eqn:Hox.
    - destruct (Hh1 _ _ Hox) as [nmx ->]. done.
    - apply lookup_ge_None in Hox. rewrite <- Hlen in Hox.
      apply lookup_ge_None in Hox. by rewrite Hox. }
  rewrite <- Hcls. destruct (decide (x = H)) as [->|Hne].
  - rewrite list_lookup_insert_eq by (by rewrite length_insert). by rewrite Ho1.
  - by rewrite !list_lookup_insert_ne.
Qed.

Lemma listed_hooks_are_hook_points_witness :
  ∃ H h',
    auto_hook 9 (root SimpleNestedModuleList_tree) SimpleNestedModuleList_heap = Ok (H, h') ∧
    Forall (λ e, is_HookPoint h' e.2 = true) (list_all_hooks h' H) ∧
    NoDup (hook_names h' H).
Proof.
  eexists _, _. split; [vm_compute; reflexivity|].
  apply (listed_hooks_are_hook_points 9 (root SimpleNestedModuleList_tree)
           SimpleNestedModuleList_heap).
  vm_compute; reflexivity.
Defined.

(** * Further properties of the adapter *)

(** ** Dotted attribute paths *)

Lemma split_dots_app cur a b :
  Adapter.split_dots cur (a +:+ "." +:+ b) =
  Adapter.split_dots cur a ++ Adapter.split_dots "" b.
Proof.
  revert cur. induction a as [|c a IH]; intros cur.
  - change ("" +:+ "." +:+ b) with (String "."%char b). cbn [Adapter.split_dots].
    by rewrite decide_True.
  - change (String c a +:+ "." +:+ b) with (String c (a +:+ "." +:+ b)).
    cbn [Adapter.split_dots].
    destruct (decide (c = "."%char)); [|by apply IH]. cbn [app]. f_equal. apply IH.
Qed.

Lemma append_cons c (s t : string) : String c s +:+ t = String c (s +:+ t).
Proof. done. Qed.

Lemma append_nil_r (s : string) : s +:+ "" = s.
Proof. induction s as [|c s IH]; [done|]. by rewrite append_cons, IH. Qed.

Lemma append_assoc_char (s : string) c t : (s +:+ String c "") +:+ t = s +:+ String c t.
Proof.
  induction s as [|d s IH]; [done|]. by rewrite !append_cons, IH.
Qed.

Lemma split_dots_no_dot cur a :
  ("."%char ∉ String.list_ascii_of_string a) → Adapter.split_dots cur a = [cur +:+ a].
Proof.
  revert cur. induction a as [|c a IH]; intros cur Hdot; cbn [Adapter.split_dots].
  - by rewrite append_nil_r.
  - cbn [String.list_ascii_of_string] in Hdot. apply not_elem_of_cons in Hdot as [Hc Hdot].
    rewrite decide_False by done. rewrite IH by done. by rewrite append_assoc_char.
Qed.

Lemma getattr_each_app obj l1 l2 h :
  Adapter.getattr_each obj (l1 ++ l2) h =
  (x ←- Adapter.getattr_each obj l1 ;; Adapter.getattr_each x l2) h.
Proof.
  revert obj h. induction l1 as [|a l1 IH]; intros obj h; cbn [app Adapter.getattr_each].
  - done.
  - unfold bind. destruct (Adapter.getattr obj a h) as [[o h1]| |]; [|done..].
    rewrite IH. done.
Qed.

Lemma getattr_read_only obj a h v h' : Adapter.getattr obj a h = Ok (v, h') → h' = h.
Proof.
  destruct obj as [l| |]; cbn [Adapter.getattr]; [|done..].
  intros (o & h1 & Hd & Hrest)%bind_Ok. unfold deref in Hd.
  destruct (h !! l) as [o0|]; [|done]. injection Hd as -> ->.
  destruct (dict_get a (a_params (o_attrs o))); [by injection Hrest as _ <-|].
  destruct (dict_get a (o_modules o)) as [[c|]|]; [by injection Hrest as _ <-..|done].
Qed.

Lemma getattr_each_read_only l : ∀ obj h v h',
  Adapter.getattr_each obj l h = Ok (v, h') → h' = h.
Proof.
  induction l as [|a l IH]; intros obj h v h'; cbn [Adapter.getattr_each].
  - by intros [= _ <-].
  - intros (o & h1 & Hg & Hrest)%bind_Ok. apply getattr_read_only in Hg as ->. by eapply IH.
Qed.

(** [_get_attr_recursively] follows a dotted path one component at a time:
    looking up [a.b] is looking up [a] and then [b] in what was found, a
    name without a dot is a plain [getattr], and no lookup changes the
    store. *)
Theorem get_attr_recursively_path obj h :
  (∀ a b, Adapter._get_attr_recursively obj (a +:+ "." +:+ b) h =
          (x ←- Adapter._get_attr_recursively obj a ;; Adapter._get_attr_recursively x b) h) ∧
  (∀ a, ("."%char ∉ String.list_ascii_of_string a) →
        Adapter._get_attr_recursively obj a h = Adapter.getattr obj a h) ∧
  (∀ a v h', Adapter._get_attr_recursively obj a h = Ok (v, h') → h' = h).
Proof.
  split; [|split].
  - intros a b. unfold Adapter._get_attr_recursively. rewrite split_dots_app.
    apply getattr_each_app.
  - intros a Hdot. unfold Adapter._get_attr_recursively. rewrite split_dots_no_dot by done.
    cbn [Adapter.getattr_each]. unfold bind, ret. change ("" +:+ a) with a.
    by destruct (Adapter.getattr obj a h) as [[o h1]| |].
  - intros a v h'. apply getattr_each_read_only.
Qed.

(** ** The block wrapper *)

(** a forward computation reads, of the store, the classes, whether the
    classes implement [forward], and the registered children *)
Lemma call_forward_agree {value} (cf : loc → list value → list (string * value) → value)
    (h h' : heap) :
  (∀ x, match h !! x, h' !! x with
        | Some o, Some o' =>
            o_cls o' = o_cls o ∧ a_impl (o_attrs o') = a_impl (o_attrs o) ∧
            o_modules o' = o_modules o
        | None, None => True
        | _, _ => False
        end) →
  ∀ f args kwargs, call_forward cf h' f args kwargs = call_forward cf h f args kwargs.
Proof.
  intros Hag.
  assert (∀ x, is_HookPoint h' x = is_HookPoint h x) as Hhp.
  { intros x. specialize (Hag x). unfold is_HookPoint.
    destruct (h !! x), (h' !! x); try done. destruct Hag as (-> & _). done. }
  induction f as [owner|self orig IH|orig IH]; intros args kwargs; cbn [call_forward].
  - specialize (Hag owner). destruct (h !! owner) as [o|], (h' !! owner) as [o'|]; try done.
    destruct Hag as (-> & -> & _). done.
  - rewrite IH. destruct (call_forward cf h orig args kwargs) as [[r tr]| |]; [|done..].
    unfold call_hook_point. specialize (Hag self).
    destruct (h !! self) as [o|], (h' !! self) as [o'|]; try done.
    destruct Hag as (_ & _ & ->).
    destruct (dict_get "hook_point" (o_modules o)) as [[hp|]|]; [|done..].
    by rewrite Hhp.
  - apply IH.
Qed.

Lemma wrap_blocks_all bs : ∀ h,
  (∀ k b, (k, Some b) ∈ bs → b < List.length h) →
  Forall (λ e, is_Some e.2) bs →
  ∃ h', Adapter.wrap_blocks bs h = Ok (omap snd bs, h') ∧
        List.length h' = List.length h ∧
        ∀ x o, h !! x = Some o →
          ∃ f, h' !! x = Some (if decide (x ∈ omap snd bs) then set_forward f o else o) ∧
               (x ∈ omap snd bs →
                ∀ value (cf : loc → list value → list (string * value) → value) h0 args kwargs,
                  call_forward cf h0 f args kwargs =
                  call_forward cf h0 (get_forward x o) args []).
Proof.
  induction bs as [|[k ob] bs IH]; intros h Hlt Hsome.
  - exists h. split; [done|]. split; [done|]. intros x o Hx. exists (get_forward x o).
    split; [done|]. by intros ?%elem_of_nil.
  - apply Forall_cons in Hsome as [[b Hb] Hsome]. cbn [snd] in Hb. subst ob.
    assert (b < List.length h) as Hblt by (eapply Hlt; apply elem_of_cons; by left).
    destruct (lookup_lt_is_Some_2 h b Hblt) as [ob Hob].
    set (h1 := <[b := set_forward (FStrip (get_forward b ob)) ob]> h).
    destruct (IH h1) as (h' & Hrun & Hlen & Hinv); [|done|].
    { intros k' b' Hin. unfold h1. rewrite length_insert. eapply Hlt.
      apply elem_of_cons. by right. }
    exists h'. split; [|split].
    + cbn [Adapter.wrap_blocks omap list_omap snd]. unfold bind, Adapter._wrap_block, bind, deref, update.
      rewrite Hob. cbn beta iota. rewrite Hob. fold h1. cbn [ret]. unfold ret at 1.
      by rewrite Hrun.
    + by rewrite Hlen; unfold h1; rewrite length_insert.
    + intros x o Hx. cbn [omap list_omap snd].
      destruct (decide (x = b)) as [->|Hne].
      * assert (o = ob) as -> by congruence.
        destruct (Hinv b (set_forward (FStrip (get_forward b ob)) ob)) as (f & Hf & Hcall).
        { unfold h1. by rewrite list_lookup_insert_eq. }
        assert (b ∈ b :: omap snd bs) as Hhead by (apply elem_of_cons; by left).
        destruct (decide (b ∈ omap snd bs)) as [Hin|Hnin].
        -- exists f. split; [by rewrite decide_True, Hf|].
           intros _ value cf h0 args kwargs. rewrite (Hcall Hin). done.
        -- exists (FStrip (get_forward b ob)). split; [by rewrite decide_True, Hf|]. done.
      * destruct (Hinv x o) as (f & Hf & Hcall).
        { unfold h1. by rewrite list_lookup_insert_ne. }
        exists f. split.
        -- rewrite Hf. destruct (decide (x ∈ omap snd bs)) as [Hin|Hnin].
           ++ rewrite decide_True; [done|]. apply elem_of_cons. by right.
           ++ rewrite decide_False; [done|]. intros [?|?]%elem_of_cons; done.
        -- intros [?|Hin]%elem_of_cons; [done|]. by apply Hcall.
Qed.

Lemma wrap_blocks_none bs : ∀ h,
  (∀ k b, (k, Some b) ∈ bs → b < List.length h) →
  ¬ Forall (λ e, is_Some e.2) bs →
  Adapter.wrap_blocks bs h = Raise AttributeError.
Proof.
  induction bs as [|[k [b|]] bs IH]; intros h Hlt Hnot; cbn [Adapter.wrap_blocks].
  - destruct Hnot. constructor.
  - assert (b < List.length h) as Hblt by (eapply Hlt; apply elem_of_cons; by left).
    destruct (lookup_lt_is_Some_2 h b Hblt) as [ob Hob].
    unfold bind, Adapter._wrap_block, bind, deref, update. rewrite Hob. cbn beta iota.
    rewrite Hob. unfold ret at 1. rewrite IH; [done| |].
    + intros k' b' Hin. rewrite length_insert. eapply Hlt. apply elem_of_cons. by right.
    + intros Hall. apply Hnot. apply Forall_cons. split; [by eexists|done].
  - done.
Qed.

(** The loop of [_get_model_blocks] over the blocks, all of which exist: it
    returns the blocks themselves, in order, and changes nothing but their
    attribute [forward]; afterwards a call of a block with keyword arguments
    gives what the call with the positional arguments alone gave before, also
    for a block listed more than once. An entry that is [None] makes the
    loop raise [AttributeError]. *)
Theorem wrap_blocks_spec bs h :
  (∀ k b, (k, Some b) ∈ bs → b < List.length h) →
  (Forall (λ e, is_Some e.2) bs →
   ∃ h', Adapter.wrap_blocks bs h = Ok (omap snd bs, h') ∧
         List.length h' = List.length h ∧
         (∀ x o, h !! x = Some o →
                 ∃ f, h' !! x = Some (if decide (x ∈ omap snd bs) then set_forward f o else o)) ∧
         (∀ value (cf : loc → list value → list (string * value) → value) b args kwargs,
            b ∈ omap snd bs → forward cf h' b args kwargs = forward cf h b args [])) ∧
  (¬ Forall (λ e, is_Some e.2) bs → Adapter.wrap_blocks bs h = Raise AttributeError).
Proof.
  intros Hlt. split; [|by apply wrap_blocks_none].
  intros Hsome. destruct (wrap_blocks_all bs h Hlt Hsome) as (h' & Hrun & Hlen & Hinv).
  exists h'. split; [done|]. split; [done|]. split.
  - intros x o Hx. destruct (Hinv x o Hx) as (f & Hf & _). by exists f.
  - intros value cf b args kwargs Hin.
    assert (b < List.length h) as Hblt.
    { apply list_elem_of_omap in Hin as ([k ob] & Hin & Hb). cbn [snd] in Hb. subst ob.
      by eapply Hlt. }
    destruct (lookup_lt_is_Some_2 h b Hblt) as [ob Hob].
    destruct (Hinv b ob Hob) as (f & Hf & Hcall). rewrite decide_True in Hf by done.
    unfold forward. rewrite Hf, Hob. unfold get_forward at 1.
    cbn [set_forward o_attrs a_forward]. rewrite (Hcall Hin).
    apply call_forward_agree. intros x.
    destruct (h !! x) as [o|] eqn:Hx.
    + destruct (Hinv x o Hx) as (fx & -> & _). by destruct (decide _).
    + apply lookup_ge_None in Hx. rewrite <- Hlen in Hx. apply lookup_ge_None in Hx.
      by rewrite Hx.
Qed.

Lemma wrap_blocks_spec_witness :
  ∃ h', Adapter.wrap_blocks [("0", Some 1); ("1", Some 2); ("2", Some 1)] WithHook_heap
          = Ok ([1; 2; 1], h') ∧
        ∀ args kwargs,
          forward (λ _ _ _, 0) h' 2 args kwargs = forward (λ _ _ _, 0) WithHook_heap 2 args [].
Proof.
  destruct (wrap_blocks_spec [("0", Some 1); ("1", Some 2); ("2", Some 1)] WithHook_heap)
    as [Hall _].
  { intros k b Hin. cbn.
    repeat (apply elem_of_cons in Hin as [Hin|Hin]; [injection Hin as -> ->; lia|]).
    by apply elem_of_nil in Hin. }
  destruct Hall as (h' & Hrun & _ & _ & Hfwd).
  { repeat constructor; by eexists. }
  exists h'. split; [exact Hrun|].
  intros args kwargs. apply Hfwd. cbn. apply elem_of_cons. right. apply elem_of_cons. by left.
Defined.

(** ** The naming pass of the adapter *)

Lemma adapter_rename_loop hd : ∀ h,
  (∀ k x, (k, x) ∈ hd → x < List.length h) →
  ∃ h', for_each hd (λ '(name, hook_point), update hook_point (set_name name)) h
          = Ok (tt, h') ∧
        List.length h' = List.length h ∧
        ∀ x ox, h !! x = Some ox →
          ∃ nm, h' !! x = Some (Obj (with_name nm (o_attrs ox)) (o_modules ox)) ∧
                (x ∉ hd.*2 → nm = a_name (o_attrs ox)) ∧
                (∀ l1 k l2, hd = (l1 ++ (k, x) :: l2)%list → x ∉ l2.*2 → nm = Some k).
Proof.
  induction hd as [|[k0 x0] hd IH]; intros h Hlt.
  - exists h. split; [done|]. split; [done|]. intros x ox Hx.
    exists (a_name (o_attrs ox)). split; [by destruct ox as [[]]|]. split; [done|].
    intros l1 k l2 Heq. by destruct l1.
  - assert (x0 < List.length h) as Hx0 by (eapply Hlt; apply elem_of_cons; by left).
    destruct (lookup_lt_is_Some_2 h x0 Hx0) as [o0 Ho0].
    destruct (IH (<[x0 := set_name k0 o0]> h)) as (h' & Hrun & Hlen & Hinv).
    { intros k x Hin. rewrite length_insert. eapply Hlt. apply elem_of_cons. by right. }
    exists h'. split; [|split].
    + cbn [for_each]. unfold bind at 1. unfold update at 1. by rewrite Ho0.
    + by rewrite Hlen, length_insert.
    + intros x ox Hx. destruct (decide (x = x0)) as [->|Hne].
      * assert (ox = o0) as -> by congruence.
        destruct (Hinv x0 (set_name k0 o0)) as (nm & Hnm & Hout & Hlast).
        { by rewrite list_lookup_insert_eq. }
        exists nm. split; [by rewrite Hnm|]. split.
        -- intros Hnin. destruct Hnin. cbn. apply elem_of_cons. by left.
        -- intros l1 k l2 Heq Hnin. destruct l1 as [|e l1].
           ++ injection Heq as -> <-. by rewrite (Hout Hnin).
           ++ injection Heq as _ Heq. by eapply Hlast.
      * destruct (Hinv x ox) as (nm & Hnm & Hout & Hlast).
        { by rewrite list_lookup_insert_ne. }
        exists nm. split; [done|]. split.
        -- intros Hnin. apply Hout. intros Hin. apply Hnin. cbn. apply elem_of_cons. by right.
        -- intros l1 k l2 Heq Hnin. destruct l1 as [|e l1].
           ++ by injection Heq as _ ->.
           ++ injection Heq as _ Heq. by eapply Hlast.
Qed.

(** The override [setup] of the adapter, on a model whose [hook_dict] lists
    objects of the store: it returns the two dictionaries of the model, and
    the only thing it changes in the store is the name of the objects
    [hook_dict] lists; each of them ends up named by the key of the last
    entry that lists it. *)
Theorem adapter_setup_names model h o :
  h !! model = Some o →
  (∀ k x, (k, x) ∈ a_hook_dict (o_attrs o) → x < List.length h) →
  ∃ h', Adapter.setup model h = Ok ((a_hook_dict (o_attrs o), a_mod_dict (o_attrs o)), h') ∧
        List.length h' = List.length h ∧
        ∀ x ox, h !! x = Some ox →
          ∃ nm, h' !! x = Some (Obj (with_name nm (o_attrs ox)) (o_modules ox)) ∧
                (x ∉ (a_hook_dict (o_attrs o)).*2 → nm = a_name (o_attrs ox)) ∧
                (∀ l1 k l2, a_hook_dict (o_attrs o) = (l1 ++ (k, x) :: l2)%list →
                            x ∉ l2.*2 → nm = Some k).
Proof.
  intros Hm Hlt.
  destruct (adapter_rename_loop (a_hook_dict (o_attrs o)) h Hlt) as (h' & Hrun & Hlen & Hinv).
  exists h'. split; [|done].
  unfold Adapter.setup, bind at 1, deref. rewrite Hm. cbn beta iota.
  unfold bind. by rewrite Hrun.
Qed.

Lemma adapter_setup_names_witness :
  ∃ h', Adapter.setup 0 TinyLM_heap
          = Ok (([("transformer.h.0.hook_point", 8)], [("transformer.h.0", 5)]), h') ∧
        ∃ nm, h' !! 8 = Some (Obj (with_name nm (o_attrs (fresh_obj HookPoint))) []) ∧
              nm = Some "transformer.h.0.hook_point".
Proof.
  destruct (adapter_setup_names 0 TinyLM_heap
              (Obj (Attrs nn_Module true [] None None None
                      [("transformer.h.0.hook_point", 8)] [("transformer.h.0", 5)])
                 [("transformer", Some 1); ("lm_head", Some 6)]))
    as (h' & Hrun & _ & Hinv).
  { reflexivity. }
  { intros k x Hin. apply elem_of_cons in Hin as [Hin|Hin].
    - injection Hin as -> ->. cbn. lia.
    - by apply elem_of_nil in Hin. }
  exists h'. split; [exact Hrun|].
  destruct (Hinv 8 (fresh_obj HookPoint)) as (nm & Hnm & _ & Hlast); [reflexivity|].
  exists nm. split; [exact Hnm|].
  apply (Hlast [] "transformer.h.0.hook_point" []); [reflexivity|].
  by intros ?%elem_of_nil.
Defined.

(** ** What a constructed adapter holds *)

Lemma kept_refl h : kept h h.
Proof. intros x o Hx. by exists o. Qed.

Lemma kept_trans h1 h2 h3 :
  kept h1 h2 → kept h2 h3 → kept h1 h3.
Proof.
  intros H12 H23 x o Hx. destruct (H12 x o Hx) as (o2 & Hx2 & Hc2 & Hp2 & Hm2).
  destruct (H23 x o2 Hx2) as (o3 & Hx3 & Hc3 & Hp3 & Hm3). exists o3.
  split_and!; congruence.
Qed.

Lemma kept_alloc o h : kept h (h ++ [o]).
Proof. intros x ox Hx. exists ox. split; [|done]. by apply lookup_app_l_Some. Qed.

Lemma kept_insert l f h o :
  h !! l = Some o →
  o_cls (f o) = o_cls o → a_params (o_attrs (f o)) = a_params (o_attrs o) →
  o_modules (f o) = o_modules o →
  kept h (<[l := f o]> h).
Proof.
  intros Hl Hc Hp Hm x ox Hx. destruct (decide (x = l)) as [->|Hne].
  - exists (f o). rewrite list_lookup_insert_eq by (by eapply lookup_lt_Some).
    assert (ox = o) as -> by congruence. done.
  - exists ox. by rewrite list_lookup_insert_ne.
Qed.

Lemma kept_hook h h' x :
  kept h h' → is_HookPoint h x = true → is_HookPoint h' x = true.
Proof.
  intros Hs. unfold is_HookPoint. destruct (h !! x) as [o|] eqn:Hx; [|done].
  destruct (Hs x o Hx) as (o' & -> & -> & _). done.
Qed.

Lemma opt_Ok {A} b (m : M A) h r h' :
  Adapter.opt b m h = Ok (r, h') →
  (b = true ∧ ∃ a, r = Some a ∧ m h = Ok (a, h')) ∨ (b = false ∧ r = None ∧ h' = h).
Proof.
  destruct b; cbn [Adapter.opt].
  - intros (a & h1 & Hm & [= <- <-])%bind_Ok. left. eauto.
  - intros [= <- <-]. by right.
Qed.

Lemma wrap_blocks_kept bs : ∀ h r h',
  Adapter.wrap_blocks bs h = Ok (r, h') → kept h h'.
Proof.
  induction bs as [|[k [b|]] bs IH]; intros h r h'; cbn [Adapter.wrap_blocks].
  - intros [= _ <-]. apply kept_refl.
  - intros (b' & h1 & Hb & (rest & h2 & Hrest & [= _ <-])%bind_Ok)%bind_Ok.
    eapply kept_trans; [|by eapply IH].
    unfold Adapter._wrap_block in Hb.
    apply bind_Ok in Hb as (o & h0 & Hd & (u & h3 & Hu & [= _ <-])%bind_Ok).
    unfold deref in Hd. destruct (h !! b) as [ob|] eqn:Hob; [|done]. injection Hd as <- <-.
    apply update_Ok in Hu as (o' & Ho' & [= _ ->]).
    by apply kept_insert.
  - done.
Qed.

Lemma get_model_blocks_kept model map_cfg h r h' :
  Adapter._get_model_blocks model map_cfg h = Ok (r, h') → kept h h'.
Proof.
  unfold Adapter._get_model_blocks.
  intros (v & h1 & Hv & Hrest)%bind_Ok. apply getattr_each_read_only in Hv as ->.
  destruct v as [l| |]; [|done..].
  apply bind_Ok in Hrest as (o & h1 & Hd & Hrest).
  unfold deref in Hd. destruct (h !! l) as [ol|]; [|done]. injection Hd as <- <-.
  destruct (o_cls ol); try done.
  - by eapply wrap_blocks_kept.
  - by eapply wrap_blocks_kept.
  - destruct (o_modules ol); [|done]. injection Hrest as _ <-. apply kept_refl.
Qed.

Lemma adapter_rename_Ok hd : ∀ h u h',
  for_each hd (λ '(name, hook_point), update hook_point (set_name name)) h = Ok (u, h') →
  List.length h' = List.length h ∧
  ∀ x ox, h !! x = Some ox →
    ∃ nm, h' !! x = Some (Obj (with_name nm (o_attrs ox)) (o_modules ox)).
Proof.
  induction hd as [|[k0 x0] hd IH]; intros h u h'; cbn [for_each].
  - intros [= _ <-]. split; [done|]. intros x ox Hx. exists (a_name (o_attrs ox)).
    by destruct ox as [[]].
  - intros ([] & h1 & (o0 & Ho0 & [= ->])%update_Ok & Hrest)%bind_Ok.
    apply IH in Hrest as [Hlen Hinv]. split; [by rewrite Hlen, length_insert|].
    intros x ox Hx. destruct (decide (x = x0)) as [->|Hne].
    + assert (ox = o0) as -> by congruence.
      destruct (Hinv x0 (set_name k0 o0)) as (nm & Hnm).
      { rewrite list_lookup_insert_eq; [done|]. by eapply lookup_lt_Some. }
      exists nm. by rewrite Hnm.
    + apply Hinv. by rewrite list_lookup_insert_ne.
Qed.

Lemma adapter_setup_Ok model h d h' :
  Adapter.setup model h = Ok (d, h') →
  kept h h' ∧
  ∃ o', h' !! model = Some o' ∧ d = (a_hook_dict (o_attrs o'), a_mod_dict (o_attrs o')).
Proof.
  unfold Adapter.setup. intros (o & h1 & Hd & Hrest)%bind_Ok.
  unfold deref in Hd. destruct (h !! model) as [om|] eqn:Hm; [|done]. injection Hd as <- <-.
  apply bind_Ok in Hrest as (u & h2 & Hloop & [= <- <-]).
  apply adapter_rename_Ok in Hloop as [Hlen Hinv]. split.
  - intros x ox Hx. destruct (Hinv x ox Hx) as (nm & Hnm). eexists. split; [done|]. done.
  - destruct (Hinv model om Hm) as (nm & Hnm). eauto.
Qed.

Section constructed.
Variable from_pretrained : string → M loc.
Variable wrap : loc → M loc.
Variable tokenizer_from_pretrained : string → bool → bool → option string → M Adapter.Tokenizer.
Variable set_tokenizer : Adapter.Tokenizer → string → Adapter.Tokenizer.
Variable non_hf_hosted : list string.
Variable hf_token : option string.

End constructed.


(** * Further properties of the helpers *)

(** ** Forward detection sees through a wrapper *)

Lemma repr_kid h t k c : repr h t → (k, Some c) ∈ t_kids t → repr h c.
Proof.
  inversion 1 as [l a kids Hl Hk]; subst. cbn [t_kids]. intros Hin.
  rewrite Forall_forall in Hk. by apply (Hk _ Hin).
Qed.

Lemma repr_unit_of h t u : unit_of t u → repr h t → repr h u.
Proof.
  induction 1 as [t|t k c u Hin Hc1 Hc2 Hu IH|t k c ke e u Hin Hc Hine Hu IH]; intros Hr.
  - done.
  - apply IH. by eapply repr_kid.
  - apply IH. eapply repr_kid; [|done]. by eapply repr_kid.
Qed.

(** After wrapping, [has_implemented_forward] gives, on the wrapper of any
    module of the tree whose forward is the one of its class, and on that
    module itself, what it gave on the module before: whether the class
    implements [forward]. *)
Theorem wrapper_has_implemented_forward t fuel h u :
  tree t → repr h t → budget t ≤ fuel → unit_of t u → a_forward (t_attrs u) = None →
  has_implemented_forward h (root u) = a_impl (t_attrs u) ∧
  ∃ H h' w,
    auto_hook fuel (root t) h = Ok (H, h') ∧
    is_wrapper_of h' w (root u) ∧
    has_implemented_forward h' w = a_impl (t_attrs u) ∧
    has_implemented_forward h' (root u) = a_impl (t_attrs u).
Proof.
  intros Ht Hr Hf Hu Hfw. split.
  - pose proof (repr_unit_of _ _ _ Hu Hr) as Hru. inversion Hru as [l a kids Hl Hk]; subst.
    unfold has_implemented_forward. cbn [root t_attrs] in *. rewrite Hl.
    unfold get_forward. cbn [o_attrs]. rewrite Hfw. cbn [forward_source_implemented].
    by rewrite Hl.
  - destruct (auto_hook_tree t fuel h Ht Hr Hf) as (h' & Hrun & Hpost).
    destruct Hpost as (_ & Hw & _).
    destruct (wrapped_unit_of _ _ _ Hu _ _ Hw) as (n1 & n2 & Hn1 & Hn2 & Hwu).
    inversion Hwu as [? ? l a a' kids oH ms HH Hcls Hpar HfwH Hms Hhp Hren Hl Hk]; subst.
    cbn [root t_attrs] in *.
    exists (List.length h), h', n1. split; [done|]. split; [|split].
    + exists oH. split; [done|]. split; [done|]. rewrite Hms. cbn [dict_get].
      by rewrite decide_True.
    + unfold has_implemented_forward. rewrite HH. unfold get_forward at 1. rewrite HfwH.
      unfold get_forward. cbn [o_attrs forward_source_implemented]. rewrite Hfw.
      cbn [forward_source_implemented]. rewrite Hl. cbn [o_attrs].
      by apply renamed_hook_impl.
    + unfold has_implemented_forward. rewrite Hl. unfold get_forward. cbn [o_attrs].
      rewrite (renamed_hook_forward _ _ Hren), Hfw. cbn [forward_source_implemented].
      rewrite Hl. cbn [o_attrs]. by apply renamed_hook_impl.
Qed.

Lemma wrapper_has_implemented_forward_witness :
  has_implemented_forward SimpleModule_heap 1 = true ∧
  ∃ H h' w,
    auto_hook 5 0 SimpleModule_heap = Ok (H, h') ∧
    is_wrapper_of h' w 1 ∧
    has_implemented_forward h' w = true ∧
    has_implemented_forward h' 1 = true.
Proof.
  apply (wrapper_has_implemented_forward SimpleModule_tree 5 SimpleModule_heap
           (Node 1 (plain true [("weight", 0); ("bias", 1)]) [])).
  - apply SimpleModule_tree_ok.
  - apply SimpleModule_repr.
  - vm_compute. lia.
  - eapply unit_of_child; [apply elem_of_cons; left; reflexivity|discriminate|reflexivity|].
    apply unit_of_root.
  - reflexivity.
Defined.

(** ** Expected hook names *)

Lemma expected_children_cons h rec prefix name module cs :
  expected_children h rec prefix ((name, module) :: cs) =
  match h !! module with
  | None => Undef
  | Some o =>
      match (if is_container (o_cls o)
             then expected_elems rec (is_ordered (o_cls o)) (join prefix name) 0 (o_modules o)
             else Ok []) with
      | Ok l1 =>
          match rec module (join prefix name) with
          | Ok l2 =>
              match expected_children h rec prefix cs with
              | Ok l3 =>
                  Ok ((if negb (ends_with ".hook_point" (join prefix name)) &&
                          has_implemented_forward h module
                       then [join prefix name +:+ ".hook_point"] else []) ++ l1 ++ l2 ++ l3)
              | Raise e => Raise e
              | Undef => Undef
              end
          | Raise e => Raise e
          | Undef => Undef
          end
      | Raise e => Raise e
      | Undef => Undef
      end
  end.
Proof. reflexivity. Qed.

Lemma kids_hooks_in p kids k c s :
  (k, Some c) ∈ kids → s ∈ kid_hooks p k c → s ∈ kids_hooks p kids.
Proof.
  induction kids as [|[k' [c'|]] kids IH]; intros Hin Hs; cbn [kids_hooks].
  - by apply elem_of_nil in Hin.
  - apply elem_of_app. apply elem_of_cons in Hin as [Heq|Hin].
    + injection Heq as <- <-. by left.
    + right. by apply IH.
  - apply elem_of_cons in Hin as [Heq|Hin]; [done|]. by apply IH.
Qed.

Lemma elems_hooks_in c p kids k e s : ∀ i,
  (is_ordered c = true → kids.*1 = pretty <$> seq i (List.length kids)) →
  (k, Some e) ∈ kids → s ∈ hooks_of (join p k) e → s ∈ elems_hooks c p i kids.
Proof.
  induction kids as [|[k' [e'|]] kids IH]; intros i Hkeys Hin Hs; cbn [elems_hooks].
  - by apply elem_of_nil in Hin.
  - apply elem_of_app. apply elem_of_cons in Hin as [Heq|Hin].
    + injection Heq as <- <-. left. destruct (is_ordered c); [|done].
      specialize (Hkeys eq_refl). cbn in Hkeys. by injection Hkeys as -> _.
    + right. apply IH; [|done..]. intros Ho. specialize (Hkeys Ho). cbn in Hkeys.
      by injection Hkeys as _ ->.
  - apply elem_of_cons in Hin as [Heq|Hin]; [done|]. apply IH; [|done..].
    intros Ho. specialize (Hkeys Ho). cbn in Hkeys. by injection Hkeys as _ ->.
Qed.

Lemma plain_tree_inv l a kids :
  plain_tree (Node l a kids) →
  a_cls a ≠ HookPoint ∧ has_hp (Node l a kids) = false ∧
  (is_container (a_cls a) = true →
   a_forward a = None ∧ a_impl a = false ∧ Forall (λ e, is_Some e.2) kids ∧
   (is_ordered (a_cls a) = true → kids.*1 = pretty <$> seq 0 (List.length kids))) ∧
  ∀ k c, (k, Some c) ∈ kids → plain_tree c.
Proof.
  inversion 1 as [? ? ? H1 H2 H3 H4]; subst. split; [done|]. split; [done|]. split; [done|].
  intros k c Hin. rewrite Forall_forall in H4. by apply (H4 _ Hin).
Qed.

(** what the names found below [t] under the prefix [q] are, for the engine *)
Lemma expected_below q t s k c :
  plain_tree t → (k, Some c) ∈ t_kids t →
  s ∈ kid_hooks q k c → s ∈ hooks_of (join q k) c →
  s ∈ hooks_of q t ∧ ∀ p k0, q = join p k0 → s ∈ kid_hooks p k0 t.
Proof.
  destruct t as [l a kids]. intros (Hhp & _ & Hcont & _)%plain_tree_inv Hin Hkid Hunit.
  cbn [t_kids] in Hin. split.
  - rewrite hooks_of_node. apply elem_of_app. left. by eapply kids_hooks_in.
  - intros p k0 ->. destruct (is_container (a_cls a)) eqn:Hc.
    + rewrite kid_hooks_container by done. cbn [t_cls t_attrs t_kids].
      destruct (Hcont eq_refl) as (_ & _ & _ & Hkeys). by eapply elems_hooks_in.
    + rewrite kid_hooks_unit by done. cbn [t_cls t_attrs]. rewrite decide_False by done.
      rewrite hooks_of_node. apply elem_of_app. left. by eapply kids_hooks_in.
Qed.

Section expected.
Variable h : heap.
Variable N : nat.

Local Abbreviation expected_ok t :=
  (∀ q fuel, height t ≤ fuel →
     ∃ l, generate_expected_hookpoints fuel h (root t) q = Ok l ∧
          ∀ s, s ∈ l → s ∈ hooks_of q t ∧ ∀ p k, q = join p k → s ∈ kid_hooks p k t).

Hypothesis IH : ∀ t, height t < N → wf t → NoDup (locs t) → plain_tree t → repr h t →
  expected_ok t.

Lemma expected_elems_loop c fn fuel elems : ∀ i,
  fn ≠ "" →
  (∀ k e, (k, e) ∈ elems → is_Some e) →
  (∀ k e, (k, Some e) ∈ elems →
     height e < N ∧ height e ≤ fuel ∧ wf e ∧ NoDup (locs e) ∧ plain_tree e ∧ repr h e) →
  ∃ l, expected_elems (generate_expected_hookpoints fuel h) (is_ordered c) fn i
         (kid_ref <$> elems) = Ok l ∧
       ∀ s, s ∈ l →
         s ∈ elems_hooks c fn i elems ∧
         ∃ j k e, elems !! j = Some (k, Some e) ∧
                  s ∈ kid_hooks fn (if is_ordered c then pretty (i + j) else k) e.
Proof.
  intros i Hfn. revert i.
  induction elems as [|[k [e|]] elems IHe]; intros i Hsome Hel.
  - exists []. split; [done|]. by intros s ?%elem_of_nil.
  - destruct (Hel k e) as (HN & Hf & Hwf & Hnd & Hpl & Hr); [apply elem_of_cons; by left|].
    destruct (IH e HN Hwf Hnd Hpl Hr
                (fn +:+ "." +:+ (if is_ordered c then pretty i else k)) fuel Hf)
      as (l1 & Hl1 & Hin1).
    destruct (IHe (S i)) as (l2 & Hl2 & Hin2).
    { intros k' e' Hin. eapply Hsome. apply elem_of_cons. by right. }
    { intros k' e' Hin. apply (Hel k'). apply elem_of_cons. by right. }
    exists (l1 ++ l2). split.
    + rewrite kid_ref_cons_some. cbn [expected_elems]. by rewrite Hl1, Hl2.
    + intros s [Hs|Hs]%elem_of_app.
      * destruct (Hin1 s Hs) as [Hh Hk]. split.
        -- cbn [elems_hooks]. apply elem_of_app. left. unfold join at 1.
           by rewrite decide_False.
        -- exists 0, k, e. split; [done|]. rewrite Nat.add_0_r. apply Hk.
           unfold join. by rewrite decide_False.
      * destruct (Hin2 s Hs) as [Hh (j & k' & e' & Hj & Hk)]. split.
        -- cbn [elems_hooks]. apply elem_of_app. by right.
        -- exists (S j), k', e'. split; [done|]. by rewrite Nat.add_succ_r.
  - destruct (Hsome k None) as [? ?]; [apply elem_of_cons; by left|done].
Qed.

Lemma expected_children_loop q fuel kids :
  NoDup (kids_locs kids) →
  (∀ k c, (k, Some c) ∈ kids →
     k ≠ "" ∧ height c < N ∧ height c ≤ fuel ∧ wf c ∧ NoDup (locs c) ∧ plain_tree c ∧
     repr h c) →
  ∃ l, expected_children h (generate_expected_hookpoints fuel h) q
         (some_children (kid_ref <$> kids)) = Ok l ∧
       ∀ s, s ∈ l →
         ∃ k c, (k, Some c) ∈ kids ∧ s ∈ kid_hooks q k c ∧ s ∈ hooks_of (join q k) c.
Proof.
  induction kids as [|[k [c|]] kids IHk]; intros Hnd Hk.
  - exists []. split; [done|]. by intros s ?%elem_of_nil.
  - destruct (Hk k c) as (Hne & HN & Hf & Hwf & Hndc & Hpl & Hr); [apply elem_of_cons; by left|].
    apply NoDup_kids_locs_cons in Hnd as (_ & Hndk & _).
    destruct IHk as (l3 & Hl3 & Hin3); [done| |].
    { intros k' c' Hin. apply (Hk k'). apply elem_of_cons. by right. }
    destruct c as [lc ac es]. pose proof Hr as [Hlc Hes]%repr_inv.
    pose proof Hpl as (Hhook & Hnhp & Hcont & Hples)%plain_tree_inv.
    pose proof (join_nonempty q k Hne) as Hfn.
    (* the names below the child *)
    destruct (IH _ HN Hwf Hndc Hpl Hr (join q k) fuel Hf) as (l2 & Hl2 & Hin2).
    cbn [root] in Hl2.
    (* the names below the elements of a container *)
    assert (∃ l1, (if is_container (a_cls ac)
                   then expected_elems (generate_expected_hookpoints fuel h)
                          (is_ordered (a_cls ac)) (join q k) 0 (kid_ref <$> es)
                   else Ok []) = Ok l1 ∧
                  ∀ s, s ∈ l1 → s ∈ kid_hooks q k (Node lc ac es) ∧
                                s ∈ hooks_of (join q k) (Node lc ac es)) as (l1 & Hl1 & Hin1).
    { destruct (is_container (a_cls ac)) eqn:Hc.
      - destruct (Hcont eq_refl) as (_ & _ & Hsome & Hkeys).
        destruct (expected_elems_loop (a_cls ac) (join q k) fuel es 0 Hfn) as (l1 & Hl1 & Hin1).
        { intros k' e' Hin. rewrite Forall_forall in Hsome. by apply (Hsome _ Hin). }
        { intros k' e' Hin. pose proof (kheight_elem _ _ _ Hin) as Hh.
          rewrite height_node in HN, Hf.
          pose proof Hwf as (_ & _ & Hwfk)%wf_inv. destruct (Hwfk _ _ Hin) as [Hwfe _].
          split; [lia|]. split; [lia|]. split; [done|]. split; [|split; [by eapply Hples|by eapply Hes]].
          assert (tree e') as [_ ?]; [|done]. by eapply (tree_kid lc ac es). }
        exists l1. split; [done|]. intros s Hs. destruct (Hin1 s Hs) as [Hel (j & k' & e' & Hj & Hkid)].
        split.
        + by rewrite kid_hooks_container.
        + rewrite hooks_of_node. apply elem_of_app. left.
          eapply (kids_hooks_in _ _ (if is_ordered (a_cls ac) then pretty (0 + j) else k') e');
            [|done].
          destruct (is_ordered (a_cls ac)) eqn:Ho; [|by eapply list_elem_of_lookup_2].
          specialize (Hkeys eq_refl).
          assert (k' = pretty j) as ->.
          { assert (es.*1 !! j = Some k') as Hkj by (by rewrite list_lookup_fmap, Hj).
            rewrite Hkeys, list_lookup_fmap in Hkj.
            rewrite lookup_seq_lt in Hkj by (by eapply lookup_lt_Some).
            by injection Hkj as <-. }
          by eapply list_elem_of_lookup_2.
      - exists []. split; [done|]. by intros s ?%elem_of_nil. }
    eexists. split.
    + rewrite kid_ref_cons_some, some_children_cons_some, expected_children_cons.
      cbn [root]. rewrite Hlc. unfold o_cls. cbn [o_attrs o_modules]. rewrite Hl1, Hl2, Hl3. done.
    + intros s [Hs|[Hs|[Hs|Hs]%elem_of_app]%elem_of_app]%elem_of_app.
      * exists k, (Node lc ac es). split; [apply elem_of_cons; by left|].
        destruct (negb (ends_with ".hook_point" (join q k)) &&
                  has_implemented_forward h lc) eqn:Hown; [|by apply elem_of_nil in Hs].
        apply list_elem_of_singleton in Hs as ->.
        assert (join q k +:+ ".hook_point" ∈ hooks_of (join q k) (Node lc ac es)) as Hown'.
        { rewrite hooks_of_node, Hnhp. apply elem_of_app. right.
          apply list_elem_of_singleton. unfold join at 2. by rewrite decide_False. }
        split; [|done].
        destruct (is_container (a_cls ac)) eqn:Hc.
        -- destruct (Hcont eq_refl) as (Hfw & Himpl & _).
           apply andb_true_iff in Hown as [_ Himp]. unfold has_implemented_forward in Himp.
           rewrite Hlc in Himp. unfold get_forward in Himp. cbn [o_attrs] in Himp.
           rewrite Hfw in Himp. cbn [forward_source_implemented] in Himp.
           rewrite Hlc in Himp. cbn [o_attrs] in Himp. congruence.
        -- rewrite kid_hooks_unit by done. cbn [t_cls t_attrs]. by rewrite decide_False.
      * exists k, (Node lc ac es). split; [apply elem_of_cons; by left|]. by apply Hin1.
      * exists k, (Node lc ac es). split; [apply elem_of_cons; by left|].
        destruct (Hin2 s Hs) as [Hh Hkid]. split; [by apply Hkid|done].
      * destruct (Hin3 s Hs) as (k' & c' & Hin & Hkid & Hh).
        exists k', c'. split; [apply elem_of_cons; by right|done].
  - destruct IHk as (l3 & Hl3 & Hin3).
    { by rewrite kids_locs_cons in Hnd. }
    { intros k' c' Hin. apply (Hk k'). apply elem_of_cons. by right. }
    exists l3. split; [by rewrite kid_ref_cons_none, some_children_cons_none|].
    intros s Hs. destruct (Hin3 s Hs) as (k' & c' & Hin & ?).
    exists k', c'. split; [apply elem_of_cons; by right|done].
Qed.
End expected.

Lemma expected_tree h t :
  wf t → NoDup (locs t) → plain_tree t → repr h t →
  ∀ q fuel, height t ≤ fuel →
    ∃ l, generate_expected_hookpoints fuel h (root t) q = Ok l ∧
         ∀ s, s ∈ l → s ∈ hooks_of q t ∧ ∀ p k, q = join p k → s ∈ kid_hooks p k t.
Proof.
  remember (height t) as N eqn:HN. revert t HN.
  induction (lt_wf N) as [N _ IH]. intros [l a kids] HN Hwf Hnd Hpl Hr q fuel Hf.
  rewrite height_node in HN. destruct fuel as [|fuel]; [lia|].
  pose proof Hr as [Hl Hkids]%repr_inv.
  pose proof Hwf as Hwf'. inversion Hwf' as [? ? ? _ Hnames _ _]; subst.
  rewrite locs_node in Hnd. apply NoDup_cons in Hnd as [_ Hnd].
  destruct (expected_children_loop h (S (kheight kids))
              (λ t Ht Hwft Hndt Hplt Hrt, IH (height t) Ht t eq_refl Hwft Hndt Hplt Hrt)
              q fuel kids Hnd) as (out & Hout & Hin).
  { intros k c Hin. pose proof (kheight_elem _ _ _ Hin) as Hh.
    pose proof Hwf as (_ & _ & Hwfk)%wf_inv. destruct (Hwfk _ _ Hin) as [Hwfc _].
    pose proof Hpl as (_ & _ & _ & Hplk)%plain_tree_inv.
    rewrite Forall_forall in Hnames.
    split; [by apply (Hnames _ Hin)|]. split; [lia|]. split; [lia|]. split; [done|].
    split; [|split; [by eapply Hplk|by eapply Hkids]].
    clear -Hnd Hin. induction kids as [|[k' oc] kids IHk]; [by apply elem_of_nil in Hin|].
    apply elem_of_cons in Hin as [Heq|Hin].
    - injection Heq as <- <-. by apply NoDup_kids_locs_cons in Hnd as (? & _ & _).
    - apply IHk; [|done]. rewrite kids_locs_cons in Hnd. by apply NoDup_app in Hnd as (_ & _ & ?). }
  exists out. split.
  - cbn [generate_expected_hookpoints root]. rewrite Hl. unfold named_children.
    cbn [o_modules]. rewrite named_children_from_some;
      [done|by apply NoDup_kid_roots|by intros ?? ?%elem_of_nil].
  - intros s Hs. destruct (Hin s Hs) as (k & c & Hkc & Hkid & Hh).
    by eapply expected_below.
Qed.



(** * A module with an attribute [hook_point] *)

Lemma OwnHook_tree_ok : tree OwnHook_tree.
Proof. solve_tree. Qed.

Lemma OwnHook_repr : repr OwnHook_heap OwnHook_tree.
Proof. solve_repr. Qed.



(** * The names the naming pass gives *)

Lemma one_name_nil : one_name [].
Proof. by intros s s' x ?%elem_of_nil. Qed.

Lemma one_name_cons s x out :
  one_name out → (∀ s', (s', x) ∈ out → s' = s) → one_name ((s, x) :: out).
Proof.
  intros Hout Hx s1 s2 y [Heq1|Hin1]%elem_of_cons [Heq2|Hin2]%elem_of_cons.
  - congruence.
  - injection Heq1 as -> ->. symmetry. by apply Hx.
  - injection Heq2 as -> ->. by apply Hx.
  - by eapply Hout.
Qed.

Lemma one_name_app out1 out2 :
  one_name out1 → one_name out2 →
  (∀ s s' x, (s, x) ∈ out1 → (s', x) ∈ out2 → False) →
  one_name (out1 ++ out2).
Proof.
  intros H1 H2 Hdis s s' x [Hin1|Hin1]%elem_of_app [Hin2|Hin2]%elem_of_app.
  - by eapply H1.
  - by destruct (Hdis _ _ _ Hin1 Hin2).
  - by destruct (Hdis _ _ _ Hin2 Hin1).
  - by eapply H2.
Qed.

(** two traversals of neighbouring parts of a wrapped store meet no common
    object *)
Lemma nm_ok_apart h n n1 n' L1 L2 memo hooks1 hooks2 out1 memo1 out2 memo2 s s' x :
  n ≤ n1 →
  (∀ x, x ∈ L1 ++ L2 → x < n) →
  (∀ x, x ∈ L1 → x ∉ L2) →
  nm_ok h n n1 L1 memo hooks1 out1 memo1 →
  nm_ok h n1 n' L2 memo1 hooks2 out2 memo2 →
  (s, x) ∈ out1 → (s', x) ∈ out2 → False.
Proof.
  intros Hn Hlt Hdis (_ & Ho1 & _) (_ & Ho2 & _) Hin1 Hin2.
  destruct (Ho1 _ _ Hin1) as [Hx1 [Hx1'|[Hx1' _]]], (Ho2 _ _ Hin2) as [Hx2 [Hx2'|[Hx2' _]]].
  - lia.
  - assert (x < n); [|lia]. apply Hlt, elem_of_app. by right.
  - assert (x < n); [|lia]. apply Hlt, elem_of_app. by left.
  - by eapply Hdis.
Qed.

Lemma named_modules_one_name_mut h :
  (∀ n n' t, wrapped h n n' t →
     ∀ fuel memo prefix,
       2 * height t ≤ fuel → (∀ x, x ∈ locs t → x < n) → NoDup (locs t) →
       memo_ok n n' (locs t) memo →
       nm_one (named_modules fuel h n memo prefix)) ∧
  (∀ n n' ms kids, wrapped_kids h n n' ms kids →
     ∀ f memo prefix,
       2 * kheight kids ≤ f → (∀ x, x ∈ kids_locs kids → x < n) → NoDup (kids_locs kids) →
       memo_ok n n' (kids_locs kids) memo →
       nm_one (hooked_children h (named_modules f h) prefix (some_children ms) memo)) ∧
  (∀ n n' i c ms es, wrapped_elems h n n' i c ms es →
     ∀ f memo prefix,
       2 * kheight es ≤ f → (∀ x, x ∈ kids_locs es → x < n) → NoDup (kids_locs es) →
       memo_ok n n' (kids_locs es) memo →
       nm_one (plain_children (named_modules f h) prefix ms memo)).
Proof.
  pose proof (named_modules_wrapped_mut h) as (Hold & Hold_kids & Hold_elems).
  apply wrapped_mutind.
  - intros n n' l a a' kids oH ms HH Hcls Hpar Hfw Hms Hhp Hren Hl Hk IH
      fuel memo prefix Hfuel Hlt Hnd Hmemo.
    rewrite height_node in Hfuel. destruct fuel as [|f]; [lia|].
    pose proof (wrapped_kids_range _ _ _ _ _ Hk) as Hr.
    assert (n < (if has_hp (Node l a kids) then S n else S (S n))) as Hn1
        by (destruct (has_hp (Node l a kids)); lia).
    assert (∀ x, x ∈ kids_locs kids → x < n) as Hlt'
        by (intros x Hx; by apply Hlt, locs_kids).
    rewrite locs_node in Hnd. apply NoDup_cons in Hnd as [Hl_nin Hndk].
    destruct (wrapped_kids_values _ _ _ _ _ Hk) as [Hvnd Hvals]; [intros; etrans; eauto; lia|done|].
    cbn [named_modules]. rewrite HH.
    destruct (decide (n ∈ memo)) as [Hin|_]; [destruct (Hmemo _ Hin); lia|].
    rewrite Hcls, Hms. cbn [dict_get]. rewrite decide_True by done. rewrite Hl.
    unfold named_children. cbn [o_modules].
    rewrite named_children_from_some; [|done|by intros ?? ?%elem_of_nil].
    assert (memo_ok (if has_hp (Node l a kids) then S n else S (S n)) n' (kids_locs kids)
              (n :: memo)) as Hmemo'.
    { intros x [->|Hx]%elem_of_cons.
      - split; [lia|]. intros Hin. specialize (Hlt' _ Hin). lia.
      - destruct (Hmemo _ Hx) as [Hx1 Hx2]. split; [lia|].
        intros Hin. apply Hx2. by apply locs_kids. }
    destruct (Hold_kids _ _ _ _ Hk f (n :: memo) prefix)
      as (out & memo' & Hrun & Hm' & Hout & Hhooks);
      [lia|intros; etrans; eauto; lia|done|done|].
    specialize (IH f (n :: memo) prefix).
    rewrite Hrun in IH |- *. cbn [nm_one] in IH.
    assert (one_name out) as Hone.
    { apply IH; [lia|intros; etrans; eauto; lia|done|done]. }
    assert (∀ s x, (s, x) ∈ out → x ≠ n ∧ (has_hp (Node l a kids) = false → x ≠ S n)) as Hfar.
    { intros s x Hin. destruct (Hout _ _ Hin) as [_ [Hx|[Hx _]]].
      - split; [lia|]. intros Hb. rewrite Hb in Hx. lia.
      - specialize (Hlt' _ Hx). split; [lia|]. lia. }
    rewrite hasattr_no_params by done. rewrite Hms. rewrite decide_False by done.
    rewrite dict_has_cons_ne by done.
    destruct (has_hp (Node l a kids)) eqn:Hb.
    + rewrite dict_has_nil. cbn [nm_one]. apply one_name_cons; [done|].
      intros s' Hin. by destruct (Hfar _ _ Hin).
    + rewrite dict_has_cons_eq. cbn [dict_get]. rewrite decide_True by done.
      cbn [nm_one]. apply one_name_cons.
      * apply one_name_app; [done| |].
        -- apply one_name_cons; [apply one_name_nil|]. by intros s' ?%elem_of_nil.
        -- intros s s' x Hin Hin'%list_elem_of_singleton. injection Hin' as -> ->.
           destruct (Hfar _ _ Hin) as [_ Hne]. by apply Hne.
      * intros s' [Hin|Hin%list_elem_of_singleton]%elem_of_app.
        -- by destruct (Hfar _ _ Hin).
        -- injection Hin as _ Hin. lia.
  - intros n f memo prefix _ _ _ _. apply one_name_nil.
  - intros n n' k ms kids Hk IH f memo prefix Hf Hlt Hnd Hmemo.
    rewrite kheight_cons_none in Hf. rewrite kids_locs_cons in *.
    by apply IH.
  - intros n n' k c a' ms kids Hc Hren Hl Hk IH f memo prefix Hf Hlt Hnd Hmemo.
    rewrite kheight_cons_some in Hf. pose proof (height_pos c).
    pose proof (wrapped_kids_range _ _ _ _ _ Hk) as Hr.
    pose proof Hnd as (Hndc & Hndk & Hdis)%NoDup_kids_locs_cons.
    rewrite kids_locs_cons in Hlt, Hmemo.
    assert (root c < n) as Hrc by (apply Hlt, elem_of_app; left; apply root_in_locs).
    assert (root c ∉ memo) as Hrm.
    { intros Hin. destruct (Hmemo _ Hin) as [_ Hnin]. apply Hnin, elem_of_app. left.
      apply root_in_locs. }
    assert (a_cls a' = HookPoint) as Hcls' by (by rewrite (renamed_hook_cls _ _ Hren)).
    change (some_children ((k, Some (root c)) :: ms)) with ((k, root c) :: some_children ms).
    cbn [hooked_children]. rewrite decide_False by done. rewrite Hl.
    unfold o_cls at 1. cbn [o_attrs]. rewrite Hcls'.
    destruct f as [|f]; [lia|].
    rewrite (named_modules_plain f h (root c) (Obj a' [])); [|done| |done].
    2:{ unfold o_cls. cbn [o_attrs]. by rewrite Hcls'. }
    cbn [plain_children o_modules].
    assert (memo_ok n n' (kids_locs kids) (root c :: memo)) as Hmemo'.
    { eapply (memo_ok_next n n n' (locs c)); [lia|done|done|done|].
      intros x [->|?]%elem_of_cons; [right; right; apply root_in_locs|by left]. }
    destruct (Hold_kids _ _ _ _ Hk (S f) (root c :: memo) prefix)
      as (out & memo' & Hrun & _ & Hout & _);
      [lia|by intros; apply Hlt, elem_of_app; right|done|done|].
    specialize (IH (S f) (root c :: memo) prefix).
    rewrite Hrun in IH |- *. cbn [nm_one] in IH |- *.
    assert (one_name out) as Hone.
    { apply IH; [lia|by intros; apply Hlt, elem_of_app; right|done|done]. }
    assert (∀ s, (s, root c) ∉ out) as Hfar.
    { intros s Hin. destruct (Hout _ _ Hin) as [_ [Hx|[Hx _]]]; [lia|].
      eapply Hdis; [apply root_in_locs|done]. }
    cbn [app]. apply one_name_cons.
    + apply one_name_cons; [done|]. intros s' Hin. by destruct (Hfar s').
    + intros s' [Heq|Hin]%elem_of_cons; [congruence|]. by destruct (Hfar s').
  - intros n n1 n' k c oc ms kids Hc Hl Hcls He IHe Hk IHk f memo prefix Hf Hlt Hnd Hmemo.
    rewrite kheight_cons_some in Hf.
    pose proof (wrapped_elems_range _ _ _ _ _ _ _ He) as Hr1.
    pose proof (wrapped_kids_range _ _ _ _ _ Hk) as Hr2.
    pose proof Hnd as (Hndc & Hndk & Hdis)%NoDup_kids_locs_cons.
    rewrite kids_locs_cons in Hlt, Hmemo.
    destruct c as [lc ac es]. rewrite height_node in Hf. rewrite locs_node in Hndc.
    apply NoDup_cons in Hndc as [Hlc Hnde].
    unfold t_cls in Hc, Hcls, He. cbn [t_attrs t_kids] in Hc, Hcls, He, IHe.
    assert (n ∉ memo) as Hnm by (intros Hin; destruct (Hmemo _ Hin); lia).
    change (some_children ((k, Some n) :: ms)) with ((k, n) :: some_children ms).
    cbn [hooked_children]. rewrite decide_False by done. rewrite Hl.
    destruct f as [|f]; [lia|].
    rewrite (named_modules_plain f h n oc); [|done| |done].
    2:{ rewrite Hcls. by destruct (a_cls ac). }
    assert (∀ x, x ∈ kids_locs es → x < S n) as HltE.
    { intros x Hx. assert (x < n); [|lia]. apply Hlt, elem_of_app. left. by apply locs_kids. }
    assert (memo_ok (S n) n1 (kids_locs es) (n :: memo)) as HmemoE.
    { intros x [->|Hx]%elem_of_cons.
      - split; [lia|]. intros Hin. assert (n < n); [|lia].
        apply Hlt, elem_of_app. left. by apply locs_kids.
      - destruct (Hmemo _ Hx) as [? Hnin]. split; [lia|]. intros Hin.
        apply Hnin, elem_of_app. left. by apply locs_kids. }
    destruct (Hold_elems _ _ _ _ _ _ He f (n :: memo) (join prefix k))
      as (outE & memoE & HrE & HokE); [lia|done|done|done|].
    specialize (IHe f (n :: memo) (join prefix k)). rewrite HrE in IHe |- *.
    cbn [nm_one] in IHe.
    assert (one_name outE) as HoneE by (apply IHe; [lia|done|done|done]).
    assert (∀ x, x ∈ memoE → x ∈ memo ∨ n ≤ x < n1 ∨ x ∈ locs (Node lc ac es)) as HmE.
    { destruct HokE as (Hm & _ & _).
      intros x Hx. destruct (Hm _ Hx) as [[->|?]%elem_of_cons|[?|?]].
      - right. left. lia.
      - by left.
      - right. left. lia.
      - right. right. by apply locs_kids. }
    replace (match o_cls oc with
             | HookedInstance => []
             | _ => [(join prefix k, n)]
             end) with [(join prefix k, n)] by (rewrite Hcls; by destruct (a_cls ac)).
    assert (∀ x, x ∈ kids_locs kids → x < n1) as HltK.
    { intros x Hx. assert (x < n); [|lia]. apply Hlt, elem_of_app. by right. }
    assert (memo_ok n1 n' (kids_locs kids) memoE) as HmemoK.
    { eapply (memo_ok_next n n1 n' (locs (Node lc ac es))); [lia|done|done|done|done]. }
    destruct (Hold_kids _ _ _ _ Hk (S f) memoE prefix) as (out & memo' & Hrun & Hok);
      [lia|done|done|done|].
    specialize (IHk (S f) memoE prefix). rewrite Hrun in IHk |- *.
    cbn [nm_one] in IHk |- *.
    assert (one_name out) as Hone by (apply IHk; [lia|done|done|done]).
    destruct HokE as (_ & HoE & _). destruct Hok as (_ & Ho & _).
    assert (∀ s, (s, n) ∉ outE) as HfarE.
    { intros s Hin. destruct (HoE _ _ Hin) as [_ [Hx|[Hx _]]]; [lia|].
      specialize (HltE _ Hx). assert (n < n); [|lia].
      apply Hlt, elem_of_app. left. by apply locs_kids. }
    assert (∀ s, (s, n) ∉ out) as Hfar.
    { intros s Hin. destruct (Ho _ _ Hin) as [_ [Hx|[Hx _]]]; [lia|].
      assert (n < n); [|lia]. apply Hlt, elem_of_app. by right. }
    cbn [app]. apply one_name_cons; [apply one_name_cons|].
    + apply one_name_app; [done|done|].
      intros s s' x Hin1 Hin2.
      destruct (HoE _ _ Hin1) as [Hx1 [Hx1'|[Hx1' _]]], (Ho _ _ Hin2) as [Hx2 [Hx2'|[Hx2' _]]].
      * lia.
      * specialize (HltK _ Hx2'). assert (x < n); [|lia]. apply Hlt, elem_of_app. by right.
      * specialize (HltE _ Hx1'). assert (x < n); [|lia].
        apply Hlt, elem_of_app. left. by apply locs_kids.
      * eapply Hdis; [|done]. by apply locs_kids.
    + intros s' [Hin|Hin]%elem_of_app; [by destruct (HfarE s')|by destruct (Hfar s')].
    + intros s' [Heq|[Hin|Hin]%elem_of_app]%elem_of_cons;
        [congruence|by destruct (HfarE s')|by destruct (Hfar s')].
  - intros n n1 n' k c ms kids Hc1 Hc2 Hw IHw Hk IHk f memo prefix Hf Hlt Hnd Hmemo.
    rewrite kheight_cons_some in Hf.
    pose proof (wrapped_range _ _ _ _ Hw) as Hr1.
    pose proof (wrapped_kids_range _ _ _ _ _ Hk) as Hr2.
    pose proof Hnd as (Hndc & Hndk & Hdis)%NoDup_kids_locs_cons.
    rewrite kids_locs_cons in Hlt, Hmemo.
    assert (n ∉ memo) as Hnm by (intros Hin; destruct (Hmemo _ Hin); lia).
    change (some_children ((k, Some n) :: ms)) with ((k, n) :: some_children ms).
    cbn [hooked_children]. rewrite decide_False by done.
    assert (∃ oH, h !! n = Some oH ∧ o_cls oH = HookedInstance) as (oH & HH & Hcls).
    { inversion Hw; subst. eauto. }
    rewrite HH, Hcls.
    assert (∀ x, x ∈ locs c → x < n) as HltU.
    { intros x Hx. apply Hlt, elem_of_app. by left. }
    assert (memo_ok n n1 (locs c) memo) as HmemoU.
    { intros x Hx. destruct (Hmemo _ Hx) as [? Hnin]. split; [lia|].
      intros Hin. apply Hnin, elem_of_app. by left. }
    destruct (Hold _ _ _ Hw f memo (join prefix k)) as (outU & memoU & HrU & HokU);
      [lia|done|done|done|].
    specialize (IHw f memo (join prefix k)). rewrite HrU in IHw |- *. cbn [nm_one] in IHw.
    assert (one_name outU) as HoneU by (apply IHw; [lia|done|done|done]).
    assert (∀ x, x ∈ kids_locs kids → x < n1) as HltK.
    { intros x Hx. assert (x < n); [|lia]. apply Hlt, elem_of_app. by right. }
    assert (memo_ok n1 n' (kids_locs kids) memoU) as HmemoK.
    { eapply (memo_ok_next n n1 n' (locs c)); [lia|done|done|done|]. apply HokU. }
    destruct (Hold_kids _ _ _ _ Hk f memoU prefix) as (out & memo' & Hrun & Hok);
      [lia|done|done|done|].
    specialize (IHk f memoU prefix). rewrite Hrun in IHk |- *. cbn [nm_one] in IHk |- *.
    assert (one_name out) as Hone by (apply IHk; [lia|done|done|done]).
    cbn [app]. apply one_name_app; [done|done|].
    intros s s' x. eapply (nm_ok_apart h n n1 n'); [lia|exact Hlt|exact Hdis|exact HokU|exact Hok].
  - intros n i c f memo prefix _ _ _ _. apply one_name_nil.
  - intros n n1 n' i c k e ms es Hw IHw He IHe f memo prefix Hf Hlt Hnd Hmemo.
    rewrite kheight_cons_some in Hf.
    pose proof (wrapped_range _ _ _ _ Hw) as Hr1.
    pose proof (wrapped_elems_range _ _ _ _ _ _ _ He) as Hr2.
    pose proof Hnd as (Hndc & Hndk & Hdis)%NoDup_kids_locs_cons.
    rewrite kids_locs_cons in Hlt, Hmemo.
    cbn [plain_children].
    assert (∀ x, x ∈ locs e → x < n) as HltU.
    { intros x Hx. apply Hlt, elem_of_app. by left. }
    assert (memo_ok n n1 (locs e) memo) as HmemoU.
    { intros x Hx. destruct (Hmemo _ Hx) as [? Hnin]. split; [lia|].
      intros Hin. apply Hnin, elem_of_app. by left. }
    destruct (Hold _ _ _ Hw f memo (join prefix (if is_ordered c then pretty i else k)))
      as (outU & memoU & HrU & HokU); [lia|done|done|done|].
    specialize (IHw f memo (join prefix (if is_ordered c then pretty i else k))).
    rewrite HrU in IHw |- *. cbn [nm_one] in IHw.
    assert (one_name outU) as HoneU by (apply IHw; [lia|done|done|done]).
    assert (∀ x, x ∈ kids_locs es → x < n1) as HltK.
    { intros x Hx. assert (x < n); [|lia]. apply Hlt, elem_of_app. by right. }
    assert (memo_ok n1 n' (kids_locs es) memoU) as HmemoK.
    { eapply (memo_ok_next n n1 n' (locs e)); [lia|done|done|done|]. apply HokU. }
    destruct (Hold_elems _ _ _ _ _ _ He f memoU prefix) as (out & memo' & Hrun & Hok);
      [lia|done|done|done|].
    specialize (IHe f memoU prefix). rewrite Hrun in IHe |- *. cbn [nm_one] in IHe |- *.
    assert (one_name out) as Hone by (apply IHe; [lia|done|done|done]).
    apply one_name_app; [done|done|].
    intros s s' x. eapply (nm_ok_apart h n n1 n'); [lia|exact Hlt|exact Hdis|exact HokU|exact Hok].
Qed.

(** the traversal reads the classes, the parameters and the children *)
Lemma hooked_children_agree h h' rec rec' prefix :
  same_cores h h' →
  (∀ m memo p, rec' m memo p = rec m memo p) →
  ∀ cs memo, hooked_children h' rec' prefix cs memo = hooked_children h rec prefix cs memo.
Proof.
  intros Hag Hrec. induction cs as [|[name module] cs IH]; intros memo; cbn [hooked_children].
  - done.
  - destruct (decide (module ∈ memo)); [done|]. specialize (Hag module).
    destruct (h !! module) as [o|], (h' !! module) as [o'|]; try done.
    destruct Hag as (-> & _). rewrite Hrec.
    destruct (rec module memo (join prefix name)) as [[out memo']| |]; [|done..].
    by rewrite IH.
Qed.

Lemma plain_children_agree rec rec' prefix :
  (∀ m memo p, rec' m memo p = rec m memo p) →
  ∀ ms memo, plain_children rec' prefix ms memo = plain_children rec prefix ms memo.
Proof.
  intros Hrec. induction ms as [|[name [module|]] ms IH]; intros memo; cbn [plain_children].
  - done.
  - rewrite Hrec. destruct (rec module memo (join prefix name)) as [[out memo']| |]; [|done..].
    by rewrite IH.
  - done.
Qed.

Lemma named_modules_agree h h' :
  same_cores h h' →
  ∀ fuel self memo prefix,
    named_modules fuel h' self memo prefix = named_modules fuel h self memo prefix.
Proof.
  intros Hag. induction fuel as [|fuel IH]; intros self memo prefix; [done|].
  cbn [named_modules]. pose proof (Hag self) as Hself.
  destruct (h !! self) as [o|], (h' !! self) as [o'|]; try done.
  destruct Hself as (Hc & Hp & _ & Hm). destruct (decide (self ∈ memo)); [done|].
  rewrite Hc, Hm. destruct (o_cls o).
  1-5: by rewrite (plain_children_agree (named_modules fuel h) (named_modules fuel h')).
  destruct (dict_get "_module" (o_modules o)) as [[m|]|]; [|done..].
  pose proof (Hag m) as Hm'.
  destruct (h !! m) as [om|], (h' !! m) as [om'|]; try done.
  destruct Hm' as (_ & _ & _ & Hmm). unfold named_children. rewrite Hmm.
  rewrite (hooked_children_agree h h' (named_modules fuel h) (named_modules fuel h'))
    by done.
  unfold hasattr. by rewrite Hp, Hm.
Qed.

Lemma one_name_tail e out : one_name (e :: out) → one_name out.
Proof.
  intros Hone s s' x Hin Hin'. apply (Hone s s' x); apply elem_of_cons; by right.
Qed.

(** the loop of [setup]: an object listed under one name gets that name *)
Lemma rename_loop_names nm : ∀ h h1,
  for_each nm (λ '(name, module),
                 if decide (name = "") then ret tt
                 else update module (set_name name)) h = Ok (tt, h1) →
  one_name nm →
  (∀ s x, (s, x) ∈ nm → s ≠ "" →
          ∃ o, h1 !! x = Some o ∧ a_name (o_attrs o) = Some s) ∧
  (∀ x o, h !! x = Some o → x ∉ nm.*2 → h1 !! x = Some o).
Proof.
  induction nm as [|[name y] nm IH]; intros h h1; cbn [for_each].
  - intros [= <-] _. split; [by intros s x ?%elem_of_nil|done].
  - intros (a & h0 & Hstep & Hrest)%bind_Ok Hone.
    destruct (IH _ _ Hrest (one_name_tail _ _ Hone)) as [Hnames Hkeep].
    assert (∀ x, x ∉ ((name, y) :: nm).*2 → x ≠ y ∧ x ∉ nm.*2) as Hsplit.
    { intros x Hnin. split.
      - intros ->. apply Hnin. cbn. apply elem_of_cons. by left.
      - intros Hin. apply Hnin. cbn. apply elem_of_cons. by right. }
    split.
    + intros s x [Heq|Hin]%elem_of_cons Hs; [|by apply Hnames].
      injection Heq as -> ->. rewrite decide_False in Hstep by done.
      apply update_Ok in Hstep as (oy & Hoy & [= _ ->]).
      destruct (decide (y ∈ nm.*2)) as [Hy|Hy].
      * apply list_elem_of_fmap in Hy as ([s' y'] & Heq & Hin). cbn in Heq. subst y'.
        assert (name = s') as <-.
        { apply (Hone name s' y); [apply elem_of_cons; by left|apply elem_of_cons; by right]. }
        by apply Hnames.
      * exists (set_name name oy). split; [|done]. apply Hkeep; [|done].
        rewrite list_lookup_insert_eq; [done|]. by eapply lookup_lt_Some.
    + intros x o Hx Hnin. destruct (Hsplit _ Hnin) as [Hne Hnin'].
      apply Hkeep; [|done]. destruct (decide (name = "")) as [->|Hs].
      * by injection Hstep as _ <-.
      * apply update_Ok in Hstep as (oy & Hoy & [= _ ->]).
        by rewrite list_lookup_insert_ne.
Qed.

Lemma setup_Ok_loop f self h h' :
  setup f self h = Ok (tt, h') →
  ∃ nm m h1 o1,
    named_modules f h self [] "" = Ok (nm, m) ∧
    for_each nm (λ '(name, module),
                   if decide (name = "") then ret tt
                   else update module (set_name name)) h = Ok (tt, h1) ∧
    h1 !! self = Some o1 ∧
    h' = <[self := set_dicts (collect h nm [] []).1 (collect h nm [] []).2 o1]> h1.
Proof.
  unfold setup. destruct (named_modules f h self [] "") as [[nm m]| |]; [|done..].
  intros (a & h1 & Hloop & Hupd)%bind_Ok. destruct a.
  apply update_Ok in Hupd as (o1 & Ho1 & [= ->]).
  by exists nm, m, h1, o1.
Qed.

Lemma NoDup_values {V} (l : list (string * V)) :
  NoDup l.*1 → (∀ s s' x, (s, x) ∈ l → (s', x) ∈ l → s = s') → NoDup l.*2.
Proof.
  induction l as [|[k v] l IH]; cbn [fmap list_fmap fst snd]; [constructor|].
  intros [Hk Hnd]%NoDup_cons Hone. apply NoDup_cons. split.
  - intros ([k' v'] & Heq & Hin)%list_elem_of_fmap. cbn in Heq. subst v'.
    apply Hk. apply list_elem_of_fmap. exists (k', v). split; [|done]. cbn.
    apply (Hone k k' v); [apply elem_of_cons; by left|apply elem_of_cons; by right].
  - apply IH; [done|]. intros s s' x Hin Hin'.
    apply (Hone s s' x); apply elem_of_cons; by right.
Qed.

(** Every hook [list_all_hooks] gives for a wrapped model is an observation
    point whose [name] is the key it is listed under, and no observation
    point is listed twice. *)
Theorem hook_names_are_keys t fuel h :
  tree t → repr h t → budget t ≤ fuel →
  ∃ H h',
    auto_hook fuel (root t) h = Ok (H, h') ∧
    (∀ s x, (s, x) ∈ list_all_hooks h' H →
            ∃ o, h' !! x = Some o ∧ o_cls o = HookPoint ∧ a_name (o_attrs o) = Some s) ∧
    NoDup (list_all_hooks h' H).*2.
Proof.
  intros Ht Hr Hf. pose proof Ht as [Hwf Hnd].
  destruct (auto_hook_tree t fuel h Ht Hr Hf) as (h' & Hrun & Hpost).
  destruct Hpost as (_ & Hw & _).
  exists (List.length h), h'. split; [done|].
  apply auto_hook_Ok in Hrun as (f & h4 & h5 & o5 & -> & Hsetup & Ho5 & ->).
  apply setup_Ok_loop in Hsetup as (nm & m & h1 & o1 & Hnm & Hloop & Ho1 & ->).
  set (H := List.length h) in *.
  set (md := (collect h4 nm [] []).1) in *. set (hd := (collect h4 nm [] []).2) in *.
  assert (H < List.length h1) as HH by (by eapply lookup_lt_heap).
  rewrite list_lookup_insert_eq in Ho5 by done. injection Ho5 as <-.
  pose proof (rename_loop_Ok _ _ _ Hloop) as [Hlen1 Hh1].
  set (h' := <[H := set_unwrap (root t) (set_dicts md hd o1)]> (<[H := set_dicts md hd o1]> h1))
    in *.
  (* the stores before and after the naming pass *)
  assert (∀ x o, h1 !! x = Some o →
            ∃ o', h' !! x = Some o' ∧ same_core o o' ∧
                  a_name (o_attrs o') = a_name (o_attrs o)) as Hh'.
  { intros x o Hx. unfold h'. destruct (decide (x = H)) as [->|Hne].
    - rewrite list_lookup_insert_eq by (by rewrite length_insert).
      assert (o = o1) as -> by congruence. eexists. split; [done|]. done.
    - rewrite !list_lookup_insert_ne by done. exists o. done. }
  assert (same_cores h4 h') as Hag.
  { intros x. destruct (h4 !! x) as [o|] eqn:Hx.
    - destruct (Hh1 _ _ Hx) as [nmx Hx1]. destruct (Hh' _ _ Hx1) as (o' & -> & Hcore & _).
      eapply same_core_trans; [|done]. apply same_core_with_name.
    - apply lookup_ge_None in Hx. rewrite <- Hlen1 in Hx.
      rewrite (proj2 (lookup_ge_None h' x)); [done|]. unfold h'. by rewrite !length_insert. }
  rewrite <- (named_modules_agree h4 h' Hag) in Hnm.
  assert (one_name nm) as Hone.
  { pose proof (proj1 (named_modules_one_name_mut h') _ _ _ Hw f [] "") as Hone.
    rewrite Hnm in Hone. apply Hone.
    - unfold budget in Hf. lia.
    - intros x Hx. by eapply repr_locs_lt.
    - done.
    - by intros x ?%elem_of_nil. }
  destruct (rename_loop_names _ _ _ Hloop Hone) as [Hnames _].
  assert (list_all_hooks h' H = hd) as Hlist.
  { unfold list_all_hooks, h'. by rewrite list_lookup_insert_eq by (by rewrite length_insert). }
  rewrite Hlist.
  assert (∀ s x, (s, x) ∈ hd →
            ∃ o, h' !! x = Some o ∧ o_cls o = HookPoint ∧ a_name (o_attrs o) = Some s) as Hkeys.
  { intros s x Hin. apply collect_hooks_in in Hin as [?%elem_of_nil|(Hin & Hs & Hhp)]; [done|].
    destruct (Hnames _ _ Hin Hs) as (o & Hx1 & Hname).
    destruct (Hh' _ _ Hx1) as (o' & Hx' & Hcore & Hname').
    exists o'. split; [done|]. split; [|congruence].
    rewrite <- (is_HookPoint_cls h' x o' Hx'). rewrite <- Hhp.
    apply is_HookPoint_same. pose proof (Hag x) as Hagx. rewrite Hx' in Hagx |- *.
    destruct (h4 !! x) as [o4|]; [|done]. cbn. by destruct Hagx as (-> & _). }
  split; [done|].
  apply NoDup_values; [by apply collect_NoDup, NoDup_nil|].
  intros s s' x Hin Hin'.
  destruct (Hkeys _ _ Hin) as (o & Hx & _ & Hn), (Hkeys _ _ Hin') as (o' & Hx' & _ & Hn').
  congruence.
Qed.

(** * The slots of the adapter *)

Lemma getattr_kept obj a h v h0 h' :
  kept h h' → Adapter.getattr obj a h = Ok (v, h0) → Adapter.getattr obj a h' = Ok (v, h').
Proof.
  intros Hk. destruct obj as [l| |]; cbn [Adapter.getattr]; [|done..].
  unfold bind, deref. destruct (h !! l) as [o|] eqn:Hl; [|done].
  destruct (Hk l o Hl) as (o' & -> & _ & -> & ->).
  destruct (dict_get a (a_params (o_attrs o))) as [t|]; [by intros [= <- _]|].
  destruct (dict_get a (o_modules o)) as [[c|]|]; [by intros [= <- _]..|done].
Qed.

Lemma getattr_each_kept l : ∀ obj h v h0 h',
  kept h h' → Adapter.getattr_each obj l h = Ok (v, h0) →
  Adapter.getattr_each obj l h' = Ok (v, h').
Proof.
  induction l as [|a l IH]; intros obj h v h0 h' Hk; cbn [Adapter.getattr_each].
  - by intros [= <- _].
  - intros (o & h1 & Hg & Hrest)%bind_Ok. pose proof (getattr_read_only _ _ _ _ _ Hg) as ->.
    unfold bind. rewrite (getattr_kept _ _ _ _ _ _ Hk Hg). by eapply IH.
Qed.

(** an attribute of what a path leads to *)
Lemma get_attr_of_path obj a b h v h1 w h2 :
  ("."%char ∉ String.list_ascii_of_string b) →
  Adapter._get_attr_recursively obj a h = Ok (v, h1) →
  Adapter.getattr v b h = Ok (w, h2) →
  Adapter._get_attr_recursively obj (a +:+ "." +:+ b) h = Ok (w, h).
Proof.
  intros Hb Ha Hg. unfold Adapter._get_attr_recursively in *.
  pose proof (getattr_each_read_only _ _ _ _ _ Ha) as ->.
  pose proof (getattr_read_only _ _ _ _ _ Hg) as ->.
  rewrite split_dots_app, getattr_each_app. unfold bind at 1. rewrite Ha.
  rewrite split_dots_no_dot by done. change ("" +:+ b) with b.
  cbn [Adapter.getattr_each]. unfold bind. by rewrite Hg.
Qed.

Lemma wrap_blocks_result bs : ∀ h r h',
  Adapter.wrap_blocks bs h = Ok (r, h') → r = omap snd bs.
Proof.
  induction bs as [|[k [b|]] bs IH]; intros h r h'; cbn [Adapter.wrap_blocks].
  - by intros [= <- _].
  - intros (b' & h1 & Hb & (rest & h2 & Hrest & [= <- _])%bind_Ok)%bind_Ok.
    cbn [omap list_omap snd]. rewrite <- (IH _ _ _ Hrest).
    unfold Adapter._wrap_block in Hb.
    apply bind_Ok in Hb as (o & h0 & _ & (u & h3 & _ & [= <- _])%bind_Ok). done.
  - done.
Qed.

Section slots.
Variable from_pretrained : string → M loc.
Variable wrap : loc → M loc.
Variable tokenizer_from_pretrained : string → bool → bool → option string → M Adapter.Tokenizer.
Variable set_tokenizer : Adapter.Tokenizer → string → Adapter.Tokenizer.
Variable non_hf_hosted : list string.
Variable hf_token : option string.

(** The slots of a constructed adapter are what the paths of the mapping
    lead to in the wrapped model, not copies: [unembed] holds the tensors
    [weight] and [bias] of the module at [lm_head_attr], [embed] is the
    module at [embedding_attr], [ln_final] the one at [last_layernorm_attr],
    [pos_embed] holds the tensor [weight] of the module at
    [positional_embedding_attr], and when [block_attr] leads to a module,
    that module is a container and [blocks] are the modules it holds, in its
    order. *)
Theorem adapter_slots_alias map_cfg cfg hf_model_name model tokenizer move side h r h' :
  Adapter.__init__ from_pretrained wrap tokenizer_from_pretrained set_tokenizer
    non_hf_hosted hf_token map_cfg cfg hf_model_name model tokenizer move side h
    = Ok (r, h') →
  Adapter._get_attr_recursively (Adapter.VModule (Adapter.model r))
    (Adapter.lm_head_attr map_cfg +:+ ".weight") h' = Ok (Adapter.W_U (Adapter.unembed r), h') ∧
  Adapter._get_attr_recursively (Adapter.VModule (Adapter.model r))
    (Adapter.lm_head_attr map_cfg +:+ ".bias") h' = Ok (Adapter.b_U (Adapter.unembed r), h') ∧
  Adapter._get_attr_recursively (Adapter.VModule (Adapter.model r))
    (Adapter.embedding_attr map_cfg) h' = Ok (Adapter.embed r, h') ∧
  (∀ a, Adapter.last_layernorm_attr map_cfg = Some a →
     ∃ v, Adapter.ln_final r = Some v ∧
          Adapter._get_attr_recursively (Adapter.VModule (Adapter.model r)) a h' = Ok (v, h')) ∧
  (∀ pe, Adapter.pos_embed r = Some pe →
     Adapter._get_attr_recursively (Adapter.VModule (Adapter.model r))
       (Adapter.positional_embedding_attr map_cfg +:+ ".weight") h'
     = Ok (Adapter.W_pos pe, h')) ∧
  (∀ l,
     Adapter._get_attr_recursively (Adapter.VModule (Adapter.model r))
       (Adapter.block_attr map_cfg) h' = Ok (Adapter.VModule l, h') →
     ∃ o, h' !! l = Some o ∧ is_container (o_cls o) = true ∧
          Adapter.blocks r = omap snd (o_modules o)).
Proof.
  unfold Adapter.__init__.
  intros (u & h0 & _ & (w & h1 & _ & Hslots)%bind_Ok)%bind_Ok.
  unfold Adapter.init_slots in Hslots.
  apply bind_Ok in Hslots as (st & h2 & Htok & Hslots).
  apply bind_Ok in Hslots as (tok & h3 & Hpad & Hslots).
  apply bind_Ok in Hslots as (ue & h4 & Hue & Hslots).
  apply bind_Ok in Hslots as (sue & h5 & Hsue & Hslots).
  apply bind_Ok in Hslots as (em & h6 & Hem & Hslots).
  apply bind_Ok in Hslots as (he & h7 & Hhe & Hslots).
  apply bind_Ok in Hslots as (ln & h8 & Hln & Hslots).
  apply bind_Ok in Hslots as (pe & h9 & Hpe & Hslots).
  apply bind_Ok in Hslots as (hpe & h10 & Hhpe & Hslots).
  apply bind_Ok in Hslots as (ht & h11 & Hht & Hslots).
  apply bind_Ok in Hslots as (bl & h12 & Hbl & Hslots).
  apply bind_Ok in Hslots as (dicts & h13 & Hdicts & Hslots).
  apply bind_Ok in Hslots as (u' & h14 & Hmove & [= <- <-]).
  cbn [Adapter.unembed Adapter.embed Adapter.ln_final Adapter.pos_embed Adapter.blocks
       Adapter.model].
  assert (h3 = h2) as ->.
  { destruct st as [[t|]|]; [|done..]. by injection Hpad as _ <-. }
  pose proof (getattr_each_read_only _ _ _ _ _ Hue) as ->.
  unfold Adapter.from_regular_unembed in Hsue.
  apply bind_Ok in Hsue as (wu & hw & Hwu & (bu & hb & Hbu & [= <- <-])%bind_Ok).
  pose proof (getattr_read_only _ _ _ _ _ Hwu) as ->.
  pose proof (getattr_read_only _ _ _ _ _ Hbu) as ->.
  pose proof (getattr_each_read_only _ _ _ _ _ Hem) as ->.
  injection Hhe as <- <-.
  set (h1' := h2 ++ [fresh_obj HookPoint]) in *.
  assert (kept h2 h1') as K1 by apply kept_alloc.
  assert (h8 = h1') as ->.
  { destruct (Adapter.last_layernorm_attr map_cfg) as [a|].
    - apply bind_Ok in Hln as (v & hv & Hv & [= _ <-]).
      by apply getattr_each_read_only in Hv.
    - by injection Hln as _ <-. }
  assert (h9 = h1') as ->.
  { apply opt_Ok in Hpe as [(Hb & a & -> & Hm)|(Hb & -> & ->)]; [|done].
    apply bind_Ok in Hm as (v & hv & Hv & Hm). apply getattr_each_read_only in Hv as ->.
    unfold Adapter.from_regular_pos_embed in Hm.
    apply bind_Ok in Hm as (v' & hv' & Hv' & [= _ <-]).
    by apply getattr_read_only in Hv'. }
  assert (kept h1' h10) as K2.
  { apply opt_Ok in Hhpe as [(Hb & a & -> & [= <- <-])|(Hb & -> & ->)];
      [apply kept_alloc|apply kept_refl]. }
  assert (kept h10 h11) as K3.
  { apply opt_Ok in Hht as [(Hb & a & -> & [= <- <-])|(Hb & -> & ->)];
      [apply kept_alloc|apply kept_refl]. }
  pose proof (get_model_blocks_kept _ _ _ _ _ Hbl) as K4.
  pose proof (adapter_setup_Ok _ _ _ _ Hdicts) as [K5 _].
  assert (h14 = h13) as ->.
  { destruct move; [destruct (Adapter.device cfg)|]; [|done|]; by injection Hmove as _ <-. }
  assert (kept h12 h13) as K45 by done.
  assert (kept h11 h13) as K35 by (by eapply kept_trans).
  assert (kept h10 h13) as K25 by (by eapply kept_trans).
  assert (kept h1' h13) as K15 by (by eapply kept_trans).
  assert (kept h2 h13) as K05 by (by eapply kept_trans).
  split_and!.
  - change (Adapter.lm_head_attr map_cfg +:+ ".weight")
      with (Adapter.lm_head_attr map_cfg +:+ "." +:+ "weight").
    eapply get_attr_of_path.
    + intros Hin. by repeat (apply elem_of_cons in Hin as [?|Hin]; [done|]);
        apply elem_of_nil in Hin.
    + by eapply getattr_each_kept.
    + by eapply getattr_kept.
  - change (Adapter.lm_head_attr map_cfg +:+ ".bias")
      with (Adapter.lm_head_attr map_cfg +:+ "." +:+ "bias").
    eapply get_attr_of_path.
    + intros Hin. by repeat (apply elem_of_cons in Hin as [?|Hin]; [done|]);
        apply elem_of_nil in Hin.
    + by eapply getattr_each_kept.
    + by eapply getattr_kept.
  - by eapply getattr_each_kept.
  - intros a Ha. rewrite Ha in Hln.
    apply bind_Ok in Hln as (v & hv & Hv & [= <- _]). exists v. split; [done|].
    exact (getattr_each_kept _ _ _ _ _ _ K15 Hv).
  - intros pe' ->.
    apply opt_Ok in Hpe as [(Hb & a & [= <-] & Hm)|(Hb & ? & _)]; [|done].
    apply bind_Ok in Hm as (v & hv & Hv & Hm).
    pose proof (getattr_each_read_only _ _ _ _ _ Hv) as ->.
    unfold Adapter.from_regular_pos_embed in Hm.
    apply bind_Ok in Hm as (v' & hv' & Hv' & [= <- _]).
    change (Adapter.positional_embedding_attr map_cfg +:+ ".weight")
      with (Adapter.positional_embedding_attr map_cfg +:+ "." +:+ "weight").
    eapply get_attr_of_path.
    + intros Hin. by repeat (apply elem_of_cons in Hin as [?|Hin]; [done|]);
        apply elem_of_nil in Hin.
    + exact (getattr_each_kept _ _ _ _ _ _ K15 Hv).
    + exact (getattr_kept _ _ _ _ _ _ K15 Hv').
  - unfold Adapter._get_model_blocks in Hbl.
    apply bind_Ok in Hbl as (v & hv & Hv & Hrest).
    pose proof (getattr_each_read_only _ _ _ _ _ Hv) as ->.
    intros l Hl'. pose proof (getattr_each_kept _ _ _ _ _ _ K35 Hv) as Hv'.
    unfold Adapter._get_attr_recursively in Hl'. rewrite Hv' in Hl'. injection Hl' as ->.
    apply bind_Ok in Hrest as (o & hd & Hd & Hrest).
    unfold deref in Hd. destruct (h11 !! l) as [ol|] eqn:Hl; [|done]. injection Hd as <- <-.
    destruct (K35 l ol Hl) as (o' & Hl' & Hc' & _ & Hm').
    exists o'. split; [done|].
    rewrite Hc', Hm'. destruct (o_cls ol) eqn:Hc; try done.
    + split; [done|]. by eapply wrap_blocks_result.
    + split; [done|]. by eapply wrap_blocks_result.
    + split; [done|]. destruct (o_modules ol); [|done]. by injection Hrest as <- _.
Qed.
End slots.

Lemma adapter_slots_alias_witness :
  ∃ r h',
    Adapter.__init__ (λ _, ret 0) (λ l, ret l) hub_tokenizer keep_tokenizer [] None
      gpt2_map_cfg gpt2_cfg (Some "gpt2") None None true "right" TinyLM_heap = Ok (r, h') ∧
    Adapter._get_attr_recursively (Adapter.VModule (Adapter.model r)) "lm_head.weight" h'
      = Ok (Adapter.W_U (Adapter.unembed r), h') ∧
    Adapter.W_U (Adapter.unembed r) = Adapter.VTensor 2.
Proof.
  eexists _, _. split; [vm_compute; reflexivity|].
  match goal with
  | |- Adapter._get_attr_recursively (Adapter.VModule (Adapter.model ?r)) _ ?h' = _ ∧ _ =>
      assert (Adapter.__init__ (λ _, ret 0) (λ l, ret l) hub_tokenizer keep_tokenizer [] None
                gpt2_map_cfg gpt2_cfg (Some "gpt2") None None true "right" TinyLM_heap
              = Ok (r, h')) as Hrun by (vm_compute; reflexivity);
      destruct (adapter_slots_alias _ _ _ _ _ _ _ _ _ _ _ _ _ _ _ _ Hrun) as (HW & _);
      exact (conj HW eq_refl)
  end.
Defined.

Lemma hook_names_are_keys_witness :
  ∃ H h',
    auto_hook 5 0 WithHook_heap = Ok (H, h') ∧
    (∀ s x, (s, x) ∈ list_all_hooks h' H →
            ∃ o, h' !! x = Some o ∧ o_cls o = HookPoint ∧ a_name (o_attrs o) = Some s) ∧
    NoDup (list_all_hooks h' H).*2.
Proof.
  apply (hook_names_are_keys WithHook_tree 5 WithHook_heap).
  - apply WithHook_tree_ok.
  - apply WithHook_repr.
  - vm_compute. lia.
Defined.

(** * Wrapping, unwrapping and wrapping again *)

